(** * Chess Engine Arena: rules engine, pairing, tournament controller, Elo

    A shallow embedding of [board.py], [opening_book.py] (SAN look-up),
    [tournament.py] (pairing algorithms and the [Tournament] controller)
    and [elo.py], with the properties of the written specification stated
    and proved over it.

    Conventions of the embedding:
    - Python [int] is [Z]; a one-character [str] is [ascii]; longer
      strings are [string]; [None]-able values are [option].
    - The 8x8 grid is a [list (list ascii)], as the code has it.  Every
      subscript of the source is guarded by [valid] or is taken at
      coordinates of a generated move; [cell] returns ["."] where Python
      would raise (or wrap a negative index), so the embedding agrees with
      the source on 8x8 grids and in-range coordinates.
    - Characters are 7-bit ASCII, the alphabet of FEN and UCI tokens.
    - A [dict] is a [gmap], a [set] a [gset].
    - A Python [float] is a binary64 [float] with the IEEE operations;
      tournament scores, which are multiples of one half, are in [Q]. *)

From Stdlib Require Import ZArith QArith List String Ascii Lia Bool DecimalString.
From Stdlib Require Import Permutation DecimalPos Sorted.
From Stdlib Require Floats.
From stdpp Require Import gmap strings list.
Import ListNotations.

Local Open Scope Z_scope.

(** ** Python primitives used by the sources *)

Module Py.

Definition ord (c : ascii) : Z := Z.of_nat (nat_of_ascii c).

(** [chr n]; Python raises for a negative [n], which no call site
    reaches with in-range coordinates. *)
Definition chr (n : Z) : ascii := ascii_of_nat (Z.to_nat n).

Definition isupper (c : ascii) : bool := (65 <=? ord c) && (ord c <=? 90).
Definition islower (c : ascii) : bool := (97 <=? ord c) && (ord c <=? 122).
Definition isdigit (c : ascii) : bool := (48 <=? ord c) && (ord c <=? 57).

Definition lower (c : ascii) : ascii := if isupper c then chr (ord c + 32) else c.
Definition upper (c : ascii) : ascii := if islower c then chr (ord c - 32) else c.

(** [int(c)] of a one-character string that is a digit. *)
Definition int_of_char (c : ascii) : Z := ord c - 48.

(** [str(n)] *)
Definition str (z : Z) : string := NilZero.string_of_int (Z.to_int z).

(** [s[i]]; the NUL character stands for the [IndexError] case. *)
Definition at_ (s : string) (i : nat) : ascii :=
  match String.get i s with Some c => c | None => "000"%char end.

Definition str1 (c : ascii) : string := String c EmptyString.

(** [c in s] for a one-character [c]. *)
Fixpoint char_in (c : ascii) (s : string) : bool :=
  match s with
  | EmptyString => false
  | String d s' => (c =? d)%char || char_in c s'
  end.

(** [list.remove(x)] when [x] is present: drops the first occurrence. *)
Fixpoint remove_first (x : ascii) (l : list ascii) : list ascii :=
  match l with
  | [] => []
  | y :: l' => if (x =? y)%char then l' else y :: remove_first x l'
  end.

(** [sep.join(parts)] *)
Fixpoint join (sep : string) (parts : list string) : string :=
  match parts with
  | [] => ""
  | [p] => p
  | p :: ps => p ++ sep ++ join sep ps
  end.

(** Whitespace as [str.split()] sees it. *)
Definition isspace (c : ascii) : bool :=
  let n := ord c in
  ((9 <=? n) && (n <=? 13)) || ((28 <=? n) && (n <=? 32)).

(** [s.split()]: maximal runs of non-whitespace characters.  [cur] is the
    run being read, reversed. *)
Fixpoint split_ws_go (s : string) (cur : list ascii) : list string :=
  let flush (rest : list string) :=
    match cur with
    | [] => rest
    | _ => string_of_list_ascii (rev cur) :: rest
    end in
  match s with
  | EmptyString => flush []
  | String c s' =>
      if isspace c then flush (split_ws_go s' [])
      else split_ws_go s' (c :: cur)
  end.

Definition split_ws (s : string) : list string := split_ws_go s [].

(** [s.replace(c, '')] for a one-character [c]. *)
Fixpoint remove_char (c : ascii) (s : string) : string :=
  match s with
  | EmptyString => EmptyString
  | String d s' => if (c =? d)%char then remove_char c s' else String d (remove_char c s')
  end.

(** [s.strip()] *)
Fixpoint lstrip (s : string) : string :=
  match s with
  | String c s' => if isspace c then lstrip s' else s
  | EmptyString => EmptyString
  end.

Definition rev_string (s : string) : string :=
  string_of_list_ascii (rev (list_ascii_of_string s)).

Definition strip (s : string) : string := rev_string (lstrip (rev_string (lstrip s))).

(** [s.endswith(suffix)] and [s[:-len(suffix)]] *)
Definition endswith (s suffix : string) : bool :=
  String.prefix (rev_string suffix) (rev_string s).

Definition drop_suffix (s suffix : string) : string :=
  String.substring 0 (String.length s - String.length suffix) s.

End Py.

(** [utils.normalize_engine_name] is imported by every module but
    [utils.py] is not among the sources; [tournament.py] carries the copy
    it falls back on when the import fails, embedded here. *)
Definition normalize_engine_name (name : string) : string :=
  Py.strip
    (fold_left
       (fun name s => if Py.endswith name s then Py.strip (Py.drop_suffix name s) else name)
       [" (White)"; " (Black)"; " (white)"; " (black)";
        "(White)"; "(Black)"; "(white)"; "(black)"]%string
       name).

(** ** constants.py *)

Definition START_FEN : string :=
  "rnbqkbnr/pppppppp/8/8/8/8/PPPPPPPP/RNBQKBNR w KQkq - 0 1".

Definition ROOK_D   : list (Z * Z) := [(1, 0); (-1, 0); (0, 1); (0, -1)].
Definition BISHOP_D : list (Z * Z) := [(1, 1); (1, -1); (-1, 1); (-1, -1)].
Definition QUEEN_D  : list (Z * Z) := ROOK_D ++ BISHOP_D.
Definition KNIGHT_D : list (Z * Z) :=
  [(2,1); (2,-1); (-2,1); (-2,-1); (1,2); (1,-2); (-1,2); (-1,-2)].
Definition KING_D   : list (Z * Z) := ROOK_D ++ BISHOP_D.

(** Modelled from the spec: [utils.valid] is imported by [board.py] but
    [utils.py] is not part of the sources.  The position is an 8x8 grid
    and [valid] guards every subscript of it, so it is the bounds test of
    that grid. *)
Definition valid (r c : Z) : bool :=
  (0 <=? r) && (r <? 8) && (0 <=? c) && (c <? 8).

(** ** board.py: the [Board] class *)

Module Board.
Import Py.

(** A move as the code carries it: [(fr, fc, tr, tc, promo)]. *)
Definition Move : Type := (Z * Z * Z * Z * option ascii)%type.

Definition move_eqb (m1 m2 : Move) : bool :=
  let '(a1, b1, c1, d1, p1) := m1 in
  let '(a2, b2, c2, d2, p2) := m2 in
  (a1 =? a2) && (b1 =? b2) && (c1 =? c2) && (d1 =? d2) &&
  match p1, p2 with
  | None, None => true
  | Some x, Some y => (x =? y)%char
  | _, _ => false
  end.

(** [m in legal] *)
Definition move_in (m : Move) (l : list Move) : bool := existsb (move_eqb m) l.

Abbreviation Grid := (list (list ascii)).

Record t : Type := mk {
  board        : Grid;
  turn         : ascii;
  castling     : string;
  ep           : string;
  halfmove     : Z;
  fullmove     : Z;
  move_history : list (string * string * string);  (* (uci, san, fen_after) *)
  pos_history  : gmap string Z;                    (* position-key -> count *)
  cap_white    : list ascii;
  cap_black    : list ascii;
  material_cache : option (Z * Z)
}.

(** [board[r][c]] *)
Definition cell (g : Grid) (r c : Z) : ascii :=
  match g !! Z.to_nat r with
  | Some row => match row !! Z.to_nat c with Some x => x | None => "."%char end
  | None => "."%char
  end.

(** [board[r][c] = v] *)
Definition set_cell (g : Grid) (r c : Z) (v : ascii) : Grid :=
  match g !! Z.to_nat r with
  | Some row => <[Z.to_nat r := <[Z.to_nat c := v]> row]> g
  | None => g
  end.

Definition range8 : list Z := [0; 1; 2; 3; 4; 5; 6; 7].

(** *** _load_fen *)

Fixpoint load_row (s : string) : list ascii :=
  match s with
  | EmptyString => []
  | String ch s' =>
      if isdigit ch then List.repeat "."%char (Z.to_nat (int_of_char ch)) ++ load_row s'
      else ch :: load_row s'
  end.

(** [parts[0].split('/')]; [cur] is the row being read, reversed. *)
Fixpoint split_slash (s : string) (cur : list ascii) : list string :=
  match s with
  | EmptyString => [string_of_list_ascii (rev cur)]
  | String c s' =>
      if (c =? "/")%char then string_of_list_ascii (rev cur) :: split_slash s' []
      else split_slash s' (c :: cur)
  end.

(** [int(s)] of a decimal numeral without sign. *)
Definition int_of_string (s : string) : Z :=
  fold_left (fun acc c => 10 * acc + int_of_char c) (list_ascii_of_string s) 0.

(** [_load_fen(fen)] on a text with at least one field whose counters,
    when present, are decimal numerals: the texts [to_fen] writes, among
    them [START_FEN].  On other texts the source raises ([parts[0]] on a
    blank text, [int] on a counter that is no numeral); no such text is
    loaded below. *)
Definition load_fen (b : t) (fen : string) : t :=
  let parts := split_ws fen in
  let field (i : nat) (d : string) : string :=
    match parts !! i with Some x => x | None => d end in
  {| board        := List.map load_row (split_slash (field 0%nat "") []);
     turn         := at_ (field 1%nat "w") 0;
     castling     := field 2%nat "-";
     ep           := field 3%nat "-";
     halfmove     := match parts !! 4%nat with Some x => int_of_string x | None => 0 end;
     fullmove     := match parts !! 5%nat with Some x => int_of_string x | None => 1 end;
     move_history := move_history b;
     pos_history  := pos_history b;
     cap_white    := cap_white b;
     cap_black    := cap_black b;
     material_cache := None |}.

(** [Board()]: [__init__] sets the defaults and loads [START_FEN]. *)
Definition init : t :=
  load_fen
    {| board := []; turn := "w"; castling := "KQkq"; ep := "-";
       halfmove := 0; fullmove := 1; move_history := [];
       pos_history := ∅; cap_white := []; cap_black := [];
       material_cache := None |}
    START_FEN.

(** *** to_fen and _pos_key *)

(** The inner loop of [to_fen] over one row: [e] counts the pending empty
    squares, [s] is the text so far. *)
Fixpoint fen_row_go (row : list ascii) (e : Z) (s : string) : string :=
  match row with
  | [] => if e =? 0 then s else s ++ str e
  | x :: row' =>
      if (x =? ".")%char then fen_row_go row' (e + 1) s
      else fen_row_go row' 0 ((if e =? 0 then s else s ++ str e) ++ str1 x)
  end.

Definition fen_row (row : list ascii) : string := fen_row_go row 0 "".

Definition to_fen (b : t) : string :=
  let rows := List.map fen_row (board b) in
  let c := if (castling b =? "")%string then "-"%string else castling b in
  join "/" rows ++ " " ++ str1 (turn b) ++ " " ++ c ++ " " ++ ep b ++ " "
    ++ str (halfmove b) ++ " " ++ str (fullmove b).

Definition pos_key (b : t) : string :=
  join " " (firstn 4 (split_ws (to_fen b))).

(** *** Piece helpers *)

Definition is_w (p : ascii) : bool := negb (p =? ".")%char && isupper p.
Definition is_b (p : ascii) : bool := negb (p =? ".")%char && islower p.

Definition same (p1 p2 : ascii) : bool :=
  (is_w p1 && is_w p2) || (is_b p1 && is_b p2).

Definition enemy (p : ascii) (turn : ascii) : bool :=
  if (turn =? "w")%char then is_b p else is_w p.

Definition squares : list (Z * Z) :=
  flat_map (fun r => List.map (fun c => (r, c)) range8) range8.

Definition find_king (b : t) (turn : ascii) : option (Z * Z) :=
  let k := if (turn =? "w")%char then "K"%char else "k"%char in
  List.find (fun '(r, c) => (cell (board b) r c =? k)%char) squares.

(** *** Attack detection *)

(** The [while valid(nr, nc)] walk of [is_attacked] along one direction,
    started at [(nr, nc)].  The walk leaves the grid after at most eight
    steps; [fuel] bounds it. *)
Fixpoint ray_hit (g : Grid) (has : ascii -> bool) (chars : string)
    (dr dc : Z) (fuel : nat) (nr nc : Z) : bool :=
  match fuel with
  | O => false
  | S fuel' =>
      if valid nr nc then
        let p := cell g nr nc in
        if negb (p =? ".")%char then char_in (lower p) chars && has p
        else ray_hit g has chars dr dc fuel' (nr + dr) (nc + dc)
      else false
  end.

Definition is_attacked (b : t) (r c : Z) (by_ : ascii) : bool :=
  let g := board b in
  let has (p : ascii) := if (by_ =? "w")%char then is_w p else is_b p in
  let step (ch : ascii) '(dr, dc) :=
    let nr := r + dr in let nc := c + dc in
    valid nr nc && (lower (cell g nr nc) =? ch)%char && has (cell g nr nc) in
  let pawn_dirs := if (by_ =? "w")%char then [(1, -1); (1, 1)] else [(-1, -1); (-1, 1)] in
  existsb (step "n"%char) KNIGHT_D
  || existsb (fun '(dirs, chars) =>
                existsb (fun '(dr, dc) => ray_hit g has chars dr dc 8 (r + dr) (c + dc)) dirs)
             [(ROOK_D, "qr"%string); (BISHOP_D, "qb"%string)]
  || existsb (step "k"%char) KING_D
  || existsb (step "p"%char) pawn_dirs.

(** [in_check(turn)]: [turn or self.turn]. *)
Definition in_check (b : t) (turn_arg : option ascii) : bool :=
  let t := match turn_arg with Some x => x | None => turn b end in
  match find_king b t with
  | None => false
  | Some (kr, kc) =>
      let opp := if (t =? "w")%char then "b"%char else "w"%char in
      is_attacked b kr kc opp
  end.

(** *** Raw (no-history) move application *)

(** The column and row an en-passant string such as ["e3"] names. *)
Definition ep_col (e : string) : Z := ord (at_ e 0) - ord "a".
Definition ep_row (e : string) : Z := 8 - int_of_char (at_ e 1).

Definition side_piece (turn : ascii) (white black : ascii) : ascii :=
  if (turn =? "w")%char then white else black.

Definition rook_homes : list (Z * Z * ascii) :=
  [(7, 7, "K"%char); (7, 0, "Q"%char); (0, 7, "k"%char); (0, 0, "q"%char)].

(** [for rr, rc, flag in pairs: if r == rr and c == rc and flag in cas:
    cas.remove(flag)] *)
Definition drop_rook_flags (r c : Z) (cas : list ascii) : list ascii :=
  fold_left
    (fun cas '(rr, rc, flag) =>
       if (r =? rr) && (c =? rc) && existsb (Ascii.eqb flag) cas
       then remove_first flag cas else cas)
    rook_homes cas.

Definition apply_raw (b : t) (m : Move) : t :=
  let '(fr, fc, tr, tc, promo) := m in
  let g0 := board b in
  let piece  := cell g0 fr fc in
  let target := cell g0 tr tc in
  let p      := lower piece in
  let turn0  := turn b in
  (* En-passant capture *)
  let g1 :=
    if (p =? "p")%char && negb (ep b =? "-")%string
    then if (tr =? ep_row (ep b)) && (tc =? ep_col (ep b))
         then set_cell g0 fr (ep_col (ep b)) "."
         else g0
    else g0 in
  (* Castling: move rook *)
  let g2 :=
    if (p =? "k")%char then
      if (fc =? 4) && (tc =? 6)
      then set_cell (set_cell g1 fr 7 ".") fr 5 (side_piece turn0 "R" "r")
      else if (fc =? 4) && (tc =? 2)
      then set_cell (set_cell g1 fr 0 ".") fr 3 (side_piece turn0 "R" "r")
      else g1
    else g1 in
  let g3 := set_cell (set_cell g2 tr tc piece) fr fc "." in
  (* Promotion *)
  let g4 :=
    match promo with
    | Some pr => set_cell g3 tr tc (if (turn0 =? "w")%char then upper pr else lower pr)
    | None =>
        if (p =? "p")%char && ((tr =? 0) || (tr =? 7))
        then set_cell g3 tr tc (side_piece turn0 "Q" "q")
        else g3
    end in
  (* En-passant square for next move *)
  let ep' :=
    if (p =? "p")%char && (Z.abs (fr - tr) =? 2)
    then (str1 (chr (ord "a" + fc)) ++ str (8 - (fr + tr) / 2))%string
    else "-"%string in
  (* Update castling rights *)
  let cas0 := list_ascii_of_string (remove_char "-" (castling b)) in
  let cas1 :=
    if (p =? "k")%char
    then List.filter (fun x => negb (char_in x (if (turn0 =? "w")%char then "KQ" else "kq")))
                     cas0
    else cas0 in
  let cas2 := if (p =? "r")%char then drop_rook_flags fr fc cas1 else cas1 in
  let cas3 := drop_rook_flags tr tc cas2 in
  {| board    := g4;
     turn     := if (turn0 =? "w")%char then "b" else "w";
     castling := match cas3 with [] => "-" | _ => string_of_list_ascii cas3 end;
     ep       := ep';
     halfmove := if (p =? "p")%char || negb (target =? ".")%char then 0 else halfmove b + 1;
     fullmove := if (turn0 =? "b")%char then fullmove b + 1 else fullmove b;
     move_history := [];
     pos_history  := ∅;
     cap_white    := [];
     cap_black    := [];
     material_cache := None |}.

(** *** Pseudo-legal move generation *)

Definition promos : list ascii := ["q"; "r"; "b"; "n"]%char.

(** The [while valid(nr, nc)] walk of a sliding piece along one direction. *)
Fixpoint slide (g : Grid) (turn : ascii) (r c dr dc : Z) (fuel : nat) (nr nc : Z)
    : list Move :=
  match fuel with
  | O => []
  | S fuel' =>
      if valid nr nc then
        let t2 := cell g nr nc in
        if (t2 =? ".")%char
        then (r, c, nr, nc, None) :: slide g turn r c dr dc fuel' (nr + dr) (nc + dc)
        else if enemy t2 turn then [(r, c, nr, nc, None)]
        else []
      else []
  end.

(** Moves to the squares at fixed offsets that hold no piece of the same side. *)
Definition jumps (g : Grid) (piece : ascii) (r c : Z) (ds : list (Z * Z)) : list Move :=
  flat_map (fun '(dr, dc) =>
              let nr := r + dr in let nc := c + dc in
              if valid nr nc && negb (same piece (cell g nr nc))
              then [(r, c, nr, nc, None)] else [])
           ds.

Definition pseudo (b : t) (r c : Z) : list Move :=
  let g := board b in
  let piece := cell g r c in
  if (piece =? ".")%char then [] else
  let p := lower piece in
  let turn := if isupper piece then "w"%char else "b"%char in
  if (p =? "p")%char then
    let fwd     := if (turn =? "w")%char then -1 else 1 in
    let start_r := if (turn =? "w")%char then 6 else 1 in
    let promo_r := if (turn =? "w")%char then 0 else 7 in
    let nr := r + fwd in
    let forward :=
      if valid nr c && (cell g nr c =? ".")%char then
        if nr =? promo_r
        then List.map (fun pp => (r, c, nr, c, Some pp)) promos
        else (r, c, nr, c, None) ::
             (if (r =? start_r) && (cell g (r + 2 * fwd) c =? ".")%char
              then [(r, c, r + 2 * fwd, c, None)] else [])
      else [] in
    let captures :=
      flat_map (fun dc =>
                  let nc := c + dc in
                  if valid nr nc then
                    let tgt := cell g nr nc in
                    let is_cap := enemy tgt turn in
                    let is_ep := negb (ep b =? "-")%string
                                 && (nr =? ep_row (ep b)) && (nc =? ep_col (ep b)) in
                    if is_cap || is_ep then
                      if nr =? promo_r
                      then List.map (fun pp => (r, c, nr, nc, Some pp)) promos
                      else [(r, c, nr, nc, None)]
                    else []
                  else [])
               [-1; 1] in
    forward ++ captures
  else if (p =? "n")%char then jumps g piece r c KNIGHT_D
  else if (p =? "b")%char || (p =? "r")%char || (p =? "q")%char then
    let dirs := if (p =? "b")%char then BISHOP_D
                else if (p =? "r")%char then ROOK_D else QUEEN_D in
    flat_map (fun '(dr, dc) => slide g turn r c dr dc 8 (r + dr) (c + dc)) dirs
  else if (p =? "k")%char then
    let opp := if (turn =? "w")%char then "b"%char else "w"%char in
    let kr := if (turn =? "w")%char then 7 else 0 in
    let kc := 4 in
    let castles :=
      if (r =? kr) && (c =? kc) && negb (is_attacked b kr kc opp) then
        let ks := side_piece turn "K" "k" in
        let qs := side_piece turn "Q" "q" in
        let rp := side_piece turn "R" "r" in
        let cas := castling b in
        (if char_in ks cas
            && (cell g kr 5 =? ".")%char && (cell g kr 6 =? ".")%char
            && (cell g kr 7 =? rp)%char
            && negb (is_attacked b kr 5 opp) && negb (is_attacked b kr 6 opp)
         then [(r, c, kr, kc + 2, None)] else [])
        ++
        (if char_in qs cas
            && (cell g kr 3 =? ".")%char && (cell g kr 2 =? ".")%char
            && (cell g kr 1 =? ".")%char && (cell g kr 0 =? rp)%char
            && negb (is_attacked b kr 3 opp) && negb (is_attacked b kr 2 opp)
         then [(r, c, kr, kc - 2, None)] else [])
      else [] in
    jumps g piece r c KING_D ++ castles
  else [].

(** *** Legal move generation *)

(** [legal_moves(turn)]: [turn or self.turn]. *)
Definition legal_moves (b : t) (turn_arg : option ascii) : list Move :=
  let t := match turn_arg with Some x => x | None => turn b end in
  flat_map (fun '(r, c) =>
              let p := cell (board b) r c in
              if (p =? ".")%char then []
              else if negb (Bool.eqb (t =? "w")%char (isupper p)) then []
              else List.filter (fun mv => negb (in_check (apply_raw b mv) (Some t)))
                               (pseudo b r c))
           squares.

(** *** SAN builder *)

(** [f"{chr(ord('a') + c)}{8 - r}"] *)
Definition square_name (r c : Z) : string :=
  (str1 (chr (ord "a" + c)) ++ str (8 - r))%string.

Definition promo_suffix (promo : option ascii) : string :=
  match promo with
  | Some pr => ("=" ++ str1 (upper pr))%string
  | None => ""%string
  end.

Definition promo_eqb (p1 p2 : option ascii) : bool :=
  match p1, p2 with
  | None, None => true
  | Some x, Some y => (x =? y)%char
  | _, _ => false
  end.

Definition build_san (b : t) (m : Move) (legal : list Move) : string :=
  let '(fr, fc, tr, tc, promo) := m in
  let g := board b in
  let piece := cell g fr fc in
  let p := lower piece in
  let target := cell g tr tc in
  let is_cap :=
    negb (target =? ".")%char
    || ((p =? "p")%char && negb (ep b =? "-")%string
        && (tc =? ep_col (ep b)) && (tr =? ep_row (ep b))) in
  if (p =? "k")%char && (fc =? 4) && (tc =? 6) then "O-O"%string
  else if (p =? "k")%char && (fc =? 4) && (tc =? 2) then "O-O-O"%string
  else
    let to_sq := square_name tr tc in
    if (p =? "p")%char then
      ((if is_cap then str1 (chr (ord "a" + fc)) ++ "x" ++ to_sq else to_sq)
       ++ promo_suffix promo)%string
    else
      let pl := upper p in
      let ambig :=
        List.filter
          (fun '(m0, m1, m2, m3, m4) =>
             (m2 =? tr) && (m3 =? tc) && promo_eqb m4 promo
             && (lower (cell g m0 m1) =? p)%char
             && negb ((m0 =? fr) && (m1 =? fc)))
          legal in
      let dis :=
        match ambig with
        | [] => ""%string
        | _ =>
            let sf := existsb (fun '(m0, m1, m2, m3, m4) => m1 =? fc) ambig in
            let sr := existsb (fun '(m0, m1, m2, m3, m4) => m0 =? fr) ambig in
            if negb sf then str1 (chr (ord "a" + fc))
            else if negb sr then str (8 - fr)
            else (str1 (chr (ord "a" + fc)) ++ str (8 - fr))%string
        end in
      let cap := if is_cap then "x"%string else ""%string in
      (str1 pl ++ dis ++ cap ++ to_sq ++ promo_suffix promo)%string.

(** *** Public move application *)

(** What a call leaves behind: a raised [ValueError], or the returned
    [(san, captured_piece)]. *)
Inductive outcome : Type :=
  | Raised (msg : string)
  | Returned (san : string) (cap : option ascii).

Definition get_count (h : gmap string Z) (k : string) : Z :=
  match h !! k with Some n => n | None => 0 end.

(** The part of [apply_uci] after the legality test: the move
    [(fr, fc, tr, tc, promo)] is in [legal].  The fields are written in
    the order of the source. *)
Definition apply_checked (b : t) (uci : string) (m : Move) (legal : list Move)
    : outcome * t :=
  let '(fr, fc, tr, tc, promo) := m in
  let san0 := build_san b (fr, fc, tr, tc, promo) legal in
  let piece  := cell (board b) fr fc in
  let target := cell (board b) tr tc in
  let p      := lower piece in
  let ep_removed : option ascii :=
    if (p =? "p")%char && negb (ep b =? "-")%string
    then if (tr =? ep_row (ep b)) && (tc =? ep_col (ep b))
         then Some (cell (board b) fr (ep_col (ep b)))
         else None
    else None in
  let new := apply_raw b (fr, fc, tr, tc, promo) in
  let b1 := {| board := board new; turn := turn new; castling := castling new;
               ep := ep new; halfmove := halfmove new; fullmove := fullmove new;
               move_history := move_history b; pos_history := pos_history b;
               cap_white := cap_white b; cap_black := cap_black b;
               material_cache := None |} in
  let in_chk := in_check b1 None in
  let no_mvs := (List.length (legal_moves b1 None) =? 0)%nat in
  let san := if in_chk then (san0 ++ (if no_mvs then "#" else "+"))%string else san0 in
  let cap : option ascii :=
    match ep_removed with
    | Some x => Some x
    | None => if negb (target =? ".")%char then Some target else None
    end in
  let real_cap := match cap with Some x => negb (x =? ".")%char | None => false end in
  let cw := if real_cap && (turn b1 =? "w")%char
            then cap_white b1 ++ [default "."%char cap] else cap_white b1 in
  let cb := if real_cap && negb (turn b1 =? "w")%char
            then cap_black b1 ++ [default "."%char cap] else cap_black b1 in
  let b2 := {| board := board b1; turn := turn b1; castling := castling b1;
               ep := ep b1; halfmove := halfmove b1; fullmove := fullmove b1;
               move_history := move_history b1; pos_history := pos_history b1;
               cap_white := cw; cap_black := cb; material_cache := None |} in
  let fen_after := to_fen b2 in
  let pos := pos_key b2 in
  (Returned san cap,
   {| board := board b2; turn := turn b2; castling := castling b2;
      ep := ep b2; halfmove := halfmove b2; fullmove := fullmove b2;
      move_history := move_history b2 ++ [(uci, san, fen_after)];
      pos_history := <[pos := get_count (pos_history b2) pos + 1]> (pos_history b2);
      cap_white := cap_white b2; cap_black := cap_black b2;
      material_cache := None |}).

(** [apply_uci(uci)], as a state transformer: the outcome of the call and
    the object's state after it.  Every [raise] precedes the first write,
    so a raising call returns the state it was given. *)
Definition apply_uci (b : t) (uci : string) : outcome * t :=
  if (String.length uci <? 4)%nat then (Raised "Bad UCI", b) else
  (* int() raises ValueError on a character that is no digit *)
  if negb (isdigit (at_ uci 1) && isdigit (at_ uci 3))
  then (Raised "invalid literal for int()", b) else
  let fc := ord (at_ uci 0) - ord "a" in
  let fr := 8 - int_of_char (at_ uci 1) in
  let tc := ord (at_ uci 2) - ord "a" in
  let tr := 8 - int_of_char (at_ uci 3) in
  let promo0 := if (4 <? String.length uci)%nat then Some (lower (at_ uci 4)) else None in
  let legal := legal_moves b None in
  if move_in (fr, fc, tr, tc, promo0) legal
  then apply_checked b uci (fr, fc, tr, tc, promo0) legal
  else
    match promo0 with
    | None =>
        if move_in (fr, fc, tr, tc, Some "q"%char) legal
        then apply_checked b uci (fr, fc, tr, tc, Some "q"%char) legal
        else (Raised "Illegal move", b)
    | Some _ => (Raised "Illegal move", b)
    end.

(** *** Game-result detection *)

Definition non_king_pieces (b : t) (white : bool) : list ascii :=
  let all :=
    flat_map (fun '(r, c) =>
                let p := cell (board b) r c in
                if (p =? ".")%char then []
                else if Bool.eqb (isupper p) white then [lower p] else [])
             squares in
  List.filter (fun p => negb (p =? "k")%char) all.

Definition lone_minor (l : list ascii) : bool :=
  match l with
  | [x] => (x =? "b")%char || (x =? "n")%char
  | _ => false
  end.

Definition insufficient (b : t) : bool :=
  let ws := non_king_pieces b true in
  let bs := non_king_pieces b false in
  match ws, bs with
  | [], [] => true
  | [], _ => lone_minor bs
  | _, [] => lone_minor ws
  | _, _ => false
  end.

(** [(over, result, reason, winner)] *)
Definition Result : Type := (bool * string * string * option string)%type.

Definition game_result (b : t) : Result :=
  let legal := legal_moves b None in
  match legal with
  | [] =>
      if in_check b None then
        let winner := if (turn b =? "w")%char then "black"%string else "white"%string in
        let result := if (turn b =? "w")%char then "0-1"%string else "1-0"%string in
        (true, result, "Checkmate"%string, Some winner)
      else (true, "1/2-1/2"%string, "Stalemate"%string, None)
  | _ =>
      if 100 <=? halfmove b then
        (true, "1/2-1/2"%string, "Draw by 50-move rule"%string, None)
      else if 3 <=? get_count (pos_history b) (pos_key b) then
        (true, "1/2-1/2"%string, "Draw by threefold repetition"%string, None)
      else if insufficient b then
        (true, "1/2-1/2"%string, "Draw by insufficient material"%string, None)
      else (false, ""%string, ""%string, None)
  end.

(** Playing a list of UCI tokens, stopping at the first rejected one. *)
Fixpoint play (b : t) (ucis : list string) : option t :=
  match ucis with
  | [] => Some b
  | u :: us =>
      match apply_uci b u with
      | (Returned _ _, b') => play b' us
      | (Raised _, _) => None
      end
  end.

(** *** Piece access, reset, move-history helpers *)

(** [get(r, c)] *)
Definition get (b : t) (r c : Z) : option ascii :=
  if valid r c then Some (cell (board b) r c) else None.

(** [reset()]: runs [__init__] again. *)
Definition reset (b : t) : t := init.

(** [uci_moves_list()] and [uci_moves_str()] *)
Definition uci_moves_list (b : t) : list string :=
  List.map (fun m => fst (fst m)) (move_history b).

Definition uci_moves_str (b : t) : string := join " " (uci_moves_list b).

(** *** Material counting *)

(** [constants.PIECE_VALUES] *)
Definition PIECE_VALUES : gmap ascii Z :=
  list_to_map [("p", 1); ("n", 3); ("b", 3); ("r", 5); ("q", 9); ("k", 0)]%char.

(** The two nested loops of [material] over the rows and their cells. *)
Definition count_material (g : Grid) : Z * Z :=
  fold_left
    (fun '(wm, bm) row =>
       fold_left
         (fun '(wm, bm) x =>
            if negb (x =? ".")%char then
              let v := default 0 (PIECE_VALUES !! lower x) in
              if isupper x then (wm + v, bm) else (wm, bm + v)
            else (wm, bm))
         row (wm, bm))
    g (0, 0).

(** [material()]: the value returned and the object after the call, which
    holds the value in its cache. *)
Definition material (b : t) : (Z * Z) * t :=
  match material_cache b with
  | Some v => (v, b)
  | None =>
      let v := count_material (board b) in
      (v, {| board := board b; turn := turn b; castling := castling b;
             ep := ep b; halfmove := halfmove b; fullmove := fullmove b;
             move_history := move_history b; pos_history := pos_history b;
             cap_white := cap_white b; cap_black := cap_black b;
             material_cache := Some v |})
  end.

End Board.

(** ** opening_book.py: SAN look-up *)

Module OpeningBook.
Import Py Board.

(** [s.replace('+', '').replace('#', '').replace('x', '')] *)
Definition clean (s : string) : string :=
  remove_char "x" (remove_char "#" (remove_char "+" s)).

(** The UCI token of a move:
    [f"{chr(ord('a') + fc)}{8 - fr}{chr(ord('a') + tc)}{8 - tr}"], with
    the promotion letter appended when there is one. *)
Definition uci_of (m : Move) : string :=
  let '(fr, fc, tr, tc, promo) := m in
  (square_name fr fc ++ square_name tr tc
   ++ match promo with Some pr => str1 pr | None => "" end)%string.

(** [_san_to_uci(board, san)]: the first legal move whose SAN matches. *)
Definition san_to_uci (b : t) (san : string) : option string :=
  let san_clean := clean san in
  let legal := legal_moves b None in
  option_map uci_of
    (List.find
       (fun move =>
          let test_san := build_san b move legal in
          (clean test_san =? san_clean)%string || (test_san =? san)%string)
       legal).

(** [_looks_like_uci(tok)] *)
Definition looks_like_uci (tok : string) : bool :=
  if negb ((String.length tok =? 4)%nat || (String.length tok =? 5)%nat) then false
  else char_in (at_ tok 0) "abcdefgh" && isdigit (at_ tok 1)
       && char_in (at_ tok 2) "abcdefgh" && isdigit (at_ tok 3).

(** What [_tokens_to_uci] leaves behind: the list it returns, [None], or
    the exception of its second, unguarded [apply_uci]. *)
Inductive conversion : Type :=
  | Converted (uci_list : list string)
  | NoMatch
  | Failed (msg : string).

(** The loop of [_tokens_to_uci] over the tokens; [b] is the board the
    moves are replayed on, [uci_list] the list built so far. *)
Fixpoint tokens_to_uci_go (b : t) (uci_list : list string) (tokens : list string)
    : conversion :=
  match tokens with
  | [] => Converted uci_list
  | tok0 :: rest =>
      let tok := strip tok0 in
      if (tok =? "")%string then tokens_to_uci_go b uci_list rest
      else
        let by_san (b : t) : conversion :=
          match san_to_uci b tok with
          | None => NoMatch
          | Some uci =>
              match apply_uci b uci with
              | (Returned _ _, b') => tokens_to_uci_go b' (uci_list ++ [uci]) rest
              | (Raised msg, _) => Failed msg
              end
          end in
        if looks_like_uci tok then
          match apply_uci b tok with
          | (Returned _ _, b') => tokens_to_uci_go b' (uci_list ++ [tok]) rest
          | (Raised _, b') => by_san b'                  (* except Exception: pass *)
          end
        else by_san b
  end.

(** [_tokens_to_uci(tokens)]: the replay starts from a fresh [Board()]. *)
Definition tokens_to_uci (tokens : list string) : conversion :=
  tokens_to_uci_go init [] tokens.

End OpeningBook.

(** ** tournament.py: players, games, pairing algorithms *)

Module Pairing.

(** Python's [list.sort(key=...)]: a stable sort, ascending in the key.
    For a total preorder on keys the result of a stable sort is unique;
    insertion from the right realises it. *)
Section Sort.
Context {A : Type} (le : A -> A -> bool).

Fixpoint insert_by (x : A) (l : list A) : list A :=
  match l with
  | [] => [x]
  | y :: l' => if le x y then x :: l else y :: insert_by x l'
  end.

Definition sort_by (l : list A) : list A := fold_right insert_by [] l.
End Sort.

(** Sort keys are tuples of numbers closed by a name; Python compares
    them lexicographically. *)
Definition Key : Type := (list Q * string)%type.

Fixpoint key_le_nums (a b : list Q) (na nb : string) : bool :=
  match a, b with
  | x :: a', y :: b' =>
      if Qeq_bool x y then key_le_nums a' b' na nb else Qle_bool x y
  | [], [] => String.leb na nb
  | [], _ :: _ => true
  | _ :: _, [] => false
  end.

Definition key_le (a b : Key) : bool := key_le_nums (fst a) (fst b) (snd a) (snd b).

(** [TournamentPlayer]; scores are the floats 0.0, 0.5, 1.0 and their
    sums, exact as rationals. *)
Record Player : Type := mkPlayer {
  name          : string;
  engine_path   : string;
  score         : Q;
  wins          : Z;
  draws         : Z;
  losses        : Z;
  buchholz      : Q;
  sonneborn     : Q;
  color_history : list ascii;
  opponents     : list string;
  seed          : Z
}.

Definition new_player (nm path : string) : Player :=
  {| name := nm; engine_path := path; score := 0; wins := 0; draws := 0;
     losses := 0; buchholz := 0; sonneborn := 0; color_history := [];
     opponents := []; seed := 0 |}.

(** [TournamentPlayer.record(result, opponent_name, color)] *)
Definition record (p : Player) (result : Q) (opponent_name : string) (color : ascii)
    : Player :=
  {| name := name p; engine_path := engine_path p;
     score := Qred (score p + result);
     wins   := if Qeq_bool result 1 then wins p + 1 else wins p;
     draws  := if Qeq_bool result 1 then draws p
               else if Qeq_bool result (1 # 2) then draws p + 1 else draws p;
     losses := if Qeq_bool result 1 then losses p
               else if Qeq_bool result (1 # 2) then losses p else losses p + 1;
     buchholz := buchholz p; sonneborn := sonneborn p;
     color_history := color_history p ++ [color];
     opponents := opponents p ++ [opponent_name];
     seed := seed p |}.

(** [TournamentPlayer.games_played] *)
Definition games_played (p : Player) : Z := wins p + draws p + losses p.

(** [frozenset({a, b})] *)
Definition pair_key (a b : string) : gset string := {[a; b]}.

(** What a pairing call leaves behind. *)
Inductive res (T : Type) : Type :=
  | Ret (v : T)
  | IndexError
  | OutOfFuel.
Arguments Ret {T} v.
Arguments IndexError {T}.
Arguments OutOfFuel {T}.

(** The pairing code handles player objects; [A] is what stands for an
    object (the record itself, or a reference into a store) and [view]
    reads its fields. *)
Section Swiss.
Context {A : Type} (view : A -> Player).

(** Source of [random.random() < 0.5]: the [n]-th draw. *)
Variable coin : nat -> bool.

Definition count_color (c : ascii) (p : A) : Z :=
  Z.of_nat (List.length (List.filter (Ascii.eqb c) (color_history (view p)))).

Definition last_is_b (p : A) : bool :=
  match last (color_history (view p)) with
  | Some c => (c =? "b")%char
  | None => false
  end.

(** [_assign_colors(p1, p2)]; [n] counts the random draws made so far. *)
Definition assign_colors (p1 p2 : A) (n : nat) : (A * A) * nat :=
  let b1 := count_color "b" p1 - count_color "w" p1 in
  let b2 := count_color "b" p2 - count_color "w" p2 in
  if b2 <? b1 then ((p1, p2), n)
  else if b1 <? b2 then ((p2, p1), n)
  else if last_is_b p1 then ((p1, p2), n)
  else if last_is_b p2 then ((p2, p1), n)
  else (if coin n then (p1, p2) else (p2, p1), S n).

Definition have_played (played_pairs : gset (gset string)) (p1 p2 : A) : bool :=
  bool_decide (pair_key (name (view p1)) (name (view p2)) ∈ played_pairs).

(** [_backtrack_pair(players, played_pairs, depth)].  No [return] of the
    source yields [None], so its [if sub is not None] always holds and
    [sub or []] is [sub]; an [IndexError] raised by a recursive call
    propagates.  [fuel] bounds the recursion depth. *)
Fixpoint backtrack_pair_go (fuel : nat) (played_pairs : gset (gset string))
    (players : list A) : res (list A) :=
  match fuel with
  | O => OutOfFuel
  | S fuel' =>
      match players with
      | [] => Ret []
      | [a; b] => Ret [a; b]
      | p1 :: rest =>
          let fallback : res (list A) :=
            match rest with
            | [] => IndexError                      (* rest[0] *)
            | p2 :: remaining =>
                match backtrack_pair_go fuel' played_pairs remaining with
                | Ret sub => Ret (p1 :: p2 :: sub)
                | e => e
                end
            end in
          let fix candidates (i : nat) (cands : list A) : res (list A) :=
            match cands with
            | [] => fallback
            | p2 :: cands' =>
                if negb (have_played played_pairs p1 p2) then
                  match backtrack_pair_go fuel' played_pairs
                          (take i rest ++ drop (S i) rest) with
                  | Ret sub => Ret (p1 :: p2 :: sub)
                  | e => e
                  end
                else candidates (S i) cands'
            end in
          candidates 0%nat rest
      end
  end.

Definition backtrack_pair (played_pairs : gset (gset string)) (players : list A)
    : res (list A) :=
  backtrack_pair_go (S (List.length players)) played_pairs players.

Definition swiss_key (p : A) : Key :=
  ([Qopp (score (view p)); Qopp (inject_Z (wins (view p)))], name (view p)).

Definition had_bye (p : A) : bool :=
  existsb (String.eqb "BYE") (opponents (view p)).

(** [for p in reversed(available): if 'BYE' not in p.opponents: ...]:
    the index of the last player without a bye. *)
Fixpoint last_without_bye (l : list A) (i : nat) : option nat :=
  match l with
  | [] => None
  | p :: l' =>
      match last_without_bye l' (S i) with
      | Some j => Some j
      | None => if had_bye p then None else Some i
      end
  end.

(** The loop [for i in range(0, len(paired), 2)] of [pair]. *)
Fixpoint color_pairs (paired : list A) (n : nat) : res (list (A * A) * nat) :=
  match paired with
  | [] => Ret ([], n)
  | [_] => IndexError                               (* paired[i+1] *)
  | p1 :: p2 :: paired' =>
      let '(wb, n') := assign_colors p1 p2 n in
      match color_pairs paired' n' with
      | Ret (ps, n'') => Ret (wb :: ps, n'')
      | e => e
      end
  end.

(** [SwissPairing.pair(players, round_num, played_pairs)]: the pairings,
    the bye player, and the number of random draws made. *)
Definition pair (players : list A) (round_num : Z) (played_pairs : gset (gset string))
    (n : nat) : res (list (A * A) * option A * nat) :=
  let available := sort_by (fun a b => key_le (swiss_key a) (swiss_key b)) players in
  let '(available', bye_player) :=
    if (Z.of_nat (List.length available) mod 2 =? 1) then
      match last_without_bye available 0 with
      | Some j => (take j available ++ drop (S j) available, available !! j)
      | None => (removelast available, last available)
      end
    else (available, None) in
  match backtrack_pair played_pairs available' with
  | Ret paired =>
      match color_pairs paired n with
      | Ret (pairings, n') => Ret (pairings, bye_player, n')
      | IndexError => IndexError
      | OutOfFuel => OutOfFuel
      end
  | IndexError => IndexError
  | OutOfFuel => OutOfFuel
  end.
End Swiss.

(** [RoundRobinPairing.generate_all_rounds(players, double)]; the
    synthetic bye slot of an odd roster is [None]. *)
Section RoundRobin.
Context {A : Type}.

Definition circle_pairs (circle : list (option A)) (n : nat) : list (A * A) :=
  flat_map (fun i =>
              match circle !! i, circle !! (n - 1 - i)%nat with
              | Some (Some p1), Some (Some p2) =>
                  if Nat.even i then [(p1, p2)] else [(p2, p1)]
              | _, _ => []
              end)
           (seq 0 (n / 2)).

Definition rotate (rotating : list (option A)) : list (option A) :=
  match last rotating with
  | Some x => x :: removelast rotating
  | None => rotating
  end.

Fixpoint circle_rounds (k : nat) (fixed : option A) (rotating : list (option A))
    (n : nat) : list (list (A * A)) :=
  match k with
  | O => []
  | S k' => circle_pairs (fixed :: rotating) n
            :: circle_rounds k' fixed (rotate rotating) n
  end.

Definition generate_all_rounds (players : list A) (double : bool)
    : list (list (A * A)) :=
  let lst := List.map Some players in
  let lst := if Nat.odd (List.length players) then lst ++ [None] else lst in
  let n := List.length lst in
  match lst with
  | [] => []                                            (* lst[0] raises *)
  | fixed :: rotating =>
      let rounds_single := circle_rounds (n - 1) fixed rotating n in
      if double
      then rounds_single
           ++ List.map (List.map (fun '(w, b) => (b, w))) rounds_single
      else rounds_single
  end.
End RoundRobin.

(** [KnockoutBracket] *)
Section Knockout.
Context {A : Type}.

(** [size = 1; while size < n: size *= 2] *)
Fixpoint bracket_size_go (fuel : nat) (size n : nat) : nat :=
  match fuel with
  | O => size
  | S fuel' => if (size <? n)%nat then bracket_size_go fuel' (size * 2) n else size
  end.

Definition bracket_size (n : nat) : nat := bracket_size_go n 1 n.

Definition seed_bracket (players : list A) : list (option A * option A) :=
  let n := List.length players in
  let size := bracket_size n in
  let seeded := List.map Some players ++ List.repeat None (size - n) in
  List.map (fun i => (default None (seeded !! i),
                      default None (seeded !! (size - 1 - i)%nat)))
           (seq 0 (size / 2)).

(** The loop [for i in range(0, len(lst) - 1, 2)] of [next_round]. *)
Fixpoint coin_pairs (coin : nat -> bool) (lst : list A) (n : nat)
    : list (A * A) * nat :=
  match lst with
  | a :: b :: lst' =>
      let '(ps, n') := coin_pairs coin lst' (S n) in
      ((if coin n then (a, b) else (b, a)) :: ps, n')
  | _ => ([], n)
  end.

(** [next_round(winners)]: [shuffle k] is what the [k]-th shuffle does. *)
Definition next_round (coin : nat -> bool) (shuffle : nat -> list A -> list A)
    (winners : list A) (n : nat) : list (A * A) * nat :=
  coin_pairs coin (shuffle n winners) (S n).
End Knockout.

End Pairing.

(** ** opening_book.py: loading and look-up *)

Module BookEntries.
Import Py Board OpeningBook Pairing.

(** An entry of the book: [(uci_seq, eco, name)]. *)
Definition Entry : Type := (list string * string * string)%type.

(** A row of the CSV as [csv.DictReader] yields it; a column that is
    missing or empty reads as [''] through [row.get(col) or '']. *)
Definition field (row : gmap string string) (col : string) : string :=
  strip (default ""%string (row !! col)).



(** [lookup(uci_moves)] *)
Definition lookup (entries : list Entry) (uci_moves : list string)
    : option string * option string :=
  match List.find
          (fun '(seq, eco, name) =>
             (List.length seq <=? List.length uci_moves)%nat
             && bool_decide (take (List.length seq) uci_moves = seq))
          entries with
  | Some (_, eco, name) => (Some eco, Some name)
  | None => (None, None)
  end.

(** [loaded] *)
Definition loaded (entries : list Entry) : bool := (0 <? List.length entries)%nat.

End BookEntries.

(** ** tournament.py: the [Tournament] controller *)

Module Tournament.
Import Pairing.

Definition FORMAT_SWISS      : string := "Swiss".
Definition FORMAT_ROUNDROBIN : string := "Round Robin".
Definition FORMAT_KNOCKOUT   : string := "Knockout".

(** Player and game objects are shared and mutated in place.  The
    controller's [player_list] and [all_games] hold every such object in
    creation order, so they serve as the stores: a reference to a player
    (a game) is its index in [player_list] ([all_games]). *)
Definition PlayerRef : Type := nat.
Definition GameRef : Type := nat.

(** [TournamentGame] *)
Record Game : Type := mkGame {
  round_num    : Z;
  white        : PlayerRef;
  black        : PlayerRef;
  result       : option string;
  reason       : string;
  pgn          : string;
  move_count   : Z;
  duration     : Z;
  opening      : string;
  status       : string;
  move_history : list (string * string * string);
  eval_history : list Z
}.

Definition new_game (round_num : Z) (w b : PlayerRef) : Game :=
  {| round_num := round_num; white := w; black := b; result := None;
     reason := ""; pgn := ""; move_count := 0; duration := 0; opening := "";
     status := "pending"; move_history := []; eval_history := [] |}.

Definition white_score (g : Game) : option Q :=
  match result g with
  | Some r =>
      if (r =? "1-0")%string then Some 1%Q
      else if (r =? "1/2-1/2")%string then Some (1 # 2)%Q
      else if (r =? "0-1")%string then Some 0%Q
      else None
  | None => None
  end.

Definition black_score (g : Game) : option Q :=
  match white_score g with
  | None => None
  | Some ws => Some (if negb (Qeq_bool ws (1 # 2)) then Qred (1 - ws) else (1 # 2)%Q)
  end.

Record t : Type := mk {
  name          : string;
  format        : string;
  player_list   : list Player;
  rounds        : Z;
  double_rr     : bool;
  current_round : Z;
  all_games     : list Game;
  round_games   : list GameRef;
  played_pairs  : gset (gset string);
  bye_history   : gset string;
  started       : bool;
  finished      : bool;
  winner        : option PlayerRef;
  status_msg    : string;
  ko_pending_winners : list PlayerRef;
  ko_eliminated      : list PlayerRef;
  ko_round_games     : gmap Z (list GameRef);
  ko_active_players  : list PlayerRef;
  rr_schedule   : option (list (list (PlayerRef * PlayerRef)));
  draws_made    : nat            (* random draws consumed so far *)
}.

Definition player_at (ps : list Player) (i : PlayerRef) : Player :=
  default (new_player "" "") (ps !! i).

Definition refs (ps : list Player) : list PlayerRef := seq 0 (List.length ps).

(** [Tournament.__init__] *)
Definition create (name fmt : string) (players : list Player) (rounds : Z)
    (double_rr : bool) : t :=
  let is_rr := (fmt =? FORMAT_ROUNDROBIN)%string in
  let sched := generate_all_rounds (refs players) double_rr in
  {| name := name; format := fmt; player_list := players;
     rounds := if is_rr then Z.of_nat (List.length sched) else rounds;
     double_rr := double_rr; current_round := 0; all_games := [];
     round_games := []; played_pairs := ∅; bye_history := ∅;
     started := false; finished := false; winner := None; status_msg := "Ready";
     ko_pending_winners := []; ko_eliminated := []; ko_round_games := ∅;
     ko_active_players := refs players;
     rr_schedule := if is_rr then Some sched else None;
     draws_made := 0 |}.

Section Controller.
(** The random source: [coin n] is the [n]-th [random.random() < 0.5]
    (and [random.choice] between two), [shuffle n] the [n]-th
    [random.shuffle]. *)
Variable coin : nat -> bool.
Variable shuffle : nat -> list PlayerRef -> list PlayerRef.

Definition set_players (x : t) (ps : list Player) : t :=
  mk (name x) (format x) ps (rounds x) (double_rr x) (current_round x)
     (all_games x) (round_games x) (played_pairs x) (bye_history x) (started x)
     (finished x) (winner x) (status_msg x) (ko_pending_winners x)
     (ko_eliminated x) (ko_round_games x) (ko_active_players x) (rr_schedule x)
     (draws_made x).

(** [for w, b in pairs: g = TournamentGame(...); round_games.append(g);
    all_games.append(g)] *)
Definition add_games (x : t) (pairs : list (PlayerRef * PlayerRef)) : t :=
  fold_left
    (fun x '(w, b) =>
       mk (name x) (format x) (player_list x) (rounds x) (double_rr x)
          (current_round x)
          (all_games x ++ [new_game (current_round x) w b])
          (round_games x ++ [List.length (all_games x)])
          (played_pairs x) (bye_history x) (started x) (finished x) (winner x)
          (status_msg x) (ko_pending_winners x) (ko_eliminated x)
          (ko_round_games x) (ko_active_players x) (rr_schedule x) (draws_made x))
    pairs x.

Definition standings_key (x : t) (i : PlayerRef) : Key :=
  let p := player_at (player_list x) i in
  if (format x =? FORMAT_SWISS)%string then
    ([Qopp (score p); Qopp (buchholz p); Qopp (sonneborn p)], Pairing.name p)
  else if (format x =? FORMAT_ROUNDROBIN)%string then
    ([Qopp (score p); Qopp (inject_Z (wins p))], Pairing.name p)
  else
    let eliminated_names :=
      List.map (fun j => Pairing.name (player_at (player_list x) j)) (ko_eliminated x) in
    let fix index_of (l : list string) (k : nat) : option nat :=
      match l with
      | [] => None
      | n :: l' => if (n =? Pairing.name p)%string then Some k else index_of l' (S k)
      end in
    match index_of eliminated_names 0%nat with
    | None => ([0%Q; Qopp (score p)], Pairing.name p)
    | Some idx =>
        ([inject_Z (Z.of_nat (List.length eliminated_names) - Z.of_nat idx);
          Qopp (score p)], Pairing.name p)
    end.

(** [get_standings()]; a format other than the three leaves the roster
    order. *)
Definition get_standings (x : t) : list PlayerRef :=
  let players := refs (player_list x) in
  if (format x =? FORMAT_SWISS)%string || (format x =? FORMAT_ROUNDROBIN)%string
     || (format x =? FORMAT_KNOCKOUT)%string
  then sort_by (fun a b => key_le (standings_key x a) (standings_key x b)) players
  else players.

(** [_finish()] *)
Definition finish (x : t) : t :=
  let standings := get_standings x in
  let w := match winner x, standings with
           | None, s :: _ => Some s
           | w, _ => w
           end in
  let wname := match w with
               | Some i => Pairing.name (player_at (player_list x) i)
               | None => "?"%string
               end in
  mk (name x) (format x) (player_list x) (rounds x) (double_rr x) (current_round x)
     (all_games x) (round_games x) (played_pairs x) (bye_history x) (started x)
     true w ("Tournament complete! Winner: " ++ wname)%string
     (ko_pending_winners x) (ko_eliminated x) (ko_round_games x)
     (ko_active_players x) (rr_schedule x) (draws_made x).

Definition set_ko (x : t) (pending : list PlayerRef)
    (round_map : gmap Z (list GameRef)) (w : option PlayerRef) (n : nat) : t :=
  mk (name x) (format x) (player_list x) (rounds x) (double_rr x) (current_round x)
     (all_games x) (round_games x) (played_pairs x) (bye_history x) (started x)
     (finished x) w (status_msg x) pending (ko_eliminated x) round_map
     (ko_active_players x) (rr_schedule x) n.

(** [_generate_round()].  Should the Swiss pairing raise, the object is
    left with the round counter advanced and no games added. *)
Definition generate_round (x0 : t) : t :=
  let x := mk (name x0) (format x0) (player_list x0) (rounds x0) (double_rr x0)
              (current_round x0 + 1) (all_games x0) [] (played_pairs x0)
              (bye_history x0) (started x0) (finished x0) (winner x0)
              (status_msg x0) (ko_pending_winners x0) (ko_eliminated x0)
              (ko_round_games x0) (ko_active_players x0) (rr_schedule x0)
              (draws_made x0) in
  if (format x =? FORMAT_SWISS)%string then
    match pair (player_at (player_list x)) coin (refs (player_list x))
               (current_round x) (played_pairs x) (draws_made x) with
    | Ret (pairs, bye, n) =>
        let x1 := add_games x pairs in
        let x1 := set_ko x1 (ko_pending_winners x1) (ko_round_games x1) (winner x1) n in
        match bye with
        | Some i =>
            let p := player_at (player_list x1) i in
            let x2 := set_players x1 (<[i := record p 1 "BYE" "w"]> (player_list x1)) in
            mk (name x2) (format x2) (player_list x2) (rounds x2) (double_rr x2)
               (current_round x2) (all_games x2) (round_games x2) (played_pairs x2)
               ({[Pairing.name p]} ∪ bye_history x2) (started x2) (finished x2)
               (winner x2) (status_msg x2) (ko_pending_winners x2)
               (ko_eliminated x2) (ko_round_games x2) (ko_active_players x2)
               (rr_schedule x2) (draws_made x2)
        | None => x1
        end
    | _ => x
    end
  else if (format x =? FORMAT_ROUNDROBIN)%string then
    let idx := Z.to_nat (current_round x - 1) in
    match default [] (rr_schedule x) !! idx with
    | Some pairs => add_games x pairs
    | None => x
    end
  else if (format x =? FORMAT_KNOCKOUT)%string then
    if current_round x =? 1 then
      let bracket := seed_bracket (ko_active_players x) in
      let survivors :=
        flat_map (fun '(w, b) =>
                    match w, b with
                    | Some _, Some _ => []
                    | Some s, None => [s]
                    | None, Some s => [s]
                    | None, None => []
                    end) bracket in
      let games :=
        flat_map (fun '(w, b) =>
                    match w, b with
                    | Some w', Some b' => [(w', b')]
                    | _, _ => []
                    end) bracket in
      let x1 := add_games x games in
      set_ko x1 (ko_pending_winners x1 ++ survivors)
             (<[current_round x1 := round_games x1]> (ko_round_games x1))
             (winner x1) (draws_made x1)
    else
      let prev_winners := ko_pending_winners x in
      let x1 := set_ko x [] (ko_round_games x) (winner x) (draws_made x) in
      if (List.length prev_winners <=? 1)%nat then
        finish (set_ko x1 [] (ko_round_games x1) (head prev_winners) (draws_made x1))
      else
        let '(pairs, n) := next_round coin shuffle prev_winners (draws_made x1) in
        let x2 := add_games x1 pairs in
        set_ko x2 (ko_pending_winners x2)
               (<[current_round x2 := round_games x2]> (ko_round_games x2))
               (winner x2) n
  else x.

(** [start()] *)
Definition start (x : t) : t :=
  let x1 := generate_round
              (mk (name x) (format x) (player_list x) (rounds x) (double_rr x)
                  (current_round x) (all_games x) (round_games x) (played_pairs x)
                  (bye_history x) true (finished x) (winner x) (status_msg x)
                  (ko_pending_winners x) (ko_eliminated x) (ko_round_games x)
                  (ko_active_players x) (rr_schedule x) (draws_made x)) in
  mk (name x1) (format x1) (player_list x1) (rounds x1) (double_rr x1)
     (current_round x1) (all_games x1) (round_games x1) (played_pairs x1)
     (bye_history x1) (started x1) (finished x1) (winner x1)
     ("Round " ++ Py.str (current_round x1) ++ " started")%string
     (ko_pending_winners x1) (ko_eliminated x1) (ko_round_games x1)
     (ko_active_players x1) (rr_schedule x1) (draws_made x1).
(** [record_game_result(game, result, reason, move_history, pgn, duration,
    opening, eval_history)].  A reference always denotes an object; for
    an index outside the store the call is modelled as doing nothing. *)
Definition record_game_result (x : t) (game : GameRef) (res reason : string)
    (moves : list (string * string * string)) (pgn : string) (duration : Z)
    (opening : option string) (evals : option (list Z)) : t :=
  match all_games x !! game with
  | None => x
  | Some g0 =>
      let g := {| round_num := round_num g0; white := white g0; black := black g0;
                  result := Some res; reason := reason; pgn := pgn;
                  move_count := Z.of_nat (List.length moves); duration := duration;
                  opening := default ""%string opening; status := "done";
                  move_history := moves; eval_history := default [] evals |} in
      let ps := player_list x in
      let wname := Pairing.name (player_at ps (white g)) in
      let bname := Pairing.name (player_at ps (black g)) in
      let ws := white_score g in
      let bs := black_score g in
      let ps1 :=
        match ws, bs with
        | Some w, Some b =>
            let ps' := <[white g := record (player_at ps (white g)) w bname "w"]> ps in
            <[black g := record (player_at ps' (black g)) b wname "b"]> ps'
        | _, _ => ps
        end in
      let '(pending, eliminated, n) :=
        match ws, bs with
        | Some w, Some b =>
            if (format x =? FORMAT_KNOCKOUT)%string then
              if negb (Qle_bool w b)
              then (ko_pending_winners x ++ [white g], ko_eliminated x ++ [black g],
                    draws_made x)
              else if negb (Qle_bool b w)
              then (ko_pending_winners x ++ [black g], ko_eliminated x ++ [white g],
                    draws_made x)
              else
                let adv := if coin (draws_made x) then white g else black g in
                let elim := if Nat.eqb adv (white g) then black g else white g in
                (ko_pending_winners x ++ [adv], ko_eliminated x ++ [elim],
                 S (draws_made x))
            else (ko_pending_winners x, ko_eliminated x, draws_made x)
        | _, _ => (ko_pending_winners x, ko_eliminated x, draws_made x)
        end in
      mk (name x) (format x) ps1 (rounds x) (double_rr x) (current_round x)
         (<[game := g]> (all_games x)) (round_games x)
         ({[pair_key wname bname]} ∪ played_pairs x) (bye_history x) (started x)
         (finished x) (winner x) (status_msg x) pending eliminated
         (ko_round_games x) (ko_active_players x) (rr_schedule x) n
  end.

(** [round_complete()] *)
Definition round_complete (x : t) : bool :=
  forallb (fun r => match all_games x !! r with
                    | Some g => (status g =? "done")%string
                    | None => true
                    end)
          (round_games x).

(** [next_game()] *)
Definition next_game (x : t) : option GameRef :=
  List.find (fun r => match all_games x !! r with
                      | Some g => (status g =? "pending")%string
                      | None => false
                      end)
            (round_games x).

Definition Qsum (l : list Q) : Q := fold_left (fun a b => Qred (a + b)) l 0%Q.

(** [_update_buchholz()] *)
Definition update_buchholz (x : t) : t :=
  if negb (format x =? FORMAT_SWISS)%string then x else
  let ps := player_list x in
  let score_map : gmap string Q :=
    fold_left (fun m p => <[Pairing.name p := score p]> m) ps ∅ in
  let score_of (n : string) : Q := default 0%Q (score_map !! n) in
  let update (i : nat) (p : Player) : Player :=
    let bh := Qsum (List.map score_of
                      (List.filter (fun o => negb (o =? "BYE")%string) (opponents p))) in
    let sb :=
      Qsum (flat_map
              (fun g =>
                 if negb (status g =? "done")%string then []
                 else
                   match white_score g, black_score g with
                   | Some w, Some b =>
                       if Nat.eqb (white g) i
                       then [Qred (w * score_of (Pairing.name (player_at ps (black g))))]
                       else if Nat.eqb (black g) i
                       then [Qred (b * score_of (Pairing.name (player_at ps (white g))))]
                       else []
                   | _, _ => []
                   end)
              (all_games x)) in
    {| Pairing.name := Pairing.name p; engine_path := engine_path p; score := score p;
       wins := wins p; draws := draws p; losses := losses p;
       buchholz := bh; sonneborn := sb; color_history := color_history p;
       opponents := opponents p; seed := seed p |} in
  set_players x (imap update ps).

(** [advance_round()]: the returned flag and the state after the call. *)
Definition advance_round (x0 : t) : bool * t :=
  let x := update_buchholz x0 in
  if (format x =? FORMAT_SWISS)%string || (format x =? FORMAT_ROUNDROBIN)%string then
    if rounds x <=? current_round x then (true, finish x)
    else (false, generate_round x)
  else if (format x =? FORMAT_KNOCKOUT)%string then
    let active := ko_pending_winners x in
    if (List.length active <=? 1)%nat then
      (true, finish (set_ko x (ko_pending_winners x) (ko_round_games x)
                            (head active) (draws_made x)))
    else (false, generate_round x)
  else (true, x).

(** [get_pending_games()] *)
Definition get_pending_games (x : t) : list GameRef :=
  List.filter (fun r => match all_games x !! r with
                        | Some g => (status g =? "pending")%string
                        | None => false
                        end)
              (round_games x).

(** [get_all_completed_games()] *)
Definition get_all_completed_games (x : t) : list GameRef :=
  List.filter (fun r => match all_games x !! r with
                        | Some g => (status g =? "done")%string
                        | None => false
                        end)
              (seq 0 (List.length (all_games x))).

(** The controller's operations, and running a sequence of them. *)
Inductive op : Type :=
  | Start
  | RecordResult (game : GameRef) (res reason : string)
      (moves : list (string * string * string)) (pgn : string) (duration : Z)
      (opening : option string) (evals : option (list Z))
  | AdvanceRound.

Definition step (x : t) (o : op) : t :=
  match o with
  | Start => start x
  | RecordResult g r why mv pgn d o e => record_game_result x g r why mv pgn d o e
  | AdvanceRound => snd (advance_round x)
  end.

Definition run (x : t) (ops : list op) : t := fold_left step ops x.

End Controller.

End Tournament.

(** ** elo.py *)

Module Elo.
Import Floats.
Local Open Scope float_scope.

(** *** Python's float operations

    Ratings are Python floats, that is binary64 numbers; [+], [-], [*]
    and [/] below are the IEEE operations of the kernel's [float], which
    round to nearest, ties to even, as Python's do.  A call that raises
    is [None]. *)

(** [a / b] on floats raises [ZeroDivisionError] when [b] is zero. *)
Definition float_div (a b : float) : option float :=
  if b =? 0 then None else Some (a / b).

(** [round(x)] of a float: the nearest integer, ties to even;
    [OverflowError] on an infinity and [ValueError] on a NaN. *)
Definition py_round (x : float) : option Z :=
  match Prim2SF x with
  | S754_zero _ => Some 0%Z
  | S754_finite s m e =>
      let n :=
        if (0 <=? e)%Z then Z.shiftl (Z.pos m) e
        else
          let d := Z.shiftl 1 (- e) in
          let q := (Z.pos m / d)%Z in
          let r := (Z.pos m mod d)%Z in
          if (2 * r <? d)%Z then q
          else if (d <? 2 * r)%Z then (q + 1)%Z
          else if Z.even q then q else (q + 1)%Z in
      Some (if s then (- n)%Z else n)
  | S754_infinity _ | S754_nan => None
  end.

(** The rational number a finite float stands for (0 for the others). *)
Definition exact (x : float) : Q :=
  match Prim2SF x with
  | S754_finite s m e =>
      let v := if (0 <=? e)%Z then inject_Z (Z.shiftl (Z.pos m) e)
               else Z.pos m # Z.to_pos (Z.shiftl 1 (- e)) in
      if s then Qopp v else v
  | _ => 0%Q
  end.

(** *** The power [10 ** x] of the C library

    Python computes [10 ** x] with the C library's [pow].  [exp10] is
    the power rounded to the nearest binary64 number, which the C
    library returns on all but rare inputs: 10^x is computed to 256
    fractional bits, from log2(10), ln(2) and the exponential series,
    and then rounded. *)

(** floor (log2(10) * 2^320) *)
Definition LOG2_10 : Z :=
  7095595344940852835971220507053878162423102304446664820343186136436698321069491710455103221955816%Z.

(** floor (ln(2) * 2^256) *)
Definition LN2 : Z :=
  80260960185991308862233904206310070533990667611589946606122867505419956976171%Z.

(** The sum of [t^i / i!] from the term [i] on, in units of 2^-256. *)
Fixpoint exp_series (n : nat) (i t term acc : Z) : Z :=
  match n with
  | O => acc
  | S n' =>
      let term' := (Z.shiftr (term * t) 256 / i)%Z in
      exp_series n' (i + 1)%Z t term' (acc + term')%Z
  end.

Definition exp10 (x : float) : float :=
  match Prim2SF x with
  | S754_zero _ => 1
  | S754_nan => nan
  | S754_infinity s => if s then 0 else infinity
  | S754_finite s m e =>
      if (-42 <=? e)%Z then (if s then 0 else infinity)
      else
        let y := Z.shiftr ((if s then Z.neg m else Z.pos m) * LOG2_10) (64 - e) in
        let n := Z.shiftr y 256 in
        let f := (y - Z.shiftl n 256)%Z in
        let t := Z.shiftr (f * LN2) 256 in
        let one := Z.shiftl 1 256 in
        SF2Prim (binary_normalize prec emax (exp_series 70 1%Z t one one) (n - 256)%Z false)
  end.

(** *** compute_elo_ratings

    [normalize] is [utils.normalize_engine_name], [pow10] the C library's
    [pow(10.0, x)], [k] the K-factor and [start_elo] the rating of an
    engine not seen before, both given as floats (which covers the ints
    that binary64 holds exactly, such as the defaults 32 and 1500). *)
Section Ratings.
Variable normalize : string -> string.
Variable pow10 : float -> float.
Variables k start_elo : float.

(** One game of the history: [(white_engine, black_engine, result)]. *)
Definition GameRow : Type := (string * string * string)%type.

(** [10 ** x]: Python settles a zero, NaN or infinite exponent itself,
    calls [pow] on the others, and raises [OverflowError] when the result
    is infinite. *)
Definition float_pow10 (x : float) : option float :=
  if x =? 0 then Some 1
  else if is_nan x then Some x
  else if is_infinity x then Some (if 0 <? x then infinity else 0)
  else let r := pow10 x in if is_infinity r then None else Some r.

(** [get_r(name)]: [ratings.setdefault(normalize(name), start_elo)] *)
Definition get_r (ratings : gmap string float) (name : string)
    : float * gmap string float :=
  match ratings !! normalize name with
  | Some v => (v, ratings)
  | None => (start_elo, <[normalize name := start_elo]> ratings)
  end.

(** [set_r(name, val)] *)
Definition set_r (ratings : gmap string float) (name : string) (val : float)
    : gmap string float :=
  <[normalize name := val]> ratings.

(** The scores [(sw, sb)] of a result string; [None] is the [continue]
    branch. *)
Definition scores (result : string) : option (float * float) :=
  if (result =? "1-0")%string then Some (1, 0)
  else if (result =? "0-1")%string then Some (0, 1)
  else if (result =? "1/2-1/2")%string then Some (0.5, 0.5)
  else None.

(** [ew = 1 / (1 + 10 ** ((rb - rw) / 400))] *)
Definition expected (rw rb : float) : option float :=
  p ← float_pow10 ((rb - rw) / 400);
  float_div 1 (1 + p).

(** The body of the loop over [games]; the expected scores are computed
    before the result string is looked at. *)
Definition update (ratings : gmap string float) (g : GameRow)
    : option (gmap string float) :=
  let '(white, black, result) := g in
  let w := normalize white in
  let b := normalize black in
  let '(rw, ratings1) := get_r ratings w in
  let '(rb, ratings2) := get_r ratings1 b in
  ew ← expected rw rb;
  let eb := 1 - ew in
  match scores result with
  | Some (sw, sb) =>
      Some (set_r (set_r ratings2 w (rw + k * (sw - ew))) b (rb + k * (sb - eb)))
  | None => Some ratings2
  end.

(** The loop over [games], from the table [ratings] on. *)
Fixpoint process_games (ratings : gmap string float) (games : list GameRow)
    : option (gmap string float) :=
  match games with
  | [] => Some ratings
  | g :: games' => ratings' ← update ratings g; process_games ratings' games'
  end.

(** The ratings before the final rounding. *)
Definition unrounded_ratings (games : list GameRow) : option (gmap string float) :=
  process_games ∅ games.

(** [{n: round(v) for n, v in ratings.items()}] *)
Definition round_all (ratings : gmap string float) : option (gmap string Z) :=
  if decide (map_Forall (fun _ v => is_Some (py_round v)) ratings)
  then Some (omap py_round ratings) else None.

Definition compute_elo_ratings (games : list GameRow) : option (gmap string Z) :=
  ratings ← unrounded_ratings games; round_all ratings.


(** The body of the loop of [compute_elo_history]: the rating table and
    the history so far, and one game. *)
Definition history_step (engine_name : string)
    (st : gmap string float * list (Z * Z)) (g : GameRow)
    : option (gmap string float * list (Z * Z)) :=
  let '(ratings, history) := st in
  let '(white, black, result) := g in
  let w := normalize white in
  let b := normalize black in
  let '(rw, ratings1) := get_r ratings w in
  let '(rb, ratings2) := get_r ratings1 b in
  ew ← expected rw rb;
  let eb := 1 - ew in
  match scores result with
  | Some (sw, sb) =>
      let ratings3 :=
        set_r (set_r ratings2 w (rw + k * (sw - ew))) b (rb + k * (sb - eb)) in
      if (w =? engine_name)%string || (b =? engine_name)%string then
        let '(r, ratings4) := get_r ratings3 engine_name in
        elo ← py_round r;
        Some (ratings4, history ++ [((Z.of_nat (List.length history) + 1)%Z, elo)])
      else Some (ratings3, history)
  | None => Some (ratings2, history)
  end.

(** The loop of [compute_elo_history]. *)
Fixpoint run_history (engine_name : string)
    (st : gmap string float * list (Z * Z)) (games : list GameRow)
    : option (gmap string float * list (Z * Z)) :=
  match games with
  | [] => Some st
  | g :: games' => st' ← history_step engine_name st g; run_history engine_name st' games'
  end.

(** [compute_elo_history(games, engine_name, k, start_elo)] *)
Definition compute_elo_history (games : list GameRow) (engine_name : string)
    : option (list (Z * Z)) :=
  snd <$> run_history (normalize engine_name) (∅, []) games.

End Ratings.

End Elo.

(** * Properties of the position engine *)

Module BoardFacts.
Import Py Board.

(** The side a call with optional argument [turn_arg] works for. *)
Definition side_of (b : t) (turn_arg : option ascii) : ascii :=
  match turn_arg with Some x => x | None => turn b end.

Definition opponent (t : ascii) : ascii :=
  if (t =? "w")%char then "b"%char else "w"%char.

Lemma legal_moves_filtered (b : t) (turn_arg : option ascii) (m : Move) :
  In m (legal_moves b turn_arg) ->
  exists r c, In (r, c) squares /\ In m (pseudo b r c)
              /\ in_check (apply_raw b m) (Some (side_of b turn_arg)) = false.
Proof.
  unfold legal_moves. intros H.
  apply in_flat_map in H. destruct H as [[r c] [Hsq H]].
  destruct (cell (board b) r c =? ".")%char; [contradiction|].
  destruct (negb _); [contradiction|].
  apply filter_In in H. destruct H as [Hps Hchk].
  exists r, c. repeat split; trivial.
  apply negb_true_iff in Hchk. exact Hchk.
Qed.

(** C1.  Every move of [legal_moves], for either side, leads through
    [_apply_raw] to a position in which [in_check] for the moving side is
    false; where that side's king stands, the square is not attacked by
    the opponent. *)
Theorem legal_moves_leave_king_safe (b : t) (turn_arg : option ascii) (m : Move) :
  In m (legal_moves b turn_arg) ->
  in_check (apply_raw b m) (Some (side_of b turn_arg)) = false
  /\ forall kr kc,
       find_king (apply_raw b m) (side_of b turn_arg) = Some (kr, kc) ->
       is_attacked (apply_raw b m) kr kc (opponent (side_of b turn_arg)) = false.
Proof.
  intros H. apply legal_moves_filtered in H.
  destruct H as (r & c & _ & _ & Hchk). split; [exact Hchk|].
  intros kr kc Hk. unfold in_check in Hchk. rewrite Hk in Hchk. exact Hchk.
Qed.

Lemma legal_moves_leave_king_safe_witness :
  In (6, 4, 4, 4, None) (legal_moves init None)
  /\ in_check (apply_raw init (6, 4, 4, 4, None)) (Some "w"%char) = false.
Proof.
  assert (H : In (6, 4, 4, 4, None) (legal_moves init None)).
  { vm_compute. tauto. }
  split; [exact H|].
  exact (proj1 (legal_moves_leave_king_safe init None (6, 4, 4, 4, None) H)).
Defined.

(** [in_check] for a named side reads the grid only. *)
Lemma in_check_grid (b1 b2 : t) (s : ascii) :
  board b1 = board b2 -> in_check b1 (Some s) = in_check b2 (Some s).
Proof.
  intros E. unfold in_check, find_king, is_attacked. rewrite E. reflexivity.
Qed.

Lemma move_in_In (m : Move) (l : list Move) : move_in m l = true -> In m l.
Proof.
  unfold move_in. intros H. apply existsb_exists in H.
  destruct H as [m' [Hin Heq]].
  destruct m as [[[[a1 b1] c1] d1] p1], m' as [[[[a2 b2] c2] d2] p2].
  unfold move_eqb in Heq.
  repeat (apply andb_true_iff in Heq; destruct Heq as [Heq ?]).
  assert (p1 = p2).
  { destruct p1, p2; try discriminate; trivial.
    f_equal. apply Ascii.eqb_eq. assumption. }
  assert (a1 = a2) by lia. assert (b1 = b2) by lia.
  assert (c1 = c2) by lia. assert (d1 = d2) by lia.
  subst. exact Hin.
Qed.

Lemma In_move_in (m : Move) (l : list Move) : In m l -> move_in m l = true.
Proof.
  intros H. unfold move_in. apply existsb_exists. exists m. split; [exact H|].
  destruct m as [[[[a b] c] d] p]. unfold move_eqb.
  rewrite !Z.eqb_refl. simpl. destruct p; trivial. apply Ascii.eqb_refl.
Qed.

(** The move [apply_uci] reads from a token, when the token has the
    shape the parsing accepts. *)
Definition parse_uci (uci : string) : option Move :=
  if (String.length uci <? 4)%nat then None
  else if negb (isdigit (at_ uci 1) && isdigit (at_ uci 3)) then None
  else Some (8 - int_of_char (at_ uci 1), ord (at_ uci 0) - ord "a",
             8 - int_of_char (at_ uci 3), ord (at_ uci 2) - ord "a",
             if (4 <? String.length uci)%nat then Some (lower (at_ uci 4)) else None).

(** The move of the legal set that [apply_uci] settles on for a token. *)
Definition accepted_move (b : t) (uci : string) : option Move :=
  match parse_uci uci with
  | None => None
  | Some (fr, fc, tr, tc, promo) =>
      if move_in (fr, fc, tr, tc, promo) (legal_moves b None)
      then Some (fr, fc, tr, tc, promo)
      else match promo with
           | None => if move_in (fr, fc, tr, tc, Some "q"%char) (legal_moves b None)
                     then Some (fr, fc, tr, tc, Some "q"%char) else None
           | Some _ => None
           end
  end.

Lemma apply_uci_rejected (b : t) (uci : string) :
  accepted_move b uci = None -> exists msg, apply_uci b uci = (Raised msg, b).
Proof.
  unfold accepted_move, parse_uci, apply_uci.
  destruct (String.length uci <? 4)%nat; [eauto|].
  destruct (negb _); [eauto|]. cbv beta iota zeta.
  destruct (move_in _ _); [discriminate|].
  destruct (4 <? String.length uci)%nat; [eauto|].
  destruct (move_in (_, Some _) _); [discriminate|eauto].
Qed.

Lemma apply_checked_fields (b : t) (uci : string) (m : Move) (legal : list Move) :
  exists san cap b',
    apply_checked b uci m legal = (Returned san cap, b')
    /\ board b' = board (apply_raw b m) /\ turn b' = turn (apply_raw b m)
    /\ castling b' = castling (apply_raw b m) /\ ep b' = ep (apply_raw b m)
    /\ halfmove b' = halfmove (apply_raw b m)
    /\ fullmove b' = fullmove (apply_raw b m)
    /\ pos_history b'
       = <[pos_key b' := get_count (pos_history b) (pos_key b') + 1]> (pos_history b).
Proof.
  destruct m as [[[[fr fc] tr] tc] promo]. unfold apply_checked.
  do 3 eexists. split; [reflexivity|]. cbn [board turn castling ep halfmove fullmove pos_history].
  repeat split; reflexivity.
Qed.

Lemma apply_uci_accepted (b : t) (uci : string) (m : Move) :
  accepted_move b uci = Some m ->
  In m (legal_moves b None)
  /\ apply_uci b uci = apply_checked b uci m (legal_moves b None).
Proof.
  unfold accepted_move, parse_uci, apply_uci.
  destruct (String.length uci <? 4)%nat; [discriminate|].
  destruct (negb _); [discriminate|]. cbv beta iota zeta.
  destruct (move_in _ _) eqn:E1.
  - intros [= <-]. split; [apply move_in_In; exact E1|reflexivity].
  - destruct (4 <? String.length uci)%nat; [discriminate|].
    destruct (move_in (_, Some _) _) eqn:E2; [|discriminate].
    intros [= <-]. split; [apply move_in_In; exact E2|reflexivity].
Qed.

(** After a successful [apply_uci], the side that moved is not in check. *)
Lemma apply_uci_mover_safe (b b' : t) (uci san : string) (cap : option ascii) :
  apply_uci b uci = (Returned san cap, b') -> in_check b' (Some (turn b)) = false.
Proof.
  intros H. destruct (accepted_move b uci) as [m|] eqn:E.
  - apply apply_uci_accepted in E. destruct E as [Hin Happ].
    destruct (apply_checked_fields b uci m (legal_moves b None))
      as (san' & cap' & b'' & Hc & Hg & _).
    rewrite Happ, Hc in H. inversion H; subst.
    rewrite (in_check_grid _ _ _ Hg).
    exact (proj1 (legal_moves_leave_king_safe b None m Hin)).
  - apply apply_uci_rejected in E. destruct E as [msg E]. congruence.
Qed.

(** C3.  A token that names no move of the legal set (not even after the
    completion of a missing promotion letter to a queen) is rejected with
    an error, and the object after the call is the object before it, in
    every field. *)
Theorem apply_uci_illegal_unchanged (b : t) (uci : string) :
  (forall fr fc tr tc promo,
      parse_uci uci = Some (fr, fc, tr, tc, promo) ->
      move_in (fr, fc, tr, tc, promo) (legal_moves b None) = false
      /\ (promo = None ->
          move_in (fr, fc, tr, tc, Some "q"%char) (legal_moves b None) = false)) ->
  exists msg, apply_uci b uci = (Raised msg, b).
Proof.
  intros H. apply apply_uci_rejected. unfold accepted_move.
  destruct (parse_uci uci) as [[[[[fr fc] tr] tc] promo]|]; [|reflexivity].
  destruct (H fr fc tr tc promo eq_refl) as [H1 H2].
  rewrite H1. destruct promo; [reflexivity|]. rewrite H2; reflexivity.
Qed.

Lemma apply_uci_illegal_unchanged_witness :
  exists msg, apply_uci init "e2e5" = (Raised msg, init).
Proof.
  apply (apply_uci_illegal_unchanged init "e2e5").
  intros fr fc tr tc promo H. vm_compute in H. inversion H; subst.
  split; [|intros _]; vm_compute; reflexivity.
Defined.

(** *** The order of [game_result] *)

Definition draw (reason : string) : Result := (true, "1/2-1/2"%string, reason, None).

Definition mate_for (b : t) : Result :=
  if (turn b =? "w")%char
  then (true, "0-1"%string, "Checkmate"%string, Some "black"%string)
  else (true, "1-0"%string, "Checkmate"%string, Some "white"%string).

(** C2.  [game_result] decides in this order: no legal move (checkmate
    when in check, stalemate otherwise); then the halfmove clock; then the
    repetition count of the current key; then insufficient material;
    otherwise the game goes on.  Each later case is reached only when all
    earlier ones fail, whatever the later tests would say. *)
Theorem game_result_order (b : t) :
  (legal_moves b None = [] -> in_check b None = true -> game_result b = mate_for b)
  /\ (legal_moves b None = [] -> in_check b None = false ->
      game_result b = draw "Stalemate")
  /\ (legal_moves b None <> [] -> 100 <= halfmove b ->
      game_result b = draw "Draw by 50-move rule")
  /\ (legal_moves b None <> [] -> halfmove b < 100 ->
      3 <= get_count (pos_history b) (pos_key b) ->
      game_result b = draw "Draw by threefold repetition")
  /\ (legal_moves b None <> [] -> halfmove b < 100 ->
      get_count (pos_history b) (pos_key b) < 3 -> insufficient b = true ->
      game_result b = draw "Draw by insufficient material")
  /\ (legal_moves b None <> [] -> halfmove b < 100 ->
      get_count (pos_history b) (pos_key b) < 3 -> insufficient b = false ->
      game_result b = (false, ""%string, ""%string, None)).
Proof.
  unfold game_result, mate_for, draw.
  destruct (legal_moves b None) as [|m l] eqn:El.
  - repeat split; try congruence.
    + intros _ ->. destruct (turn b =? "w")%char; reflexivity.
    + intros _ ->. reflexivity.
  - repeat split; try discriminate; intros _.
    + intros H. apply Z.leb_le in H. rewrite H. reflexivity.
    + intros H1 H2. apply Z.leb_gt in H1. apply Z.leb_le in H2.
      rewrite H1, H2. reflexivity.
    + intros H1 H2 H3. apply Z.leb_gt in H1, H2. rewrite H1, H2, H3. reflexivity.
    + intros H1 H2 H3. apply Z.leb_gt in H1, H2. rewrite H1, H2, H3. reflexivity.
Qed.

(** The final position of 1.f3 e5 2.g4 Qh4#, with the clock and the
    repetition table set so that the 50-move and the threefold tests would
    both fire as well. *)
Definition mated_with_full_clock : t :=
  let b := load_fen init "rnb1kbnr/pppp1ppp/8/4p3/6Pq/5P2/PPPPP2P/RNBQKBNR w KQkq - 100 3" in
  {| board := board b; turn := turn b; castling := castling b; ep := ep b;
     halfmove := halfmove b; fullmove := fullmove b; move_history := [];
     pos_history := {[ pos_key b := 3 ]};
     cap_white := []; cap_black := []; material_cache := None |}.

Lemma game_result_order_witness :
  100 <= halfmove mated_with_full_clock
  /\ 3 <= get_count (pos_history mated_with_full_clock) (pos_key mated_with_full_clock)
  /\ game_result mated_with_full_clock
     = (true, "0-1"%string, "Checkmate"%string, Some "black"%string).
Proof.
  split; [vm_compute; discriminate|].
  split; [vm_compute; discriminate|].
  apply (proj1 (game_result_order mated_with_full_clock)); vm_compute; reflexivity.
Defined.

(** *** Insufficient material *)

(** The cells in the order [_insufficient] visits them, and the pieces
    other than kings among them. *)
Definition cells (b : t) : list ascii :=
  List.map (fun '(r, c) => cell (board b) r c) squares.

Definition is_extra (p : ascii) : bool :=
  negb (p =? ".")%char && negb (lower p =? "k")%char.

Definition extras (b : t) : list ascii := List.filter is_extra (cells b).

Lemma non_king_pieces_extras (b : t) (white : bool) :
  non_king_pieces b white
  = List.map lower (List.filter (fun p => Bool.eqb (isupper p) white) (extras b)).
Proof.
  unfold non_king_pieces, extras, cells.
  induction squares as [|[r c] l IH]; [reflexivity|].
  cbn [flat_map List.map List.filter]. rewrite List.filter_app, IH. clear IH.
  unfold is_extra.
  destruct (cell (board b) r c =? ".")%char; cbn [negb andb]; [reflexivity|].
  destruct (lower (cell (board b) r c) =? "k")%char eqn:Ek; cbn [negb].
  - destruct (Bool.eqb _ white); cbn [List.filter app]; [rewrite Ek|]; reflexivity.
  - cbn [List.filter].
    destruct (Bool.eqb _ white); cbn [List.filter List.map app];
      [rewrite Ek|]; reflexivity.
Qed.

Lemma split_by_colour (l : list ascii) :
  (List.length (List.filter (fun p => Bool.eqb (isupper p) true) l)
   + List.length (List.filter (fun p => Bool.eqb (isupper p) false) l))%nat
  = List.length l.
Proof.
  induction l as [|x l IH]; [reflexivity|].
  cbn [List.filter]. destruct (isupper x); cbn [Bool.eqb List.length]; lia.
Qed.

Definition minor (p : ascii) : bool := (lower p =? "b")%char || (lower p =? "n")%char.

(** C9.  [_insufficient] holds exactly when the board carries, besides
    kings, nothing at all or one single piece that is a bishop or a
    knight; in particular it fails when the one piece is a pawn. *)
Theorem insufficient_exactly (b : t) :
  (insufficient b = true <->
   extras b = [] \/ exists x, extras b = [x] /\ minor x = true)
  /\ (forall x, extras b = [x] -> lower x = "p"%char -> insufficient b = false).
Proof.
  assert (Hchar : insufficient b = true <->
                  extras b = [] \/ exists x, extras b = [x] /\ minor x = true).
  { unfold insufficient. rewrite !non_king_pieces_extras.
    pose proof (split_by_colour (extras b)) as Hlen.
    destruct (extras b) as [|x [|y l]].
    - cbn. tauto.
    - cbn [List.filter]. unfold minor.
      destruct (isupper x); cbn [Bool.eqb List.map lone_minor];
        (split; [intros H; right; exists x; auto
                |intros [H|[x' [[= <-] H]]]; [discriminate|exact H]]).
    - split.
      + intros H. exfalso. revert H Hlen.
        destruct (List.filter _ (x :: y :: l)) as [|w1 [|w2 ws]];
          destruct (List.filter _ (x :: y :: l)) as [|b1 [|b2 bs]];
          cbn [List.map lone_minor List.length]; intros H Hlen;
          try discriminate; lia.
      + intros [H|[x' [H _]]]; discriminate. }
  split; [exact Hchar|].
  intros x Hx Hp. destruct (insufficient b) eqn:E; [|reflexivity].
  destruct (proj1 Hchar eq_refl) as [E'|[x' [E' Hm]]]; [congruence|].
  rewrite Hx in E'. injection E' as <-. unfold minor in Hm. rewrite Hp in Hm.
  discriminate.
Qed.

Lemma insufficient_exactly_witness :
  let b := load_fen init "8/8/8/4k3/8/8/4P3/4K3 w - - 0 1" in
  extras b = ["P"%char] /\ insufficient b = false.
Proof.
  split; [vm_compute; reflexivity|].
  apply (proj2 (insufficient_exactly (load_fen init "8/8/8/4k3/8/8/4P3/4K3 w - - 0 1"))
           "P"%char); vm_compute; reflexivity.
Defined.

(** The four positions of the specification, through [game_result]. *)
Lemma insufficient_examples :
  let result_of fen := game_result (load_fen init fen) in
  result_of "8/8/8/4k3/8/8/8/4K3 w - - 0 1" = draw "Draw by insufficient material"
  /\ result_of "8/8/8/4k3/8/8/8/4KB2 w - - 0 1" = draw "Draw by insufficient material"
  /\ result_of "8/8/8/4k3/8/8/8/4KN2 b - - 0 1" = draw "Draw by insufficient material"
  /\ result_of "8/8/8/3bk3/8/8/8/4K3 w - - 0 1" = draw "Draw by insufficient material"
  /\ result_of "8/8/8/4k3/8/8/4P3/4K3 w - - 0 1" = (false, ""%string, ""%string, None).
Proof. vm_compute. repeat split; reflexivity. Qed.

(** *** Position keys *)

(** Strings as character lists, for the splitting lemmas. *)
Definition chars (s : string) : list ascii := list_ascii_of_string s.

Definition free_of (bad : ascii -> bool) (s : string) : Prop :=
  Forall (fun c => bad c = false) (chars s).

Lemma free_of_app (bad : ascii -> bool) (s1 s2 : string) :
  free_of bad s1 -> free_of bad s2 -> free_of bad (s1 ++ s2).
Proof.
  unfold free_of, chars. induction s1 as [|c s1 IH]; cbn; [auto|].
  intros H1 H2. inversion H1; subst. constructor; auto.
Qed.

Lemma append_empty_r (s : string) : (s ++ "")%string = s.
Proof.
  induction s as [|c s IH]; [reflexivity|].
  change (String c (s ++ "") = String c s). f_equal. exact IH.
Qed.

Lemma append_empty_l (s : string) : ("" ++ s)%string = s.
Proof. reflexivity. Qed.

Lemma append_assoc (s1 s2 s3 : string) :
  ((s1 ++ s2) ++ s3)%string = (s1 ++ (s2 ++ s3))%string.
Proof.
  induction s1 as [|c s1 IH]; [reflexivity|].
  change (String c ((s1 ++ s2) ++ s3) = String c (s1 ++ (s2 ++ s3))).
  f_equal. exact IH.
Qed.

Lemma string_rev_chars (w : string) (l : list ascii) :
  string_of_list_ascii (rev (rev (chars w) ++ l) ) = (string_of_list_ascii (rev l) ++ w)%string.
Proof.
  unfold chars. rewrite rev_app_distr, rev_involutive.
  induction (rev l) as [|x xs IH]; cbn.
  - apply string_of_list_ascii_of_string.
  - rewrite IH. reflexivity.
Qed.

(** Reading a word free of white space moves it onto the current run. *)
Lemma split_ws_go_word (w s : string) (cur : list ascii) :
  free_of isspace w ->
  split_ws_go (w ++ s) cur = split_ws_go s (rev (chars w) ++ cur).
Proof.
  revert cur. unfold free_of, chars.
  induction w as [|c w IH]; intros cur H; [reflexivity|].
  inversion H as [|? ? Hc Hw]; subst.
  simpl. rewrite Hc, IH by exact Hw.
  rewrite <- app_assoc. reflexivity.
Qed.

Lemma split_ws_word_space (w s : string) :
  free_of isspace w -> w <> ""%string ->
  split_ws (w ++ " " ++ s) = w :: split_ws s.
Proof.
  intros Hf Hne. unfold split_ws. rewrite split_ws_go_word by exact Hf.
  change (split_ws_go (" " ++ s) (rev (chars w) ++ []))
    with (match rev (chars w) ++ [] with
          | [] => split_ws_go s []
          | _ => string_of_list_ascii (rev (rev (chars w) ++ [])) :: split_ws_go s []
          end).
  rewrite app_nil_r.
  destruct (rev (chars w)) as [|x xs] eqn:E.
  - destruct w; [congruence|]. unfold chars in E. cbn in E.
    apply app_eq_nil in E. destruct E; discriminate.
  - rewrite <- E. f_equal.
    pose proof (string_rev_chars w []) as H. rewrite app_nil_r in H. exact H.
Qed.

Lemma split_ws_last_word (w : string) :
  free_of isspace w -> w <> ""%string -> split_ws w = [w].
Proof.
  intros Hf Hne. unfold split_ws.
  rewrite <- (append_empty_r w) at 1.
  rewrite split_ws_go_word by exact Hf. cbn [split_ws_go]. rewrite app_nil_r.
  destruct (rev (chars w)) as [|x xs] eqn:E.
  - destruct w; [congruence|]. unfold chars in E. cbn in E.
    apply app_eq_nil in E. destruct E; discriminate.
  - rewrite <- E. f_equal.
    pose proof (string_rev_chars w []) as H. rewrite app_nil_r in H. exact H.
Qed.

(** Four words and a tail: the first four fields of the split. *)
Lemma split_ws_four (a t c e rest : string) :
  free_of isspace a -> a <> ""%string -> free_of isspace t -> t <> ""%string ->
  free_of isspace c -> c <> ""%string -> free_of isspace e -> e <> ""%string ->
  firstn 4 (split_ws (a ++ " " ++ t ++ " " ++ c ++ " " ++ e ++ " " ++ rest))
  = [a; t; c; e].
Proof.
  intros. rewrite !split_ws_word_space by assumption. reflexivity.
Qed.

Lemma split_ws_join_four (a t c e : string) :
  free_of isspace a -> a <> ""%string -> free_of isspace t -> t <> ""%string ->
  free_of isspace c -> c <> ""%string -> free_of isspace e -> e <> ""%string ->
  split_ws (join " " [a; t; c; e]) = [a; t; c; e].
Proof.
  intros. cbn [join]. rewrite !split_ws_word_space by assumption.
  rewrite split_ws_last_word by assumption. reflexivity.
Qed.

(** The same for the rows of the placement field, split at ["/"]. *)
Definition is_slash (c : ascii) : bool := (c =? "/")%char.

Lemma split_slash_word (w s : string) (cur : list ascii) :
  free_of is_slash w ->
  split_slash (w ++ s) cur = split_slash s (rev (chars w) ++ cur).
Proof.
  revert cur. unfold free_of, chars, is_slash.
  induction w as [|c w IH]; intros cur H; [reflexivity|].
  inversion H as [|? ? Hc Hw]; subst.
  simpl. rewrite Hc, IH by exact Hw.
  rewrite <- app_assoc. reflexivity.
Qed.

Lemma split_slash_join (rows : list string) :
  Forall (free_of is_slash) rows -> rows <> [] ->
  split_slash (join "/" rows) [] = rows.
Proof.
  intros H Hne. destruct rows as [|r rows]; [congruence|]. clear Hne.
  revert r H. induction rows as [|r' rows IH]; intros r H.
  - inversion H; subst. cbn [join].
    rewrite <- (append_empty_r r) at 1. rewrite split_slash_word by assumption.
    cbn [split_slash]. f_equal.
    pose proof (string_rev_chars r []) as E. rewrite !app_nil_r in *. exact E.
  - inversion H as [|? ? Hr H']; subst.
    change (join "/" (r :: r' :: rows)) with (r ++ "/" ++ join "/" (r' :: rows))%string.
    rewrite split_slash_word by assumption.
    change (split_slash ("/" ++ join "/" (r' :: rows)) (rev (chars r) ++ []))
      with (string_of_list_ascii (rev (rev (chars r) ++ []))
            :: split_slash (join "/" (r' :: rows)) []).
    rewrite IH by exact H'. f_equal.
    pose proof (string_rev_chars r []) as E. rewrite !app_nil_r in *. exact E.
Qed.

(** *** Well-formed positions *)

Definition piece_chars : string := ".PNBRQKpnbrqk".

Definition cell_ok (c : ascii) : bool := char_in c piece_chars.

Definition wf_grid (g : Grid) : Prop :=
  List.length g = 8%nat
  /\ Forall (fun row => List.length row = 8%nat
                        /\ Forall (fun c => cell_ok c = true) row) g.

(** The positions the class builds: an 8x8 grid of piece letters and
    dots, a side to move, and castling and en-passant fields that are
    non-empty words. *)
Definition wf (b : t) : Prop :=
  wf_grid (board b)
  /\ (turn b = "w"%char \/ turn b = "b"%char)
  /\ free_of isspace (castling b) /\ castling b <> ""%string
  /\ free_of isspace (ep b) /\ ep b <> ""%string.

Lemma char_in_In (c : ascii) (s : string) : char_in c s = true -> In c (chars s).
Proof.
  unfold chars. induction s as [|d s IH]; cbn; [discriminate|].
  intros H. apply orb_true_iff in H. destruct H as [H|H]; [|auto].
  left. symmetry. apply Ascii.eqb_eq. exact H.
Qed.

Lemma cell_ok_plain (c : ascii) :
  cell_ok c = true -> isdigit c = false /\ isspace c = false /\ is_slash c = false.
Proof.
  intros H. apply char_in_In in H. cbn in H.
  repeat (destruct H as [<-|H]; [repeat split; reflexivity|]). contradiction.
Qed.

(** A property of the integers of a range, settled by running through
    the range. *)
Lemma range_check (f : Z -> bool) (lo hi : Z) :
  forallb f (List.map (fun i => lo + Z.of_nat i) (seq 0 (Z.to_nat (hi - lo)))) = true ->
  forall z, lo <= z < hi -> f z = true.
Proof.
  intros H z Hz. rewrite forallb_forall in H. apply H.
  apply in_map_iff. exists (Z.to_nat (z - lo)). split; [cbv beta; lia|].
  apply in_seq. lia.
Qed.

(** [str(e)] for a run of one to nine empty squares is one digit. *)
Definition one_digit (e : Z) : bool :=
  match chars (str e) with
  | [d] => isdigit d && (int_of_char d =? e) && negb (isspace d) && negb (is_slash d)
  | _ => false
  end.

Lemma str_run (e : Z) :
  1 <= e <= 9 ->
  exists d, str e = str1 d /\ isdigit d = true /\ int_of_char d = e
            /\ isspace d = false /\ is_slash d = false.
Proof.
  intros H.
  assert (C : one_digit e = true) by (apply (range_check one_digit 1 10); [reflexivity|lia]).
  unfold one_digit in C.
  destruct (chars (str e)) as [|d [|d' l]] eqn:E; try discriminate.
  exists d.
  assert (Es : str e = str1 d).
  { rewrite <- (string_of_list_ascii_of_string (str e)). unfold chars in E.
    rewrite E. reflexivity. }
  apply andb_true_iff in C. destruct C as [C Hl].
  apply andb_true_iff in C. destruct C as [C Hs].
  apply andb_true_iff in C. destruct C as [Hd Hi].
  apply Z.eqb_eq in Hi. apply negb_true_iff in Hs, Hl. tauto.
Qed.

Lemma fen_row_go_acc (row : list ascii) :
  forall (e : Z) (s : string), fen_row_go row e s = (s ++ fen_row_go row e "")%string.
Proof.
  induction row as [|x row IH]; intros e s; cbn [fen_row_go].
  - destruct (e =? 0); [rewrite append_empty_r|]; reflexivity.
  - destruct (x =? ".")%char; [apply IH|].
    rewrite IH. rewrite (IH 0 (_ ++ str1 x)%string).
    destruct (e =? 0); cbn; rewrite ?append_assoc; reflexivity.
Qed.

Lemma load_row_app_digit (d : ascii) (s : string) :
  isdigit d = true ->
  load_row (str1 d ++ s) = List.repeat "."%char (Z.to_nat (int_of_char d)) ++ load_row s.
Proof.
  intros H. change (str1 d ++ s)%string with (String d s).
  cbn [load_row]. rewrite H. reflexivity.
Qed.

(** Decoding a row of the placement field gives the row back. *)
Lemma load_fen_row (row : list ascii) :
  forall e : Z,
    0 <= e -> e + Z.of_nat (List.length row) <= 9 ->
    Forall (fun c => cell_ok c = true) row ->
    load_row (fen_row_go row e "") = List.repeat "."%char (Z.to_nat e) ++ row.
Proof.
  induction row as [|x row IH]; intros e He Hlen Hok; cbn [fen_row_go].
  - cbn [List.length] in Hlen. destruct (Z.eqb_spec e 0) as [->|Hne]; [reflexivity|].
    destruct (str_run e) as (d & -> & Hd & Hi & _); [lia|].
    rewrite append_empty_l.
    rewrite <- (append_empty_r (str1 d)), load_row_app_digit by exact Hd.
    rewrite Hi. cbn [load_row]. reflexivity.
  - inversion Hok as [|? ? Hx Hrow]; subst. cbn [List.length] in Hlen.
    destruct (Ascii.eqb_spec x ".") as [->|Hdot].
    + rewrite IH by (try assumption; lia).
      replace (Z.to_nat (e + 1)) with (Z.to_nat e + 1)%nat by lia.
      rewrite repeat_app, <- app_assoc. reflexivity.
    + destruct (cell_ok_plain x Hx) as (Hnd & _ & _).
      rewrite fen_row_go_acc.
      assert (Hx' : load_row (str1 x ++ fen_row_go row 0 "") = x :: row).
      { change (str1 x ++ fen_row_go row 0 "")%string with (String x (fen_row_go row 0 "")).
        cbn [load_row]. rewrite Hnd. f_equal.
        rewrite IH by (try assumption; lia). reflexivity. }
      destruct (Z.eqb_spec e 0) as [->|Hne].
      * exact Hx'.
      * destruct (str_run e) as (d & -> & Hd & Hi & _); [lia|].
        rewrite append_empty_l, append_assoc, load_row_app_digit, Hx', Hi by exact Hd.
        reflexivity.
Qed.

Lemma free_of_str1 (bad : ascii -> bool) (c : ascii) :
  bad c = false -> free_of bad (str1 c).
Proof. intros H. repeat constructor. exact H. Qed.

(** A row of the placement field holds no white space and no slash, and
    is not empty unless the row is. *)
Lemma fen_row_go_plain (row : list ascii) :
  forall e : Z,
    0 <= e -> e + Z.of_nat (List.length row) <= 9 ->
    Forall (fun c => cell_ok c = true) row ->
    free_of isspace (fen_row_go row e "") /\ free_of is_slash (fen_row_go row e "")
    /\ (0 < e + Z.of_nat (List.length row) -> fen_row_go row e "" <> ""%string).
Proof.
  induction row as [|x row IH]; intros e He Hlen Hok; cbn [fen_row_go].
  - cbn [List.length] in *. destruct (Z.eqb_spec e 0) as [->|Hne].
    + repeat split; try constructor. lia.
    + destruct (str_run e) as (d & -> & _ & _ & Hs & Hl); [lia|].
      rewrite append_empty_l.
      repeat split; try (apply free_of_str1; assumption). discriminate.
  - inversion Hok as [|? ? Hx Hrow]; subst. cbn [List.length] in Hlen.
    destruct (Ascii.eqb_spec x ".") as [->|Hdot].
    + destruct (IH (e + 1)) as (H1 & H2 & H3); try assumption; try lia.
      repeat split; try assumption. intros _. apply H3. lia.
    + destruct (cell_ok_plain x Hx) as (_ & Hs & Hl).
      rewrite fen_row_go_acc.
      destruct (IH 0) as (H1 & H2 & _); try assumption; try lia.
      assert (Hne' : forall p : string, (p ++ str1 x ++ fen_row_go row 0 "")%string <> ""%string).
      { intros p. destruct p; discriminate. }
      destruct (Z.eqb_spec e 0) as [->|Hne].
      * repeat split; try (apply free_of_app; [apply free_of_str1|]; assumption).
        intros _. exact (Hne' ""%string).
      * destruct (str_run e) as (d & -> & _ & _ & Hs' & Hl'); [lia|].
        rewrite append_empty_l, append_assoc.
        repeat split;
          try (apply free_of_app; [apply free_of_str1|apply free_of_app;
                                   [apply free_of_str1|]]; assumption).
        intros _. exact (Hne' (str1 d)).
Qed.

Lemma free_of_join (bad : ascii -> bool) (sep : string) (parts : list string) :
  free_of bad sep -> Forall (free_of bad) parts -> free_of bad (join sep parts).
Proof.
  intros Hsep H. induction H as [|p ps Hp Hps IH]; [constructor|].
  destruct ps as [|q ps]; [exact Hp|].
  change (join sep (p :: q :: ps)) with (p ++ sep ++ join sep (q :: ps))%string.
  auto using free_of_app.
Qed.

Lemma fen_rows_plain (g : Grid) :
  wf_grid g ->
  Forall (free_of isspace) (List.map fen_row g)
  /\ Forall (free_of is_slash) (List.map fen_row g)
  /\ Forall (fun r => r <> ""%string) (List.map fen_row g)
  /\ List.map load_row (List.map fen_row g) = g.
Proof.
  intros [_ H]. induction H as [|row g [Hl Hok] _ IH].
  - repeat split; constructor.
  - destruct IH as (I1 & I2 & I3 & I4).
    destruct (fen_row_go_plain row 0) as (P1 & P2 & P3); [lia|lia|exact Hok|].
    cbn [List.map]. repeat split; try (constructor; [|assumption]); trivial.
    + apply P3. lia.
    + unfold fen_row at 1. rewrite load_fen_row by (trivial; lia).
      rewrite I4. reflexivity.
Qed.

Definition placement (b : t) : string := join "/" (List.map fen_row (board b)).

Lemma placement_plain (b : t) :
  wf b -> free_of isspace (placement b) /\ placement b <> ""%string.
Proof.
  intros (Hg & _). destruct (fen_rows_plain _ Hg) as (H1 & _ & H3 & _).
  split; [apply free_of_join; [repeat constructor|exact H1]|].
  unfold placement. destruct Hg as [Hlen _].
  destruct (board b) as [|r0 [|r1 g]]; [discriminate|discriminate|].
  cbn [List.map] in *. inversion H3 as [|? ? Hr0 _]; subst.
  change (join "/" (fen_row r0 :: fen_row r1 :: List.map fen_row g))
    with (fen_row r0 ++ "/" ++ join "/" (fen_row r1 :: List.map fen_row g))%string.
  destruct (fen_row r0); [congruence|discriminate].
Qed.

Lemma turn_plain (b : t) :
  wf b -> free_of isspace (str1 (turn b)) /\ str1 (turn b) <> ""%string.
Proof.
  intros (_ & [-> | ->] & _); split; try discriminate; repeat constructor.
Qed.

(** The key of a well-formed position: placement, side, castling field
    and en-passant field, joined by blanks. *)
Lemma pos_key_wf (b : t) :
  wf b ->
  pos_key b = join " " [placement b; str1 (turn b); castling b; ep b].
Proof.
  intros Hwf. unfold pos_key, to_fen. cbv zeta.
  destruct (placement_plain b Hwf) as [Pa Pn], (turn_plain b Hwf) as [Ta Tn].
  destruct Hwf as (_ & _ & Cf & Cn & Ef & En).
  destruct (String.eqb_spec (castling b) "") as [E|_]; [congruence|].
  fold (placement b).
  rewrite (split_ws_four (placement b) (str1 (turn b)) (castling b) (ep b)) by assumption.
  reflexivity.
Qed.

(** Positions with one key agree on everything the rules read. *)
Lemma pos_key_inj (b1 b2 : t) :
  wf b1 -> wf b2 -> pos_key b1 = pos_key b2 ->
  board b1 = board b2 /\ turn b1 = turn b2
  /\ castling b1 = castling b2 /\ ep b1 = ep b2.
Proof.
  intros W1 W2 E. rewrite (pos_key_wf b1 W1), (pos_key_wf b2 W2) in E.
  apply (f_equal split_ws) in E.
  destruct (placement_plain b1 W1) as [Pa1 Pn1], (turn_plain b1 W1) as [Ta1 Tn1].
  destruct (placement_plain b2 W2) as [Pa2 Pn2], (turn_plain b2 W2) as [Ta2 Tn2].
  destruct W1 as (G1 & _ & Cf1 & Cn1 & Ef1 & En1).
  destruct W2 as (G2 & _ & Cf2 & Cn2 & Ef2 & En2).
  rewrite !split_ws_join_four in E by assumption.
  injection E as Ep Et Ec Ee. repeat split; trivial.
  destruct (fen_rows_plain _ G1) as (_ & S1 & _ & L1).
  destruct (fen_rows_plain _ G2) as (_ & S2 & _ & L2).
  apply (f_equal (fun s => split_slash s [])) in Ep. unfold placement in Ep.
  rewrite !split_slash_join in Ep; trivial.
  - rewrite <- L1, <- L2, Ep. reflexivity.
  - destruct G2 as [Hl _]. destruct (board b2); [discriminate|]. discriminate.
  - destruct G1 as [Hl _]. destruct (board b1); [discriminate|]. discriminate.
Qed.

(** *** What the rules read *)

(** The four fields the move generator reads. *)
Definition core (b : t) : t :=
  {| board := board b; turn := turn b; castling := castling b; ep := ep b;
     halfmove := 0; fullmove := 0; move_history := []; pos_history := ∅;
     cap_white := []; cap_black := []; material_cache := None |}.

Lemma legal_moves_core (b : t) (turn_arg : option ascii) :
  legal_moves b turn_arg = legal_moves (core b) turn_arg.
Proof.
  unfold legal_moves. cbn [core board turn].
  apply flat_map_ext. intros [r c].
  destruct (cell (board b) r c =? ".")%char; [reflexivity|].
  destruct (negb _); [reflexivity|].
  change (pseudo (core b) r c) with (pseudo b r c).
  apply filter_ext. intros m. f_equal.
  apply in_check_grid. destruct m as [[[[fr fc] tr] tc] promo]. reflexivity.
Qed.

Lemma legal_moves_same (b1 b2 : t) :
  board b1 = board b2 -> turn b1 = turn b2 ->
  castling b1 = castling b2 -> ep b1 = ep b2 ->
  legal_moves b1 None = legal_moves b2 None.
Proof.
  intros Eb Et Ec Ee. rewrite (legal_moves_core b1), (legal_moves_core b2).
  unfold core. rewrite Eb, Et, Ec, Ee. reflexivity.
Qed.

(** A generated move starts on the square it was generated for, and a
    promotion piece is one of the four. *)
Definition from_square (r c : Z) (m : Move) : Prop :=
  exists tr tc promo,
    m = (r, c, tr, tc, promo)
    /\ match promo with None => True | Some x => In x promos end.

Lemma from_square_plain (r c tr tc : Z) : from_square r c (r, c, tr, tc, None).
Proof. exists tr, tc, None. split; [reflexivity|exact I]. Qed.

Lemma from_square_promo (r c tr tc : Z) (m : Move) :
  In m (List.map (fun pp => (r, c, tr, tc, Some pp)) promos) -> from_square r c m.
Proof.
  intros H. apply in_map_iff in H. destruct H as (pp & <- & Hpp).
  exists tr, tc, (Some pp). split; [reflexivity|exact Hpp].
Qed.

Lemma slide_from (g : Grid) (turn : ascii) (r c dr dc : Z) (fuel : nat) :
  forall nr nc m, In m (slide g turn r c dr dc fuel nr nc) -> from_square r c m.
Proof.
  induction fuel as [|fuel IH]; intros nr nc m H; cbn [slide] in H; [contradiction|].
  destruct (valid nr nc); [|contradiction].
  destruct (cell g nr nc =? ".")%char.
  - destruct H as [<-|H]; [apply from_square_plain|eauto].
  - destruct (enemy _ _); [|contradiction].
    destruct H as [<-|[]]. apply from_square_plain.
Qed.

Lemma jumps_from (g : Grid) (piece : ascii) (r c : Z) (ds : list (Z * Z)) (m : Move) :
  In m (jumps g piece r c ds) -> from_square r c m.
Proof.
  unfold jumps. intros H. apply in_flat_map in H. destruct H as ([dr dc] & _ & H).
  destruct (_ && _); [|contradiction].
  destruct H as [<-|[]]. apply from_square_plain.
Qed.

Lemma pseudo_from (b : t) (r c : Z) (m : Move) :
  In m (pseudo b r c) -> from_square r c m.
Proof.
  unfold pseudo. intros H.
  destruct (cell (board b) r c =? ".")%char; [contradiction|].
  destruct (lower (cell (board b) r c) =? "p")%char.
  { apply in_app_or in H. destruct H as [H|H].
    - destruct (_ && _); [|contradiction].
      destruct (_ =? _); [exact (from_square_promo _ _ _ _ _ H)|].
      destruct H as [<-|H]; [apply from_square_plain|].
      destruct (_ && _); [|contradiction].
      destruct H as [<-|[]]. apply from_square_plain.
    - apply in_flat_map in H. destruct H as (dc & _ & H).
      destruct (valid _ _); [|contradiction].
      destruct (_ || _); [|contradiction].
      destruct (_ =? _); [exact (from_square_promo _ _ _ _ _ H)|].
      destruct H as [<-|[]]. apply from_square_plain. }
  destruct (lower (cell (board b) r c) =? "n")%char; [exact (jumps_from _ _ _ _ _ _ H)|].
  destruct (_ || _).
  { apply in_flat_map in H. destruct H as ([dr dc] & _ & H).
    exact (slide_from _ _ _ _ _ _ _ _ _ _ H). }
  destruct (lower (cell (board b) r c) =? "k")%char; [|contradiction].
  apply in_app_or in H. destruct H as [H|H]; [exact (jumps_from _ _ _ _ _ _ H)|].
  destruct (_ && _); [|contradiction].
  apply in_app_or in H.
  destruct H as [H|H]; (destruct (_ && _); [|contradiction]);
    destruct H as [<-|[]]; apply from_square_plain.
Qed.

Lemma squares_range (r c : Z) : In (r, c) squares -> 0 <= r < 8 /\ 0 <= c < 8.
Proof.
  intros H. cbn in H.
  repeat (destruct H as [[= <- <-]|H]; [lia|]). contradiction.
Qed.

(** A legal move starts on a square of the grid and promotes, if at
    all, to one of the four pieces. *)
Lemma legal_move_shape (b : t) (turn_arg : option ascii) (m : Move) :
  In m (legal_moves b turn_arg) ->
  exists fr fc tr tc promo,
    m = (fr, fc, tr, tc, promo) /\ 0 <= fr < 8 /\ 0 <= fc < 8
    /\ match promo with None => True | Some x => In x promos end.
Proof.
  intros H. apply legal_moves_filtered in H. destruct H as (r & c & Hsq & Hps & _).
  apply pseudo_from in Hps. destruct Hps as (tr & tc & promo & -> & Hp).
  apply squares_range in Hsq. exists r, c, tr, tc, promo. tauto.
Qed.

(** *** Moves keep positions well formed *)

Lemma cell_cell_ok (g : Grid) (r c : Z) : wf_grid g -> cell_ok (cell g r c) = true.
Proof.
  intros [_ H]. unfold cell.
  destruct (g !! Z.to_nat r) as [row|] eqn:Er; [|reflexivity].
  destruct (row !! Z.to_nat c) as [x|] eqn:Ec; [|reflexivity].
  rewrite Forall_lookup in H. destruct (H _ _ Er) as [_ Hrow].
  rewrite Forall_lookup in Hrow. exact (Hrow _ _ Ec).
Qed.

Lemma set_cell_wf (g : Grid) (r c : Z) (v : ascii) :
  wf_grid g -> cell_ok v = true -> wf_grid (set_cell g r c v).
Proof.
  intros [Hl H] Hv. unfold set_cell.
  destruct (g !! Z.to_nat r) as [row|] eqn:Er; [|split; assumption].
  split; [rewrite length_insert; exact Hl|].
  apply Forall_insert; [exact H|].
  rewrite Forall_lookup in H. destruct (H _ _ Er) as [Hlen Hrow].
  split; [rewrite length_insert; exact Hlen|].
  apply Forall_insert; assumption.
Qed.

Lemma promo_cell_ok (pr : ascii) :
  In pr promos -> cell_ok (upper pr) = true /\ cell_ok (lower pr) = true.
Proof.
  intros H. cbn in H.
  repeat (destruct H as [<-|H]; [split; reflexivity|]). contradiction.
Qed.

Lemma side_piece_ok (t w b : ascii) :
  cell_ok w = true -> cell_ok b = true -> cell_ok (side_piece t w b) = true.
Proof. unfold side_piece. destruct (t =? "w")%char; auto. Qed.

Lemma file_char_plain (c : Z) : 0 <= c < 8 -> isspace (chr (ord "a" + c)) = false.
Proof.
  intros H. apply negb_true_iff.
  apply (range_check (fun c => negb (isspace (chr (ord "a" + c)))) 0 8); [reflexivity|lia].
Qed.

Lemma forallb_Forall {A : Type} (f : A -> bool) (l : list A) :
  forallb f l = true -> Forall (fun x => f x = true) l.
Proof.
  induction l as [|x l IH]; cbn; intros H; constructor;
    apply andb_true_iff in H; tauto.
Qed.

Lemma free_of_check (bad : ascii -> bool) (s : string) :
  forallb (fun c => negb (bad c)) (chars s) = true -> free_of bad s.
Proof.
  intros H. apply forallb_Forall in H. unfold free_of.
  eapply Forall_impl; [exact H|]. cbn. intros c Hc. apply negb_true_iff. exact Hc.
Qed.

Lemma rank_str_plain (fr tr : Z) :
  0 <= fr < 8 -> Z.abs (fr - tr) = 2 -> free_of isspace (str (8 - (fr + tr) / 2)).
Proof.
  intros H Ha.
  assert (N : exists n, 8 - (fr + tr) / 2 = n /\ 0 <= n <= 9).
  { assert (T : tr = fr - 2 \/ tr = fr + 2) by lia.
    destruct T as [-> | ->].
    - replace (fr + (fr - 2)) with ((fr - 1) * 2) by lia.
      rewrite Z.div_mul by lia. eexists. split; [reflexivity|lia].
    - replace (fr + (fr + 2)) with ((fr + 1) * 2) by lia.
      rewrite Z.div_mul by lia. eexists. split; [reflexivity|lia]. }
  destruct N as (n & -> & Hn). apply free_of_check.
  apply (range_check (fun n => forallb (fun c => negb (isspace c)) (chars (str n))) 0 10);
    [reflexivity|lia].
Qed.

Lemma chars_of_list (l : list ascii) : chars (string_of_list_ascii l) = l.
Proof. apply list_ascii_of_string_of_list_ascii. Qed.

Lemma remove_char_plain (bad : ascii -> bool) (c : ascii) (s : string) :
  free_of bad s -> Forall (fun x => bad x = false) (chars (remove_char c s)).
Proof.
  unfold free_of, chars. induction s as [|d s IH]; cbn; intros H; [constructor|].
  inversion H; subst. destruct (c =? d)%char; cbn; auto.
Qed.

Lemma remove_first_plain (P : ascii -> Prop) (x : ascii) (l : list ascii) :
  Forall P l -> Forall P (remove_first x l).
Proof.
  induction 1 as [|y l Hy Hl IH]; cbn; [constructor|].
  destruct (x =? y)%char; auto.
Qed.

Lemma drop_rook_flags_plain (P : ascii -> Prop) (r c : Z) (cas : list ascii) :
  Forall P cas -> Forall P (drop_rook_flags r c cas).
Proof.
  unfold drop_rook_flags. generalize rook_homes. intros homes. revert cas.
  induction homes as [|[[rr rc] flag] homes IH]; intros cas H; cbn [fold_left]; [exact H|].
  apply IH. destruct (_ && _); [apply remove_first_plain|]; exact H.
Qed.

Lemma filter_plain (P : ascii -> Prop) (f : ascii -> bool) (l : list ascii) :
  Forall P l -> Forall P (List.filter f l).
Proof.
  induction 1 as [|y l Hy Hl IH]; cbn; [constructor|]. destruct (f y); auto.
Qed.

(** The position after a legal move is well formed. *)
Lemma apply_raw_wf (b : t) (m : Move) :
  wf b -> In m (legal_moves b None) -> wf (apply_raw b m).
Proof.
  intros (Hg & Ht & Cf & Cn & Ef & En) Hm.
  destruct (legal_move_shape b None m Hm) as (fr & fc & tr & tc & promo & -> & Hfr & Hfc & Hp).
  unfold apply_raw.
  set (piece := cell (board b) fr fc).
  assert (Hpiece : cell_ok piece = true) by (apply cell_cell_ok; exact Hg).
  split; [|split; [|split; [|split; [|split]]]]; cbn [board turn castling ep].
  - assert (H1 : wf_grid
               (if (lower piece =? "p")%char && negb (ep b =? "-")%string
                then if (tr =? ep_row (ep b)) && (tc =? ep_col (ep b))
                     then set_cell (board b) fr (ep_col (ep b)) "."
                     else board b
                else board b)).
    { repeat match goal with |- context [if ?c then _ else _] => destruct c end;
        try apply set_cell_wf; auto. }
    revert H1. generalize (if (lower piece =? "p")%char && negb (ep b =? "-")%string
                then if (tr =? ep_row (ep b)) && (tc =? ep_col (ep b))
                     then set_cell (board b) fr (ep_col (ep b)) "."
                     else board b
                else board b). intros g1 H1.
    assert (H2 : wf_grid
               (if (lower piece =? "k")%char then
                  if (fc =? 4) && (tc =? 6)
                  then set_cell (set_cell g1 fr 7 ".") fr 5 (side_piece (turn b) "R" "r")
                  else if (fc =? 4) && (tc =? 2)
                  then set_cell (set_cell g1 fr 0 ".") fr 3 (side_piece (turn b) "R" "r")
                  else g1
                else g1)).
    { repeat match goal with |- context [if ?c then _ else _] => destruct c end;
        repeat apply set_cell_wf; auto; apply side_piece_ok; reflexivity. }
    revert H2. generalize (if (lower piece =? "k")%char then
                  if (fc =? 4) && (tc =? 6)
                  then set_cell (set_cell g1 fr 7 ".") fr 5 (side_piece (turn b) "R" "r")
                  else if (fc =? 4) && (tc =? 2)
                  then set_cell (set_cell g1 fr 0 ".") fr 3 (side_piece (turn b) "R" "r")
                  else g1
                else g1). intros g2 H2.
    assert (H3 : wf_grid (set_cell (set_cell g2 tr tc piece) fr fc "."))
      by (repeat apply set_cell_wf; auto).
    destruct promo as [pr|].
    + apply set_cell_wf; [exact H3|].
      destruct (promo_cell_ok pr Hp). destruct (turn b =? "w")%char; assumption.
    + destruct (_ && _); [|exact H3].
      apply set_cell_wf; [exact H3|]. apply side_piece_ok; reflexivity.
  - destruct (turn b =? "w")%char; auto.
  - match goal with |- context [drop_rook_flags tr tc ?l] =>
      assert (Hc : Forall (fun x => isspace x = false) (drop_rook_flags tr tc l))
    end.
    { apply drop_rook_flags_plain.
      destruct (lower piece =? "r")%char; [apply drop_rook_flags_plain|];
        (destruct (lower piece =? "k")%char; [apply filter_plain|]);
        apply remove_char_plain; exact Cf. }
    revert Hc. generalize (drop_rook_flags tr tc
      (if (lower piece =? "r")%char
       then drop_rook_flags fr fc
              (if (lower piece =? "k")%char
               then List.filter
                      (fun x => negb (char_in x (if (turn b =? "w")%char then "KQ" else "kq")))
                      (list_ascii_of_string (remove_char "-" (castling b)))
               else list_ascii_of_string (remove_char "-" (castling b)))
       else if (lower piece =? "k")%char
            then List.filter
                   (fun x => negb (char_in x (if (turn b =? "w")%char then "KQ" else "kq")))
                   (list_ascii_of_string (remove_char "-" (castling b)))
            else list_ascii_of_string (remove_char "-" (castling b)))).
    intros cas Hc. destruct cas; [repeat constructor|].
    unfold free_of. rewrite chars_of_list. exact Hc.
  - match goal with |- match ?l with [] => _ | _ => _ end <> _ => destruct l end;
      discriminate.
  - destruct (_ && _) eqn:E; [|repeat constructor].
    apply andb_true_iff in E. destruct E as [_ E]. apply Z.eqb_eq in E.
    apply free_of_app; [apply free_of_str1, file_char_plain; exact Hfc|].
    apply rank_str_plain; assumption.
  - destruct (_ && _); [|discriminate]. discriminate.
Qed.

(** *** Repetition counts along a game *)

Lemma wf_fields (b b' : t) :
  board b' = board b -> turn b' = turn b -> castling b' = castling b -> ep b' = ep b ->
  wf b -> wf b'.
Proof. unfold wf. intros -> -> -> ->. trivial. Qed.

Lemma wf_grid_check (g : Grid) :
  (List.length g =? 8)%nat
  && forallb (fun row => (List.length row =? 8)%nat && forallb cell_ok row) g = true ->
  wf_grid g.
Proof.
  intros H. apply andb_true_iff in H. destruct H as [Hl H].
  split; [apply Nat.eqb_eq; exact Hl|].
  apply forallb_Forall in H. eapply Forall_impl; [exact H|]. cbn.
  intros row Hrow. apply andb_true_iff in Hrow. destruct Hrow as [H1 H2].
  split; [apply Nat.eqb_eq; exact H1|apply forallb_Forall; exact H2].
Qed.

Lemma wf_init : wf init.
Proof.
  split; [apply wf_grid_check; vm_compute; reflexivity|].
  split; [left; reflexivity|].
  split; [apply free_of_check; reflexivity|].
  split; [discriminate|].
  split; [apply free_of_check; reflexivity|discriminate].
Qed.

(** A successful [apply_uci]: the move was legal, the new position is
    the one [_apply_raw] builds, and its key has been counted once more. *)
Lemma apply_uci_returned (b b' : t) (uci san : string) (cap : option ascii) :
  apply_uci b uci = (Returned san cap, b') ->
  exists m,
    In m (legal_moves b None)
    /\ board b' = board (apply_raw b m) /\ turn b' = turn (apply_raw b m)
    /\ castling b' = castling (apply_raw b m) /\ ep b' = ep (apply_raw b m)
    /\ halfmove b' = halfmove (apply_raw b m)
    /\ pos_history b'
       = <[pos_key b' := get_count (pos_history b) (pos_key b') + 1]> (pos_history b).
Proof.
  intros H. destruct (accepted_move b uci) as [m|] eqn:E.
  - apply apply_uci_accepted in E. destruct E as [Hin Happ].
    destruct (apply_checked_fields b uci m (legal_moves b None))
      as (san' & cap' & b'' & Hc & Hb & Ht & Hcs & He & Hh & _ & Hp).
    rewrite Happ, Hc in H. inversion H; subst. exists m. tauto.
  - apply apply_uci_rejected in E. destruct E as [msg E]. congruence.
Qed.

Lemma apply_uci_wf (b b' : t) (uci san : string) (cap : option ascii) :
  wf b -> apply_uci b uci = (Returned san cap, b') -> wf b'.
Proof.
  intros W H. apply apply_uci_returned in H.
  destruct H as (m & Hin & Hb & Ht & Hc & He & _).
  exact (wf_fields _ _ Hb Ht Hc He (apply_raw_wf b m W Hin)).
Qed.

(** The keys of the positions a game passes through, one per ply. *)
Fixpoint play_keys (b : t) (ucis : list string) : list string :=
  match ucis with
  | [] => []
  | u :: us => let b' := snd (apply_uci b u) in pos_key b' :: play_keys b' us
  end.

(** How often a key occurs in a list of keys. *)
Definition occurrences (k : string) (keys : list string) : Z :=
  Z.of_nat (List.length (List.filter (String.eqb k) keys)).

Lemma get_count_insert (h : gmap string Z) (k k' : string) (n : Z) :
  get_count (<[k := n]> h) k' = if (k' =? k)%string then n else get_count h k'.
Proof.
  unfold get_count. destruct (String.eqb_spec k' k) as [->|Hne].
  - rewrite lookup_insert_eq. reflexivity.
  - rewrite lookup_insert_ne by congruence. reflexivity.
Qed.

(** The repetition table holds, for every key, the count it started with
    plus the number of plies that led to a position with that key. *)
Lemma play_counts (ucis : list string) :
  forall (b bn : t) (k : string),
    play b ucis = Some bn ->
    get_count (pos_history bn) k
    = get_count (pos_history b) k + occurrences k (play_keys b ucis).
Proof.
  induction ucis as [|u us IH]; intros b bn k H; cbn [play play_keys] in *.
  - injection H as <-. unfold occurrences. cbn. lia.
  - destruct (apply_uci b u) as [[msg|san cap] b'] eqn:E; [discriminate|].
    cbn [snd]. rewrite (IH b' bn k H).
    destruct (apply_uci_returned _ _ _ _ _ E) as (m & _ & _ & _ & _ & _ & _ & Hp).
    rewrite Hp, get_count_insert. unfold occurrences. cbn [List.filter].
    rewrite (String.eqb_sym k (pos_key b')).
    destruct (String.eqb_spec (pos_key b') k) as [->|Hne]; cbn [List.length]; lia.
Qed.

Lemma play_wf (ucis : list string) :
  forall b bn : t, wf b -> play b ucis = Some bn -> wf bn.
Proof.
  induction ucis as [|u us IH]; intros b bn W H; cbn [play] in H.
  - injection H as <-. exact W.
  - destruct (apply_uci b u) as [[msg|san cap] b'] eqn:E; [discriminate|].
    exact (IH b' bn (apply_uci_wf _ _ _ _ _ W E) H).
Qed.

Lemma play_last_key (ucis : list string) :
  forall b bn : t,
    play b ucis = Some bn -> ucis <> [] ->
    last (play_keys b ucis) = Some (pos_key bn).
Proof.
  induction ucis as [|u us IH]; intros b bn H Hne; [congruence|].
  cbn [play play_keys] in *.
  destruct (apply_uci b u) as [[msg|san cap] b'] eqn:E; [discriminate|]. cbn [snd].
  destruct us as [|u' us'].
  - cbn in H. injection H as <-. reflexivity.
  - rewrite <- (IH b' bn H) by discriminate.
    cbn [play_keys]. reflexivity.
Qed.

(** Every position before the last one had a move played from it. *)
Lemma play_earlier_movable (ucis : list string) :
  forall (b bn : t) (k : string),
    wf b -> play b ucis = Some bn ->
    In k (removelast (play_keys b ucis)) ->
    exists bj, wf bj /\ pos_key bj = k /\ legal_moves bj None <> [].
Proof.
  induction ucis as [|u us IH]; intros b bn k W H Hin; [contradiction|].
  cbn [play play_keys] in *.
  destruct (apply_uci b u) as [[msg|san cap] b'] eqn:E; [discriminate|]. cbn [snd] in *.
  pose proof (apply_uci_wf _ _ _ _ _ W E) as W'.
  destruct us as [|u' us']; [contradiction|].
  change (removelast (pos_key b' :: play_keys b' (u' :: us')))
    with (pos_key b' :: removelast (play_keys b' (u' :: us'))) in Hin.
  destruct Hin as [<-|Hin]; [|exact (IH b' bn k W' H Hin)].
  exists b'. split; [exact W'|]. split; [reflexivity|].
  cbn [play] in H.
  destruct (apply_uci b' u') as [[msg|san' cap'] b''] eqn:E'; [discriminate|].
  destruct (apply_uci_returned _ _ _ _ _ E') as (m & Hm & _).
  intros Hnil. rewrite Hnil in Hm. contradiction.
Qed.

Lemma occurrences_twice (k : string) (keys : list string) :
  2 <= occurrences k keys -> In k (removelast keys).
Proof.
  unfold occurrences. induction keys as [|x keys IH]; cbn [List.filter List.length]; [lia|].
  destruct keys as [|y keys].
  - destruct (k =? x)%string; cbn; lia.
  - change (removelast (x :: y :: keys)) with (x :: removelast (y :: keys)).
    destruct (String.eqb_spec k x) as [->|Hne]; [left; reflexivity|].
    intros H. right. apply IH. exact H.
Qed.

Lemma get_count_init (k : string) : get_count (pos_history init) k = 0.
Proof.
  assert (E : pos_history init = ∅) by (vm_compute; reflexivity).
  rewrite E. unfold get_count. rewrite lookup_empty. reflexivity.
Qed.

(** C5 (as amended).  In every game played from the starting position:
    when the key of the current position has arisen three times as the
    position after a move, and the halfmove clock is below 100,
    [game_result] reports the draw by threefold repetition, on the very
    ply on which the count reaches three. *)
Theorem threefold_reported (ucis : list string) (b : t) :
  play init ucis = Some b ->
  3 <= occurrences (pos_key b) (play_keys init ucis) ->
  halfmove b < 100 ->
  game_result b = draw "Draw by threefold repetition".
Proof.
  intros Hplay Hocc Hclock.
  pose proof (play_wf ucis init b wf_init Hplay) as W.
  pose proof (play_counts ucis init b (pos_key b) Hplay) as Hcount.
  rewrite get_count_init in Hcount.
  assert (Hlegal : legal_moves b None <> []).
  { destruct (play_earlier_movable ucis init b (pos_key b) wf_init Hplay)
      as (bj & Wj & Kj & Lj).
    - apply occurrences_twice. lia.
    - destruct (pos_key_inj bj b Wj W Kj) as (Eb & Et & Ec & Ee).
      rewrite <- (legal_moves_same bj b Eb Et Ec Ee). exact Lj. }
  apply (proj1 (proj2 (proj2 (proj2 (game_result_order b))))); trivial. lia.
Qed.

(** The position a game ends in (the starting position, should a token
    be rejected on the way), and the positions it passes through. *)
Definition position_after (ucis : list string) : t := default init (play init ucis).

Fixpoint play_positions (b : t) (ucis : list string) : list t :=
  match ucis with
  | [] => []
  | u :: us => let b' := snd (apply_uci b u) in b' :: play_positions b' us
  end.

Definition game_over (b : t) : bool := fst (fst (fst (game_result b))).

Lemma play_keys_positions (ucis : list string) :
  forall b, play_keys b ucis = List.map pos_key (play_positions b ucis).
Proof.
  induction ucis as [|u us IH]; intros b; cbn [play_keys play_positions List.map];
    [reflexivity|].
  rewrite IH. reflexivity.
Qed.

(** What one replay of a game tells: how often the final key arose,
    whether it is the key of the starting position, the final clock and
    result, and whether the game was still on at every earlier ply. *)
Definition replay (ucis : list string) : option (Z * bool * Z * Result * bool) :=
  match play init ucis with
  | Some b =>
      let ps := play_positions init ucis in
      Some (occurrences (pos_key b) (List.map pos_key ps),
            (pos_key b =? pos_key init)%string,
            halfmove b, game_result b,
            forallb (fun p => negb (game_over p)) (removelast ps))
  | None => None
  end.

Lemma replay_spec (ucis : list string) (n h : Z) (same on : bool) (r : Result) :
  replay ucis = Some (n, same, h, r, on) ->
  let b := position_after ucis in
  play init ucis = Some b
  /\ occurrences (pos_key b) (play_keys init ucis) = n
  /\ (pos_key b =? pos_key init)%string = same
  /\ halfmove b = h /\ game_result b = r
  /\ forallb (fun p => negb (game_over p)) (removelast (play_positions init ucis)) = on.
Proof.
  unfold replay, position_after. destruct (play init ucis) as [b|]; [|discriminate].
  intros [= <- <- <- <- <-]. cbn [default]. rewrite play_keys_positions.
  repeat split; reflexivity.
Qed.

(** Knights out and back: after nine plies the position after 1.Nf3
    stands for the third time. *)
Definition knights_dance : list string :=
  ["g1f3"; "g8f6"; "f3g1"; "f6g8"; "g1f3"; "g8f6"; "f3g1"; "f6g8"; "g1f3"].

Lemma threefold_reported_witness :
  play init knights_dance = Some (position_after knights_dance)
  /\ 3 <= occurrences (pos_key (position_after knights_dance))
                      (play_keys init knights_dance)
  /\ halfmove (position_after knights_dance) < 100
  /\ game_result (position_after knights_dance) = draw "Draw by threefold repetition".
Proof.
  assert (R : replay knights_dance
              = Some (3, false, 9, draw "Draw by threefold repetition", true))
    by (vm_compute; reflexivity).
  pose proof (replay_spec knights_dance 3 9 false true _ R) as S. cbv zeta in S.
  destruct S as (E & Ho & _ & Hh & _).
  assert (H1 : 3 <= occurrences (pos_key (position_after knights_dance))
                                (play_keys init knights_dance))
    by (rewrite Ho; apply Z.le_refl).
  assert (H2 : halfmove (position_after knights_dance) < 100)
    by (rewrite Hh; reflexivity).
  split; [exact E|]. split; [exact H1|]. split; [exact H2|].
  exact (threefold_reported knights_dance (position_after knights_dance) E H1 H2).
Defined.

(** A closed tour of a knight over 24 squares, all of them clear of both
    armies and none giving check. *)
Definition knight_tour : list string :=
  ["f5"; "d6"; "e4"; "f6"; "g4"; "e5"; "g6"; "f4"; "e6"; "d4"; "c6"; "b4";
   "a6"; "c5"; "b3"; "a5"; "c4"; "a3"; "b5"; "c3"; "a4"; "b6"; "d5"; "e3"].

(** Black's king's knight goes to h6, enters the tour on f5 and rides it
    twice round; White's king's knight steps out and back meanwhile. *)
Definition black_path : list string :=
  ["g8"; "h6"] ++ knight_tour ++ knight_tour ++ ["f5"].

Fixpoint hops (path : list string) : list string :=
  match path with
  | a :: (b :: _) as rest => (a ++ b)%string :: hops rest
  | _ => []
  end.

Fixpoint interleave (white black : list string) : list string :=
  match white, black with
  | w :: ws, b :: bs => w :: b :: interleave ws bs
  | _, _ => []
  end.

Definition hundred_plies : list string :=
  interleave (flat_map (fun _ => ["g1f3"; "f3g1"]) (seq 0 25)) (hops black_path).

(** After these hundred plies without pawn move or capture, none of
    which ends the game before the last, the position stands for the
    third time on the very ply on which the clock reaches 100:
    [game_result] reports the 50-move draw, not the repetition. *)
Lemma fifty_moves_before_threefold :
  play init hundred_plies = Some (position_after hundred_plies)
  /\ forallb (fun p => negb (game_over p))
             (removelast (play_positions init hundred_plies)) = true
  /\ occurrences (pos_key (position_after hundred_plies))
                 (play_keys init hundred_plies) = 3
  /\ halfmove (position_after hundred_plies) = 100
  /\ game_result (position_after hundred_plies) = draw "Draw by 50-move rule"
  /\ game_result (position_after hundred_plies) <> draw "Draw by threefold repetition".
Proof.
  assert (R : replay hundred_plies = Some (3, false, 100, draw "Draw by 50-move rule", true))
    by (vm_compute; reflexivity).
  pose proof (replay_spec hundred_plies 3 100 false true _ R) as S. cbv zeta in S.
  destruct S as (E & Ho & _ & Hh & Hr & Hon).
  split; [exact E|]. split; [exact Hon|]. split; [exact Ho|]. split; [exact Hh|].
  split; [exact Hr|]. rewrite Hr. discriminate.
Qed.

(** When the final key is the key of the starting position, that
    position has stood once more than the table says. *)
Lemma replay_start_key (ucis : list string) (n h : Z) (on : bool) (r : Result) :
  replay ucis = Some (n, true, h, r, on) ->
  play init ucis = Some (position_after ucis)
  /\ pos_key (position_after ucis) = pos_key init
  /\ occurrences (pos_key init) (pos_key init :: play_keys init ucis) = 1 + n
  /\ get_count (pos_history (position_after ucis)) (pos_key (position_after ucis)) = n
  /\ game_result (position_after ucis) = r.
Proof.
  intros R. pose proof (replay_spec ucis n h true on r R) as S. cbv zeta in S.
  destruct S as (E & Ho & Hk & _ & Hr & _). apply String.eqb_eq in Hk.
  split; [exact E|]. split; [exact Hk|]. split.
  - rewrite <- Hk. unfold occurrences in *. cbn [List.filter].
    rewrite String.eqb_refl. cbn [List.length]. lia.
  - split; [|exact Hr].
    rewrite (play_counts ucis init _ _ E), get_count_init. lia.
Qed.

(** The starting position is not entered in the repetition table: when
    it stands for the third time, after eight plies, its count is 2 and
    [game_result] lets the game go on. *)
Lemma start_position_not_counted :
  play init (firstn 8 knights_dance) = Some (position_after (firstn 8 knights_dance))
  /\ pos_key (position_after (firstn 8 knights_dance)) = pos_key init
  /\ occurrences (pos_key init)
                 (pos_key init :: play_keys init (firstn 8 knights_dance)) = 1 + 2
  /\ get_count (pos_history (position_after (firstn 8 knights_dance)))
               (pos_key (position_after (firstn 8 knights_dance))) = 2
  /\ game_result (position_after (firstn 8 knights_dance))
     = (false, ""%string, ""%string, None).
Proof.
  apply (replay_start_key (firstn 8 knights_dance) 2 8 true).
  vm_compute. reflexivity.
Qed.

End BoardFacts.

(** * Properties of the pairing algorithms *)

Module PairingFacts.
Import Pairing.

Section SortFacts.
Context {A : Type} (le : A -> A -> bool).

Lemma insert_by_perm (x : A) (l : list A) : Permutation (insert_by le x l) (x :: l).
Proof.
  induction l as [|y l IH]; cbn; [reflexivity|].
  destruct (le x y); [reflexivity|].
  rewrite IH. apply perm_swap.
Qed.

Lemma sort_by_perm (l : list A) : Permutation (sort_by le l) l.
Proof.
  induction l as [|x l IH]; cbn; [reflexivity|].
  rewrite insert_by_perm. constructor. exact IH.
Qed.
End SortFacts.

(** The players of a pairing list, pair by pair. *)
Definition paired_players {A : Type} (pairings : list (A * A)) : list A :=
  flat_map (fun '(w, b) => [w; b]) pairings.

Section SwissFacts.
Context {A : Type} (view : A -> Player) (coin : nat -> bool).

Lemma take_drop_pick (l : list A) (i : nat) (x : A) :
  l !! i = Some x -> Permutation (x :: take i l ++ drop (S i) l) l.
Proof.
  intros H. rewrite <- (take_drop_middle l i x H) at 3.
  apply Permutation_middle.
Qed.

Lemma length_take_drop_pick (l : list A) (i : nat) (x : A) :
  l !! i = Some x -> S (List.length (take i l ++ drop (S i) l)) = List.length l.
Proof.
  intros H. rewrite <- (take_drop_middle l i x H) at 3.
  rewrite !length_app. cbn. lia.
Qed.

(** On a roster of even size [_backtrack_pair] returns, within its fuel,
    a rearrangement of the roster. *)
Lemma backtrack_pair_go_even (played : gset (gset string)) (fuel : nat) :
  forall players : list A,
    Nat.even (List.length players) = true ->
    (List.length players < 2 * fuel)%nat ->
    exists l, backtrack_pair_go view fuel played players = Ret l
              /\ Permutation l players.
Proof.
  induction fuel as [|fuel IH]; intros players Hev Hlt; [lia|].
  destruct players as [|p1 rest]; [exists []; split; reflexivity|].
  destruct rest as [|p2 rest']; [discriminate|].
  destruct rest' as [|p3 rest'']; [exists [p1; p2]; split; reflexivity|].
  set (rest := p2 :: p3 :: rest'') in *.
  assert (Hfb : exists l,
             match backtrack_pair_go view fuel played (p3 :: rest'') with
             | Ret sub => Ret (p1 :: p2 :: sub)
             | e => e
             end = Ret l /\ Permutation l (p1 :: rest)).
  { destruct (IH (p3 :: rest'')) as (sub & -> & Hp).
    - cbn in Hev |- *. exact Hev.
    - cbn in Hlt |- *. lia.
    - eexists. split; [reflexivity|]. subst rest. rewrite Hp. reflexivity. }
  assert (Hloop : forall cands i,
             drop i rest = cands ->
             exists l,
               (fix candidates (i : nat) (cands : list A) {struct cands} : res (list A) :=
                  match cands with
                  | [] =>
                      match backtrack_pair_go view fuel played (p3 :: rest'') with
                      | Ret sub => Ret (p1 :: p2 :: sub)
                      | e => e
                      end
                  | q :: cands' =>
                      if negb (have_played view played p1 q) then
                        match backtrack_pair_go view fuel played
                                (take i rest ++ drop (S i) rest) with
                        | Ret sub => Ret (p1 :: q :: sub)
                        | e => e
                        end
                      else candidates (S i) cands'
                  end) i cands = Ret l
               /\ Permutation l (p1 :: rest)).
  { induction cands as [|q cands IHc]; intros i Hd; [exact Hfb|].
    assert (Hq : rest !! i = Some q).
    { assert (H0 : drop i rest !! 0%nat = Some q) by (rewrite Hd; reflexivity).
      rewrite lookup_drop, Nat.add_0_r in H0. exact H0. }
    destruct (negb (have_played view played p1 q)).
    - destruct (IH (take i rest ++ drop (S i) rest)) as (sub & -> & Hp).
      + pose proof (length_take_drop_pick rest i q Hq) as Hl.
        assert (Hr : List.length rest = S (S (List.length rest''))) by reflexivity.
        cbn [List.length] in Hev.
        replace (List.length (take i rest ++ drop (S i) rest))
          with (S (List.length rest'')) by lia.
        exact Hev.
      + pose proof (length_take_drop_pick rest i q Hq) as Hl.
        subst rest. cbn [List.length] in Hlt, Hl. lia.
      + eexists. split; [reflexivity|].
        constructor. rewrite Hp. apply take_drop_pick. exact Hq.
    - apply IHc. replace (S i) with (i + 1)%nat by lia.
      rewrite <- drop_drop, Hd. reflexivity. }
  exact (Hloop rest 0%nat eq_refl).
Qed.

Lemma backtrack_pair_even (played : gset (gset string)) (players : list A) :
  Nat.even (List.length players) = true ->
  exists l, backtrack_pair view played players = Ret l /\ Permutation l players.
Proof.
  intros H. apply backtrack_pair_go_even; [exact H|lia].
Qed.

Lemma color_pairs_even_bounded (k : nat) :
  forall (paired : list A) (n : nat),
    (List.length paired <= k)%nat ->
    Nat.even (List.length paired) = true ->
    exists ps n', color_pairs view coin paired n = Ret (ps, n')
                  /\ Permutation (paired_players ps) paired.
Proof.
  induction k as [|k IH]; intros paired n Hk Hev.
  - destruct paired; [|cbn in Hk; lia]. exists [], n. split; reflexivity.
  - destruct paired as [|p1 [|p2 l]].
    + exists [], n. split; reflexivity.
    + discriminate.
    + cbn [color_pairs].
      destruct (assign_colors view coin p1 p2 n) as [wb n1] eqn:Ea.
      destruct (IH l n1) as (ps & n2 & -> & Hp); [cbn in Hk; lia|exact Hev|].
      exists (wb :: ps), n2. split; [reflexivity|].
      unfold assign_colors in Ea.
      repeat match type of Ea with
             | (if ?c then _ else _) = _ => destruct c
             end;
        try destruct (coin n);
        injection Ea as <- <-; cbn; rewrite Hp;
        first [reflexivity | apply perm_swap].
Qed.

Lemma color_pairs_even (paired : list A) (n : nat) :
  Nat.even (List.length paired) = true ->
  exists ps n', color_pairs view coin paired n = Ret (ps, n')
                /\ Permutation (paired_players ps) paired.
Proof. apply (color_pairs_even_bounded (List.length paired)). lia. Qed.
End SwissFacts.

Section SwissPair.
Context {A : Type} (view : A -> Player) (coin : nat -> bool).

Lemma even_not_odd_Z (n : nat) :
  Nat.even n = true -> (Z.of_nat n mod 2 =? 1) = false.
Proof.
  intros H. apply Nat.even_spec in H. destruct H as [k ->].
  apply Z.eqb_neq. rewrite Nat2Z.inj_mul, Z.mul_comm, Z.mod_mul; lia.
Qed.

(** C7.  For a roster of even size and any set of played pairs, [pair]
    returns (it neither raises nor runs out of fuel) with no bye and with
    pairings that hold every player of the roster exactly as often as the
    roster does: once each when the players are distinct. *)
Theorem swiss_pair_complete (players : list A) (round_num : Z)
    (played_pairs : gset (gset string)) (n : nat) :
  Nat.even (List.length players) = true ->
  exists pairings n',
    pair view coin players round_num played_pairs n = Ret (pairings, None, n')
    /\ Permutation (paired_players pairings) players
    /\ (NoDup players -> NoDup (paired_players pairings))
    /\ (2 * List.length pairings = List.length players)%nat.
Proof.
  intros Hev. unfold pair.
  set (le := fun a b => key_le (swiss_key view a) (swiss_key view b)).
  pose proof (sort_by_perm le players) as Hs.
  assert (Hev' : Nat.even (List.length (sort_by le players)) = true).
  { rewrite (Permutation_length Hs). exact Hev. }
  rewrite (even_not_odd_Z _ Hev').
  destruct (backtrack_pair_even view played_pairs _ Hev') as (paired & -> & Hp).
  assert (Hev'' : Nat.even (List.length paired) = true).
  { rewrite (Permutation_length Hp). exact Hev'. }
  destruct (color_pairs_even view coin paired n Hev'') as (ps & n' & -> & Hc).
  exists ps, n'. split; [reflexivity|].
  assert (Hall : Permutation (paired_players ps) players).
  { rewrite Hc, Hp. exact Hs. }
  split; [exact Hall|]. split.
  - intros Hnd. rewrite Hall. exact Hnd.
  - rewrite <- (Permutation_length Hall). clear. unfold paired_players.
    induction ps as [|[w b] ps IH]; cbn [flat_map List.length app] in *; lia.
Qed.
End SwissPair.

(** Four players, every two of whom have met. *)
Definition four_players : list Player :=
  [new_player "a" ""; new_player "b" ""; new_player "c" ""; new_player "d" ""].

Definition all_met : gset (gset string) :=
  {[ pair_key "a" "b"; pair_key "a" "c"; pair_key "a" "d";
     pair_key "b" "c"; pair_key "b" "d"; pair_key "c" "d" ]}.

Lemma swiss_pair_complete_witness :
  Nat.even (List.length four_players) = true
  /\ exists pairings n',
       pair (fun p => p) (fun _ => true) four_players 4 all_met 0 = Ret (pairings, None, n')
       /\ Permutation (paired_players pairings) four_players
       /\ (NoDup four_players -> NoDup (paired_players pairings))
       /\ (2 * List.length pairings = List.length four_players)%nat.
Proof.
  split; [reflexivity|].
  apply (swiss_pair_complete (fun p => p) (fun _ => true) four_players 4 all_met 0).
  reflexivity.
Defined.

(** With every pair already met the search falls back on repeats:
    first against second, third against fourth. *)
Lemma swiss_pair_fallback_example :
  backtrack_pair (fun p => p) all_met four_players = Ret four_players.
Proof. vm_compute. reflexivity. Qed.

End PairingFacts.

(** * Properties of the tournament controller *)

Module TournamentFacts.
Import Pairing Tournament.

Section ControllerFacts.
Variable coin : nat -> bool.
Variable shuffle : nat -> list PlayerRef -> list PlayerRef.

(** [add_games] appends the new games to the store and their references
    to the round, and touches nothing else. *)
Lemma add_games_spec (pairs : list (PlayerRef * PlayerRef)) :
  forall x : t,
    add_games x pairs
    = mk (name x) (format x) (player_list x) (rounds x) (double_rr x) (current_round x)
         (all_games x ++ List.map (fun '(w, b) => new_game (current_round x) w b) pairs)
         (round_games x ++ seq (List.length (all_games x)) (List.length pairs))
         (played_pairs x) (bye_history x) (started x) (finished x) (winner x)
         (status_msg x) (ko_pending_winners x) (ko_eliminated x) (ko_round_games x)
         (ko_active_players x) (rr_schedule x) (draws_made x).
Proof.
  unfold add_games.
  induction pairs as [|[w b] pairs IH]; intros x.
  - cbn. rewrite !app_nil_r. destruct x; reflexivity.
  - cbn [fold_left]. rewrite IH. cbn.
    rewrite <- !app_assoc, length_app. cbn.
    replace (List.length (all_games x) + 1)%nat with (S (List.length (all_games x))) by lia.
    reflexivity.
Qed.

(** What every controller operation preserves: the [finished] flag once
    set, the played pairs, and the games already in the store (new ones
    are appended behind them). *)
Definition grows (x y : t) : Prop :=
  (finished x = true -> finished y = true)
  /\ played_pairs x ⊆ played_pairs y
  /\ exists l, all_games y = all_games x ++ l.

Lemma grows_refl (x : t) : grows x x.
Proof.
  split; [|split]; [auto|set_solver|]. exists []. rewrite app_nil_r. reflexivity.
Qed.

Lemma grows_trans (x y z : t) : grows x y -> grows y z -> grows x z.
Proof.
  intros (F1 & P1 & l1 & G1) (F2 & P2 & l2 & G2).
  split; [|split]; [auto|set_solver|].
  exists (l1 ++ l2). rewrite G2, G1, app_assoc. reflexivity.
Qed.

Lemma grows_add_games (x : t) (pairs : list (PlayerRef * PlayerRef)) :
  grows x (add_games x pairs).
Proof.
  rewrite add_games_spec. split; [|split]; cbn; [auto|set_solver|eauto].
Qed.

Lemma grows_finish (x : t) : grows x (finish x).
Proof.
  unfold finish. split; [|split]; cbn; [auto|set_solver|].
  exists []. rewrite app_nil_r. reflexivity.
Qed.

(** A state that differs from [x] in fields other than the three. *)
Lemma grows_same (x y : t) :
  finished y = finished x -> played_pairs y = played_pairs x ->
  all_games y = all_games x -> grows x y.
Proof.
  intros F P G. split; [|split]; [congruence|rewrite P; set_solver|].
  exists []. rewrite app_nil_r. exact G.
Qed.

Lemma grows_generate_round (x : t) : grows x (generate_round coin shuffle x).
Proof.
  unfold generate_round.
  set (x' := mk _ _ _ _ _ (current_round x + 1) _ [] _ _ _ _ _ _ _ _ _ _ _ _).
  assert (H0 : grows x x') by (apply grows_same; reflexivity).
  apply (grows_trans _ _ _ H0). clear H0. generalize x'. clear x x'. intros x.
  destruct (format x =? FORMAT_SWISS)%string.
  { destruct (pair _ _ _ _ _ _) as [[[pairs bye] n]| |]; try apply grows_refl.
    apply (grows_trans _ _ _ (grows_add_games x pairs)).
    destruct bye; apply grows_same; reflexivity. }
  destruct (format x =? FORMAT_ROUNDROBIN)%string.
  { destruct (_ !! _); [apply grows_add_games|apply grows_refl]. }
  destruct (format x =? FORMAT_KNOCKOUT)%string; [|apply grows_refl].
  destruct (current_round x =? 1).
  { eapply grows_trans; [apply grows_add_games|]. apply grows_same; reflexivity. }
  destruct (List.length (ko_pending_winners x) <=? 1)%nat.
  { eapply grows_trans; [|apply grows_finish]. apply grows_same; reflexivity. }
  destruct (next_round _ _ _ _) as [pairs n].
  apply (grows_trans _ (set_ko x [] (ko_round_games x) (winner x) (draws_made x)));
    [apply grows_same; reflexivity|].
  eapply grows_trans; [apply grows_add_games|apply grows_same; reflexivity].
Qed.

Lemma grows_start (x : t) : grows x (start coin shuffle x).
Proof.
  unfold start.
  set (x0 := mk _ _ _ _ _ _ _ _ _ _ true _ _ _ _ _ _ _ _ _).
  apply (grows_trans _ x0); [apply grows_same; reflexivity|].
  apply (grows_trans _ (generate_round coin shuffle x0));
    [apply grows_generate_round|apply grows_same; reflexivity].
Qed.

Lemma grows_update_buchholz (x : t) : grows x (update_buchholz x).
Proof.
  unfold update_buchholz. destruct (negb _); [apply grows_refl|].
  apply grows_same; reflexivity.
Qed.

Lemma grows_advance_round (x : t) : grows x (snd (advance_round coin shuffle x)).
Proof.
  unfold advance_round.
  apply (grows_trans _ _ _ (grows_update_buchholz x)).
  generalize (update_buchholz x). clear x. intros x.
  destruct (_ || _).
  { destruct (rounds x <=? current_round x); cbn [snd];
      [apply grows_finish|apply grows_generate_round]. }
  destruct (format x =? FORMAT_KNOCKOUT)%string; [|apply grows_refl].
  destruct (List.length (ko_pending_winners x) <=? 1)%nat; cbn [snd];
    [|apply grows_generate_round].
  eapply grows_trans; [|apply grows_finish]. apply grows_same; reflexivity.
Qed.

(** The result recorded for a game. *)
Definition result_of (x : t) (g : GameRef) : option string :=
  match all_games x !! g with
  | Some gm => result gm
  | None => None
  end.

Lemma grows_result (x y : t) (g : GameRef) (r : string) :
  grows x y -> result_of x g = Some r -> result_of y g = Some r.
Proof.
  intros (_ & _ & l & G). unfold result_of. rewrite G.
  destruct (all_games x !! g) as [gm|] eqn:E; [|discriminate].
  rewrite (lookup_app_l_Some _ _ _ _ E). trivial.
Qed.

Lemma record_game_result_keeps (x : t) (game : GameRef) (res reason : string)
    (moves : list (string * string * string)) (pgn : string) (duration : Z)
    (opening : option string) (evals : option (list Z)) :
  let y := record_game_result coin x game res reason moves pgn duration opening evals in
  finished y = finished x
  /\ played_pairs x ⊆ played_pairs y
  /\ forall g, g <> game -> result_of y g = result_of x g.
Proof.
  unfold record_game_result.
  destruct (all_games x !! game) as [g0|] eqn:E.
  2:{ cbn. split; [reflexivity|]. split; [set_solver|reflexivity]. }
  cbv zeta.
  destruct (match white_score _ with Some _ => _ | None => _ end) as [[pending elim] n].
  cbn. split; [reflexivity|]. split; [set_solver|].
  intros g Hne. unfold result_of. cbn.
  rewrite list_lookup_insert_ne by congruence. reflexivity.
Qed.

(** A sequence of operations in which a result is recorded only for a
    game whose result is still unset. *)
Fixpoint records_once (x : t) (ops : list op) : Prop :=
  match ops with
  | [] => True
  | o :: ops' =>
      match o with
      | RecordResult g _ _ _ _ _ _ _ => result_of x g = None
      | _ => True
      end
      /\ records_once (step coin shuffle x o) ops'
  end.

(** C8 (as amended).  Along every sequence of [start], [record_game_result]
    and [advance_round]: a [finished] flag that is set stays set and the
    set of played pairs only grows; and when results are recorded only for
    games whose result is still unset, a result once set never changes. *)
Theorem controller_invariants (ops : list op) :
  forall x : t,
    (finished x = true -> finished (run coin shuffle x ops) = true)
    /\ played_pairs x ⊆ played_pairs (run coin shuffle x ops)
    /\ (records_once x ops ->
        forall g r, result_of x g = Some r ->
                    result_of (run coin shuffle x ops) g = Some r).
Proof.
  induction ops as [|o ops IH]; intros x.
  { cbn. split; [|split]; [auto|set_solver|auto]. }
  unfold run in *. cbn [fold_left].
  destruct (IH (step coin shuffle x o)) as (F & P & R).
  assert (Hstep : (finished x = true -> finished (step coin shuffle x o) = true)
                  /\ played_pairs x ⊆ played_pairs (step coin shuffle x o)).
  { destruct o as [|g0 r0 why mv pg d op ev|]; cbn [step].
    - destruct (grows_start x) as (? & ? & _); auto.
    - destruct (record_game_result_keeps x g0 r0 why mv pg d op ev) as (Hf & Hp & _).
      split; [congruence|exact Hp].
    - destruct (grows_advance_round x) as (? & ? & _); auto. }
  destruct Hstep as [Fs Ps].
  split; [|split]; [auto|etrans; [exact Ps|exact P]|].
  intros [Ho Hrest] g r Hg. apply (R Hrest). clear R F P IH Hrest.
  destruct o as [|g0 r0 why mv pg d op ev|]; cbn [step].
  - exact (grows_result _ _ _ _ (grows_start x) Hg).
  - destruct (record_game_result_keeps x g0 r0 why mv pg d op ev) as (_ & _ & Hr).
    rewrite Hr; [exact Hg|]. intros ->. congruence.
  - exact (grows_result _ _ _ _ (grows_advance_round x) Hg).
Qed.
(** *** Knockout rounds *)

Definition decisive (r : string) : Prop :=
  r = "1-0"%string \/ r = "0-1"%string \/ r = "1/2-1/2"%string.

(** A result reported for a game, with an empty record of the game. *)
Definition report (g : GameRef) (r : string) : op :=
  RecordResult g r "" [] "" 0 None None.

(** The shape of a knockout tournament with [npl] players: the round
    counter, the number of games so far, the games of the current round,
    the number of players waiting for the next round, the [finished] flag;
    every reference to a player is one of the roster. *)
Definition ko_shape (x : t) (npl : nat) (round : Z) (ngames : nat)
    (rgames : list GameRef) (npending : nat) (fin : bool) : Prop :=
  format x = FORMAT_KNOCKOUT
  /\ current_round x = round
  /\ List.length (all_games x) = ngames
  /\ round_games x = rgames
  /\ List.length (ko_pending_winners x) = npending
  /\ finished x = fin
  /\ Forall (fun i => (i < npl)%nat) (ko_pending_winners x)
  /\ Forall (fun g => (white g < npl)%nat /\ (black g < npl)%nat) (all_games x).

Lemma coin_pairs_spec (P : PlayerRef -> Prop) (k : nat) :
  forall (l : list PlayerRef) (n : nat),
    (List.length l <= k)%nat -> Forall P l ->
    List.length (fst (coin_pairs coin l n)) = (List.length l / 2)%nat
    /\ Forall (fun '(a, b) => P a /\ P b) (fst (coin_pairs coin l n)).
Proof.
  induction k as [|k IH]; intros l n Hk HP.
  - destruct l; [|cbn in Hk; lia]. split; [reflexivity|constructor].
  - destruct l as [|a [|b l]]; try (split; [reflexivity|constructor]).
    cbn [coin_pairs]. destruct (coin_pairs coin l (S n)) as [ps n'] eqn:E.
    inversion HP as [|? ? Pa HP']; subst. inversion HP' as [|? ? Pb HP'']; subst.
    destruct (IH l (S n)) as [Hl Hf]; [cbn in Hk; lia|exact HP''|].
    rewrite E in Hl, Hf. cbn [fst] in *. split.
    + cbn [List.length]. rewrite Hl.
      change (S (S (List.length l))) with (2 + List.length l)%nat.
      rewrite (Nat.div_add_l 1 2) by lia. reflexivity.
    + constructor; [destruct (coin n); auto|exact Hf].
Qed.

Lemma white_score_decisive (g : Game) (r : string) :
  result g = Some r -> decisive r ->
  exists w b, white_score g = Some w /\ black_score g = Some b.
Proof.
  intros Hr Hd. unfold black_score, white_score. rewrite Hr.
  destruct Hd as [-> | [-> | ->]]; do 2 eexists; split; reflexivity.
Qed.

(** What recording a decisive result does to a knockout tournament: the
    game is overwritten in place and one of its two players joins the
    waiting list. *)
Lemma record_ko_fields (x : t) (g : GameRef) (g0 : Game) (r why : string)
    (mv : list (string * string * string)) (pg : string) (d : Z)
    (op : option string) (ev : option (list Z)) :
  all_games x !! g = Some g0 -> format x = FORMAT_KNOCKOUT -> decisive r ->
  let y := record_game_result coin x g r why mv pg d op ev in
  format y = format x /\ current_round y = current_round x
  /\ round_games y = round_games x /\ finished y = finished x
  /\ winner y = winner x
  /\ (exists g', white g' = white g0 /\ black g' = black g0
                 /\ all_games y = <[g := g']> (all_games x))
  /\ (exists i, (i = white g0 \/ i = black g0)
                /\ ko_pending_winners y = ko_pending_winners x ++ [i]).
Proof.
  intros Eg Hf Hd. unfold record_game_result. rewrite Eg, Hf. cbv zeta.
  match goal with
  | |- context [white_score ?gm] =>
      destruct (white_score_decisive gm r eq_refl Hd) as (w & b & -> & ->)
  end.
  change (FORMAT_KNOCKOUT =? FORMAT_KNOCKOUT)%string with true. cbv iota.
  cbn [white black].
  assert (Hg : exists g', white g' = white g0 /\ black g' = black g0
                /\ <[g := {| round_num := round_num g0; white := white g0;
                             black := black g0; result := Some r; reason := why;
                             pgn := pg; move_count := Z.of_nat (List.length mv);
                             duration := d; opening := default ""%string op;
                             status := "done"; move_history := mv;
                             eval_history := default [] ev |}]> (all_games x)
                   = <[g := g']> (all_games x)).
  { eexists. split; [|split]; [| |reflexivity]; reflexivity. }
  destruct (negb (Qle_bool w b)); [|destruct (negb (Qle_bool b w))];
    cbn [format current_round round_games finished winner all_games ko_pending_winners];
    repeat (split; [reflexivity|]); (split; [exact Hg|]).
  - exists (white g0). auto.
  - exists (black g0). auto.
  - destruct (coin (draws_made x)); [exists (white g0)|exists (black g0)]; auto.
Qed.

Lemma record_ko_shape (x : t) (npl : nat) (round : Z) (ngames : nat)
    (rgames : list GameRef) (npending : nat) (fin : bool) (g : GameRef) (r : string) :
  ko_shape x npl round ngames rgames npending fin ->
  (g < ngames)%nat -> decisive r ->
  ko_shape (step coin shuffle x (report g r)) npl round ngames rgames (S npending) fin
  /\ winner (step coin shuffle x (report g r)) = winner x.
Proof.
  intros (Hf & Hr & Hn & Hg & Hp & Hfin & Hpend & Hgames) Hlt Hdec.
  destruct (lookup_lt_is_Some_2 (all_games x) g) as [g0 Eg]; [lia|].
  change (step coin shuffle x (report g r))
    with (record_game_result coin x g r "" [] "" 0 None None).
  destruct (record_ko_fields x g g0 r "" [] "" 0 None None Eg Hf Hdec)
    as (Ef & Er & Erg & Efin & Ew & (g' & Hw & Hb & Eg') & (i & Hi & Ep)).
  assert (Hin : (white g0 < npl)%nat /\ (black g0 < npl)%nat).
  { rewrite Forall_lookup in Hgames. exact (Hgames g g0 Eg). }
  split; [|exact Ew].
  unfold ko_shape. rewrite Ef, Er, Erg, Efin, Eg', Ep, length_insert, length_app.
  cbn [List.length].
  repeat split; try assumption; try lia.
  - apply Forall_app. split; [exact Hpend|].
    constructor; [|constructor]. destruct Hi as [-> | ->]; tauto.
  - apply Forall_insert; [exact Hgames|]. rewrite Hw, Hb. exact Hin.
Qed.

Hypothesis shuffle_perm : forall n l, Permutation (shuffle n l) l.

Lemma ko_not_swiss : (FORMAT_KNOCKOUT =? FORMAT_SWISS)%string = false.
Proof. reflexivity. Qed.

Lemma ko_not_rr : (FORMAT_KNOCKOUT =? FORMAT_ROUNDROBIN)%string = false.
Proof. reflexivity. Qed.

Lemma ko_is_ko : (FORMAT_KNOCKOUT =? FORMAT_KNOCKOUT)%string = true.
Proof. reflexivity. Qed.

Lemma update_buchholz_ko (x : t) :
  format x = FORMAT_KNOCKOUT -> update_buchholz x = x.
Proof. intros Hf. unfold update_buchholz. rewrite Hf. reflexivity. Qed.

(** With two or more players waiting, [advance_round] pairs them into
    the next round: half as many games as players, none waiting. *)
Lemma advance_ko_next (x : t) (npl : nat) (round : Z) (ngames : nat)
    (rgames : list GameRef) (npending : nat) (fin : bool) :
  ko_shape x npl round ngames rgames npending fin ->
  (2 <= npending)%nat -> 1 <= round ->
  exists y,
    advance_round coin shuffle x = (false, y)
    /\ ko_shape y npl (round + 1) (ngames + npending / 2)
                (seq ngames (npending / 2)) 0 fin
    /\ winner y = winner x.
Proof.
  intros (Hf & Hr & Hn & Hg & Hp & Hfin & Hpend & Hgames) H2 H1.
  unfold advance_round. rewrite (update_buchholz_ko x Hf). cbv zeta.
  rewrite Hf, ko_not_swiss, ko_not_rr, ko_is_ko. cbn [negb orb].
  destruct (Nat.leb_spec (List.length (ko_pending_winners x)) 1) as [Hle|_]; [lia|].
  eexists. split; [reflexivity|].
  unfold generate_round. cbn [format current_round ko_pending_winners].
  rewrite Hf, ko_not_swiss, ko_not_rr, ko_is_ko.
  destruct (Z.eqb_spec (current_round x + 1) 1) as [E|_]; [lia|].
  unfold set_ko at 2 3 4.
  cbn [format current_round ko_pending_winners ko_round_games winner draws_made].
  destruct (Nat.leb_spec (List.length (ko_pending_winners x)) 1) as [Hle|_]; [lia|].
  unfold next_round.
  pose proof (shuffle_perm (draws_made x) (ko_pending_winners x)) as Hs.
  assert (HF : Forall (fun i => (i < npl)%nat) (shuffle (draws_made x) (ko_pending_winners x))).
  { rewrite Hs. exact Hpend. }
  destruct (coin_pairs_spec (fun i => (i < npl)%nat) _ _ (S (draws_made x))
              (Nat.le_refl _) HF) as [Hlen Hin].
  destruct (coin_pairs coin _ _) as [pairs n] eqn:Ec. cbn [fst] in Hlen, Hin.
  rewrite (Permutation_length Hs), Hp in Hlen.
  rewrite add_games_spec. unfold set_ko, ko_shape.
  cbn [format current_round all_games round_games ko_pending_winners finished winner
       name player_list rounds double_rr played_pairs bye_history started status_msg
       ko_eliminated ko_round_games ko_active_players rr_schedule draws_made].
  rewrite length_app, length_map, Hlen, Hn, Hr.
  repeat split; try assumption; try reflexivity.
  - constructor.
  - apply Forall_app. split; [exact Hgames|].
    apply Forall_map. eapply Forall_impl; [exact Hin|].
    intros [w b] H. exact H.
Qed.

(** With one player waiting, [advance_round] ends the tournament and
    that player is the winner. *)
Lemma advance_ko_last (x : t) (npl : nat) (round : Z) (ngames : nat)
    (rgames : list GameRef) (fin : bool) :
  ko_shape x npl round ngames rgames 1 fin ->
  exists y w,
    advance_round coin shuffle x = (true, y)
    /\ finished y = true /\ winner y = Some w /\ (w < npl)%nat
    /\ current_round y = round /\ ko_pending_winners x = [w].
Proof.
  intros (Hf & Hr & Hn & Hg & Hp & Hfin & Hpend & Hgames).
  unfold advance_round. rewrite (update_buchholz_ko x Hf). cbv zeta.
  rewrite Hf, ko_not_swiss, ko_not_rr, ko_is_ko. cbn [negb orb].
  destruct (ko_pending_winners x) as [|w [|w' l]] eqn:E; try discriminate.
  cbn [List.length Nat.leb head].
  exists (finish (set_ko x [w] (ko_round_games x) (Some w) (draws_made x))), w.
  split; [reflexivity|]. unfold finish, set_ko. cbn.
  inversion Hpend; subst. repeat split; trivial.
Qed.

(** C6 (as amended).  A knockout tournament of five players is seeded
    into a bracket of eight: in round 1 three players (the first three
    of the roster) advance without a game and one game is played.  With
    every game reported as 1-0, 0-1 or 1/2-1/2, round 2 has two games,
    round 3 has one, and the [advance_round] after round 3 finishes the
    tournament with one player of the roster as the winner. *)
Theorem knockout_five_players (nm : string) (players : list Player) (rounds : Z)
    (dbl : bool) (r0 r1 r2 r3 : string) :
  List.length players = 5%nat ->
  decisive r0 -> decisive r1 -> decisive r2 -> decisive r3 ->
  let x1 := start coin shuffle (create nm FORMAT_KNOCKOUT players rounds dbl) in
  let x2 := run coin shuffle x1 [report 0%nat r0; AdvanceRound] in
  let x3 := run coin shuffle x2 [report 1%nat r1; report 2%nat r2; AdvanceRound] in
  let x4 := run coin shuffle x3 [report 3%nat r3; AdvanceRound] in
  (ko_pending_winners x1 = [0; 1; 2]%nat /\ round_games x1 = [0%nat]
   /\ List.map (fun g => (white g, black g)) (all_games x1) = [(3, 4)%nat])
  /\ (current_round x2 = 2 /\ round_games x2 = [1; 2]%nat /\ finished x2 = false)
  /\ (current_round x3 = 3 /\ round_games x3 = [3%nat] /\ finished x3 = false)
  /\ (finished x4 = true /\ current_round x4 = 3
      /\ exists w, winner x4 = Some w /\ (w < 5)%nat).
Proof.
  intros Hlen D0 D1 D2 D3.
  destruct players as [|p0 [|p1 [|p2 [|p3 [|p4 [|p5 ps]]]]]]; try discriminate. clear Hlen.
  intros x1.
  assert (S1 : ko_shape x1 5 1 1 [0%nat] 3 false).
  { unfold ko_shape. repeat split; try reflexivity.
    - cbn. repeat constructor.
    - cbn. repeat constructor. }
  intros x2 x3 x4.
  split; [repeat split; reflexivity|].
  (* round 1 *)
  destruct (record_ko_shape x1 _ _ _ _ _ _ 0%nat r0 S1 ltac:(lia) D0) as [S1' _].
  destruct (advance_ko_next _ _ _ _ _ _ _ S1' ltac:(lia) ltac:(lia)) as (y2 & E2 & S2 & _).
  assert (X2 : x2 = y2).
  { unfold x2, run. cbn [fold_left]. unfold step at 1. rewrite E2. reflexivity. }
  rewrite <- X2 in S2. clear E2 X2 y2 S1'. cbn in S2.
  split; [destruct S2 as (_ & ? & _ & ? & _ & ? & _); auto|].
  (* round 2 *)
  destruct (record_ko_shape x2 _ _ _ _ _ _ 1%nat r1 S2 ltac:(lia) D1) as [S2' _].
  destruct (record_ko_shape _ _ _ _ _ _ _ 2%nat r2 S2' ltac:(lia) D2) as [S2'' _].
  destruct (advance_ko_next _ _ _ _ _ _ _ S2'' ltac:(lia) ltac:(lia)) as (y3 & E3 & S3 & _).
  assert (X3 : x3 = y3).
  { unfold x3, run. cbn [fold_left]. unfold step at 1. rewrite E3. reflexivity. }
  rewrite <- X3 in S3. clear E3 X3 y3 S2' S2''. cbn in S3.
  split; [destruct S3 as (_ & ? & _ & ? & _ & ? & _); auto|].
  (* round 3 *)
  destruct (record_ko_shape x3 _ _ _ _ _ _ 3%nat r3 S3 ltac:(lia) D3) as [S3' _].
  destruct (advance_ko_last _ _ _ _ _ _ S3') as (y4 & w & E4 & F4 & W4 & Hw & R4 & _).
  assert (X4 : x4 = y4).
  { unfold x4, run. cbn [fold_left]. unfold step at 1. rewrite E4. reflexivity. }
  rewrite <- X4 in *. repeat split; trivial. exists w. auto.
Qed.

End ControllerFacts.

(** Concrete random sources and rosters for the examples. *)
Definition heads : nat -> bool := fun _ => true.
Definition keep_order : nat -> list PlayerRef -> list PlayerRef := fun _ l => l.

Definition five_players : list Player :=
  [new_player "a" ""; new_player "b" ""; new_player "c" ""; new_player "d" "";
   new_player "e" ""].

Lemma knockout_five_players_witness :
  let x1 := start heads keep_order (create "Cup" FORMAT_KNOCKOUT five_players 3 false) in
  let x2 := run heads keep_order x1 [report 0%nat "1-0"; AdvanceRound] in
  let x3 := run heads keep_order x2
              [report 1%nat "0-1"; report 2%nat "1/2-1/2"; AdvanceRound] in
  let x4 := run heads keep_order x3 [report 3%nat "1-0"; AdvanceRound] in
  List.length five_players = 5%nat
  /\ finished x4 = true /\ current_round x4 = 3
  /\ exists w, winner x4 = Some w /\ (w < 5)%nat.
Proof.
  intros x1 x2 x3 x4. split; [reflexivity|].
  exact (proj2 (proj2 (proj2
           (knockout_five_players heads keep_order (fun _ l => Permutation_refl l)
              "Cup" five_players 3 false "1-0" "0-1" "1/2-1/2" "1-0" eq_refl
              (or_introl eq_refl) (or_intror (or_introl eq_refl))
              (or_intror (or_intror eq_refl)) (or_introl eq_refl))))).
Defined.

(** Round 1 of five players has three byes, not one. *)
Lemma knockout_five_players_byes :
  let x1 := start heads keep_order (create "Cup" FORMAT_KNOCKOUT five_players 3 false) in
  ko_pending_winners x1 = [0; 1; 2]%nat
  /\ List.length (ko_pending_winners x1) <> 1%nat.
Proof. vm_compute. split; [reflexivity|discriminate]. Qed.

(** A result the controller does not score (an aborted game) advances
    nobody from that game. *)
Lemma knockout_unscored_result_example :
  let x1 := start heads keep_order (create "Cup" FORMAT_KNOCKOUT five_players 3 false) in
  ko_pending_winners (step heads keep_order x1 (report 0%nat "*")) = [0; 1; 2]%nat.
Proof. vm_compute. reflexivity. Qed.

Definition swiss_four : t := create "Open" FORMAT_SWISS PairingFacts.four_players 3 false.

Lemma controller_invariants_witness :
  let x1 := run heads keep_order swiss_four [Start; report 0%nat "1-0"] in
  let ops := [report 1%nat "0-1"; AdvanceRound] in
  records_once heads keep_order x1 ops
  /\ result_of x1 0%nat = Some "1-0"%string
  /\ result_of (run heads keep_order x1 ops) 0%nat = Some "1-0"%string.
Proof.
  intros x1 ops.
  assert (H1 : records_once heads keep_order x1 ops).
  { vm_compute. repeat split. }
  assert (H2 : result_of x1 0%nat = Some "1-0"%string) by (vm_compute; reflexivity).
  split; [exact H1|]. split; [exact H2|].
  exact (proj2 (proj2 (controller_invariants heads keep_order ops x1)) H1 0%nat _ H2).
Defined.

(** Recording a second result for a game replaces the first. *)
Lemma result_overwritten :
  let x1 := run heads keep_order swiss_four [Start; report 0%nat "1-0"] in
  result_of x1 0%nat = Some "1-0"%string
  /\ result_of (run heads keep_order x1 [report 0%nat "0-1"]) 0%nat = Some "0-1"%string
  /\ result_of (run heads keep_order x1 [report 0%nat "0-1"]) 0%nat <> result_of x1 0%nat.
Proof. vm_compute. split; [reflexivity|]. split; [reflexivity|discriminate]. Qed.

End TournamentFacts.

(** * Properties of the Elo computation *)

Module EloFacts.
Import Floats Elo.
Local Open Scope float_scope.

Section OneGame.
Variable normalize : string -> string.
Variable pow10 : float -> float.
Variables k start_elo : float.

Abbreviation play_game := (update normalize pow10 k start_elo).

(** The two engines of a game, as the rating table names them. *)
Definition white_key (g : GameRow) : string := normalize (normalize (fst (fst g))).
Definition black_key (g : GameRow) : string := normalize (normalize (snd (fst g))).

(** The rating the table holds for a key, the starting rating when the
    key is new. *)
Definition rating (m : gmap string float) (j : string) : float :=
  default start_elo (m !! j).

(** The table once the two engines of a game have been looked up. *)
Definition entered (m : gmap string float) (g : GameRow) : gmap string float :=
  <[black_key g := rating m (black_key g)]> (<[white_key g := rating m (white_key g)]> m).

(** [get_r] returns the rating of the key and enters it when it is new. *)
Lemma get_r_rating (m : gmap string float) (n : string) :
  get_r normalize start_elo m n
  = (rating m (normalize n), <[normalize n := rating m (normalize n)]> m).
Proof.
  unfold get_r, rating. destruct (m !! normalize n) as [v|] eqn:E; cbn [default].
  - rewrite insert_id by exact E. reflexivity.
  - reflexivity.
Qed.

Lemma rating_insert (m : gmap string float) (i j : string) :
  rating (<[i := rating m i]> m) j = rating m j.
Proof.
  unfold rating. destruct (decide (i = j)) as [->|Hne].
  - rewrite lookup_insert_eq. reflexivity.
  - rewrite lookup_insert_ne by exact Hne. reflexivity.
Qed.

(** The loop body, by the keys and ratings of the table it starts from. *)
Lemma update_eq (m : gmap string float) (g : GameRow) :
  play_game m g
  = (ew ← expected pow10 (rating m (white_key g)) (rating m (black_key g));
     Some match scores (snd g) with
          | Some (sw, sb) =>
              <[black_key g := rating m (black_key g) + k * (sb - (1 - ew))]>
                (<[white_key g := rating m (white_key g) + k * (sw - ew)]> (entered m g))
          | None => entered m g
          end).
Proof.
  destruct g as [[white black] result]. unfold update, white_key, black_key, entered.
  cbn [fst snd]. rewrite !get_r_rating, rating_insert.
  destruct (expected _ _ _) as [ew|]; cbn; [|reflexivity].
  destruct (scores result) as [[sw sb]|]; reflexivity.
Qed.

Lemma entered_lookup (m : gmap string float) (g : GameRow) (j : string) :
  entered m g !! j
  = if decide (j = white_key g \/ j = black_key g) then Some (rating m j) else m !! j.
Proof.
  unfold entered. destruct (decide (j = black_key g)) as [->|Hb].
  - rewrite lookup_insert_eq. rewrite decide_True by auto. reflexivity.
  - rewrite lookup_insert_ne by congruence.
    destruct (decide (j = white_key g)) as [->|Hw].
    + rewrite lookup_insert_eq. rewrite decide_True by auto. reflexivity.
    + rewrite lookup_insert_ne by congruence. rewrite decide_False by tauto. reflexivity.
Qed.


(** No game touches the entry of a third engine. *)
Lemma update_others (m m' : gmap string float) (g : GameRow) (j : string) :
  play_game m g = Some m' ->
  j <> white_key g -> j <> black_key g -> m' !! j = m !! j.
Proof.
  rewrite update_eq. intros H Hw Hb.
  destruct (expected _ _ _) as [ew|]; cbn in H; [|discriminate].
  injection H as <-.
  destruct (scores (snd g)) as [[sw sb]|];
    rewrite ?lookup_insert_ne by congruence;
    rewrite entered_lookup, decide_False by tauto; reflexivity.
Qed.

(** A game with a result string other than 1-0, 0-1 and 1/2-1/2 changes
    no rating; it enters its engines at the starting rating when they are
    new. *)
Lemma update_unscored (m m' : gmap string float) (g : GameRow) :
  play_game m g = Some m' ->
  scores (snd g) = None ->
  m' = entered m g
  /\ (forall j v, m !! j = Some v -> m' !! j = Some v)
  /\ (forall j v, m' !! j = Some v -> m !! j = Some v \/ v = start_elo).
Proof.
  rewrite update_eq. intros H Es. rewrite Es in H.
  destruct (expected _ _ _) as [ew|]; cbn in H; [|discriminate].
  injection H as <-. split; [reflexivity|]. split.
  - intros j v Hj. rewrite entered_lookup. case_decide; [|exact Hj].
    unfold rating. rewrite Hj. reflexivity.
  - intros j v. rewrite entered_lookup. case_decide; [|auto].
    unfold rating. destruct (m !! j); cbn [default]; intros [= <-]; auto.
Qed.


(** After a game both its engines are in the table, whatever the result. *)
Lemma update_players (m m' : gmap string float) (g : GameRow) :
  play_game m g = Some m' ->
  is_Some (m' !! white_key g) /\ is_Some (m' !! black_key g).
Proof.
  rewrite update_eq. intros H.
  destruct (expected _ _ _) as [ew|]; cbn in H; [|discriminate].
  injection H as <-.
  destruct (scores (snd g)) as [[sw sb]|]; split;
    rewrite ?lookup_insert_is_Some', ?entered_lookup, ?decide_True by auto;
    unfold is_Some; eauto 6.
Qed.



End OneGame.



Lemma normalize_stockfish :
  normalize_engine_name (normalize_engine_name "Stockfish (White)") = "Stockfish"%string
  /\ normalize_engine_name (normalize_engine_name "Stockfish (Black)") = "Stockfish"%string.
Proof. vm_compute. split; reflexivity. Qed.


End EloFacts.

(** * Further properties of the position engine *)

Module PositionFacts.
Import Py Board OpeningBook BoardFacts.

(** ** Decimal numerals *)

(** The digits of a numeral, read from the left with an accumulator, as
    [int_of_string] does. *)
Definition dec (l : list ascii) (acc : Z) : Z :=
  fold_left (fun acc c => 10 * acc + int_of_char c) l acc.

Lemma dec_uint_acc (d : Decimal.uint) :
  forall acc : positive,
    dec (chars (NilEmpty.string_of_uint d)) (Z.pos acc) = Z.pos (Pos.of_uint_acc d acc).
Proof.
  induction d; intros acc; cbn [NilEmpty.string_of_uint chars list_ascii_of_string dec fold_left
                                  Pos.of_uint_acc];
    try reflexivity;
    match goal with
    | |- fold_left ?f ?l (10 * Z.pos acc + int_of_char ?c) = Z.pos (Pos.of_uint_acc _ ?a) =>
        let v := eval vm_compute in (int_of_char c) in
        replace (10 * Z.pos acc + int_of_char c) with (Z.pos a)
          by (change (int_of_char c) with v; lia)
    end; apply IHd.
Qed.

Lemma dec_uint (d : Decimal.uint) :
  dec (chars (NilEmpty.string_of_uint d)) 0 = Z.of_N (Pos.of_uint d).
Proof.
  induction d; cbn [NilEmpty.string_of_uint chars list_ascii_of_string dec fold_left Pos.of_uint];
    try reflexivity;
    try exact IHd;
    match goal with
    | |- fold_left ?f ?l (10 * 0 + int_of_char ?c) = Z.of_N (N.pos (Pos.of_uint_acc _ ?a)) =>
        let v := eval vm_compute in (int_of_char c) in
        replace (10 * 0 + int_of_char c) with (Z.pos a)
          by (change (int_of_char c) with v; lia)
    end; apply dec_uint_acc.
Qed.

Lemma nil_zero_uint (d : Decimal.uint) :
  d <> Decimal.Nil -> NilZero.string_of_uint d = NilEmpty.string_of_uint d.
Proof. destruct d; [congruence|reflexivity..]. Qed.

(** [int(str(n))] is [n] for a natural number [n]. *)
Lemma int_of_string_str (n : Z) : 0 <= n -> int_of_string (str n) = n.
Proof.
  intros H. destruct n as [|p|p]; [reflexivity| |lia].
  unfold int_of_string, str. cbn [Z.to_int NilZero.string_of_int].
  rewrite nil_zero_uint by apply DecimalPos.Unsigned.to_uint_nonnil.
  change (dec (chars (NilEmpty.string_of_uint (Pos.to_uint p))) 0 = Z.pos p).
  rewrite dec_uint, DecimalPos.Unsigned.of_to. reflexivity.
Qed.

Lemma uint_chars (P : ascii -> Prop) (d : Decimal.uint) :
  (forall c, isdigit c = true -> P c) ->
  Forall P (chars (NilEmpty.string_of_uint d)).
Proof.
  intros H. induction d; cbn [NilEmpty.string_of_uint chars list_ascii_of_string];
    constructor; try exact IHd; apply H; reflexivity.
Qed.

Lemma nil_zero_chars (P : ascii -> Prop) (d : Decimal.uint) :
  (forall c, isdigit c = true -> P c) ->
  Forall P (chars (NilZero.string_of_uint d)) /\ NilZero.string_of_uint d <> ""%string.
Proof.
  intros H. destruct d; try (split; [apply (uint_chars P _ H)|discriminate]).
  split; [repeat constructor; apply H; reflexivity|discriminate].
Qed.

(** [str(z)] is a non-empty run of digits, after a minus sign when [z]
    is negative. *)
Lemma str_chars (P : ascii -> Prop) (z : Z) :
  (forall c, isdigit c = true -> P c) -> P "-"%char ->
  Forall P (chars (str z)) /\ str z <> ""%string.
Proof.
  intros H Hm. unfold str. destruct (Z.to_int z) as [d|d]; cbn [NilZero.string_of_int].
  - apply nil_zero_chars, H.
  - split; [|discriminate]. constructor; [exact Hm|apply nil_zero_chars, H].
Qed.

Lemma str_natural_chars (P : ascii -> Prop) (z : Z) :
  0 <= z -> (forall c, isdigit c = true -> P c) ->
  Forall P (chars (str z)) /\ str z <> ""%string.
Proof.
  intros Hz H. unfold str. destruct z as [|p|p]; [| |lia]; cbn [Z.to_int NilZero.string_of_int];
    apply nil_zero_chars, H.
Qed.

Lemma digit_not_space (c : ascii) : isdigit c = true -> isspace c = false.
Proof.
  unfold isdigit, isspace. intros H. apply andb_true_iff in H.
  destruct H as [H1 H2]. apply Z.leb_le in H1, H2.
  apply orb_false_iff. split; apply andb_false_iff; right; apply Z.leb_gt; lia.
Qed.

(** ** FEN export and import *)

Lemma str_field (n : Z) :
  0 <= n -> free_of isspace (str n) /\ str n <> ""%string.
Proof.
  intros H. exact (str_natural_chars (fun c => isspace c = false) n H digit_not_space).
Qed.

(** The six fields of the FEN text of a well-formed position. *)
Lemma split_ws_to_fen (b : t) :
  wf b -> 0 <= halfmove b -> 0 <= fullmove b ->
  split_ws (to_fen b)
  = [placement b; str1 (turn b); castling b; ep b; str (halfmove b); str (fullmove b)].
Proof.
  intros Hwf Hh Hf. unfold to_fen. cbv zeta. fold (placement b).
  destruct (placement_plain b Hwf) as [Pa Pn], (turn_plain b Hwf) as [Ta Tn].
  destruct (str_field _ Hh) as [Ha Hn], (str_field _ Hf) as [Fa Fn].
  destruct Hwf as (_ & _ & Cf & Cn & Ef & En).
  destruct (String.eqb_spec (castling b) "") as [E|_]; [congruence|].
  rewrite !split_ws_word_space by assumption.
  rewrite split_ws_last_word by assumption. reflexivity.
Qed.

(** X1.  Reading back the text [to_fen] writes restores the position:
    grid, side to move, castling and en-passant fields and both
    counters, for every well-formed position with natural counters. *)
Theorem fen_round_trip (b0 b : t) :
  wf b -> 0 <= halfmove b -> 0 <= fullmove b ->
  board (load_fen b0 (to_fen b)) = board b
  /\ turn (load_fen b0 (to_fen b)) = turn b
  /\ castling (load_fen b0 (to_fen b)) = castling b
  /\ ep (load_fen b0 (to_fen b)) = ep b
  /\ halfmove (load_fen b0 (to_fen b)) = halfmove b
  /\ fullmove (load_fen b0 (to_fen b)) = fullmove b.
Proof.
  intros Hwf Hh Hf. unfold load_fen. cbv zeta.
  rewrite (split_ws_to_fen b Hwf Hh Hf).
  cbn [board turn castling ep halfmove fullmove].
  change ([placement b; str1 (turn b); castling b; ep b; str (halfmove b);
           str (fullmove b)] !! 0%nat) with (Some (placement b)).
  change ([placement b; str1 (turn b); castling b; ep b; str (halfmove b);
           str (fullmove b)] !! 1%nat) with (Some (str1 (turn b))).
  change ([placement b; str1 (turn b); castling b; ep b; str (halfmove b);
           str (fullmove b)] !! 2%nat) with (Some (castling b)).
  change ([placement b; str1 (turn b); castling b; ep b; str (halfmove b);
           str (fullmove b)] !! 3%nat) with (Some (ep b)).
  change ([placement b; str1 (turn b); castling b; ep b; str (halfmove b);
           str (fullmove b)] !! 4%nat) with (Some (str (halfmove b))).
  change ([placement b; str1 (turn b); castling b; ep b; str (halfmove b);
           str (fullmove b)] !! 5%nat) with (Some (str (fullmove b))).
  cbv beta iota. rewrite !int_of_string_str by assumption.
  repeat split; try reflexivity.
  destruct Hwf as (Hg & _).
  destruct (fen_rows_plain _ Hg) as (_ & S1 & _ & L1).
  unfold placement. rewrite split_slash_join; [exact L1|exact S1|].
  destruct Hg as [Hl _]. destruct (board b); discriminate.
Qed.

Lemma fen_round_trip_witness :
  board (load_fen init (to_fen init)) = board init
  /\ turn (load_fen init (to_fen init)) = turn init
  /\ castling (load_fen init (to_fen init)) = castling init
  /\ ep (load_fen init (to_fen init)) = ep init
  /\ halfmove (load_fen init (to_fen init)) = halfmove init
  /\ fullmove (load_fen init (to_fen init)) = fullmove init.
Proof.
  apply (fen_round_trip init init); [exact wf_init|vm_compute; discriminate..].
Defined.

(** ** What an accepted move changes *)

Lemma apply_checked_record (b b' : t) (uci san : string) (cap : option ascii)
    (m : Move) (legal : list Move) :
  apply_checked b uci m legal = (Returned san cap, b') ->
  move_history b' = Board.move_history b ++ [(uci, san, to_fen b')]
  /\ material_cache b' = None.
Proof.
  destruct m as [[[[fr fc] tr] tc] promo]. unfold apply_checked.
  intros H. injection H as <- <- <-. split; reflexivity.
Qed.

(** An accepted token, unpacked: the legal move it stands for, the
    fields [_apply_raw] computes, the history entry and the emptied
    material cache. *)
Lemma apply_uci_effect (b b' : t) (uci san : string) (cap : option ascii) :
  apply_uci b uci = (Returned san cap, b') ->
  exists m,
    accepted_move b uci = Some m /\ In m (legal_moves b None)
    /\ board b' = board (apply_raw b m) /\ turn b' = turn (apply_raw b m)
    /\ castling b' = castling (apply_raw b m) /\ ep b' = ep (apply_raw b m)
    /\ halfmove b' = halfmove (apply_raw b m)
    /\ fullmove b' = fullmove (apply_raw b m)
    /\ Board.move_history b' = Board.move_history b ++ [(uci, san, to_fen b')]
    /\ material_cache b' = None.
Proof.
  intros H. destruct (accepted_move b uci) as [m|] eqn:E.
  - destruct (apply_uci_accepted _ _ _ E) as [Hin Happ].
    destruct (apply_checked_fields b uci m (legal_moves b None))
      as (san' & cap' & b'' & Hc & Hb & Ht & Hcs & He & Hh & Hf & _).
    rewrite Happ in H. destruct (apply_checked_record _ _ _ _ _ _ _ H) as [Hm Hk].
    rewrite H in Hc. inversion Hc; subst. exists m. tauto.
  - apply apply_uci_rejected in E. destruct E as [msg E]. congruence.
Qed.

Lemma apply_raw_turn (b : t) (m : Move) :
  turn (apply_raw b m) = if (turn b =? "w")%char then "b"%char else "w"%char.
Proof. destruct m as [[[[fr fc] tr] tc] promo]. reflexivity. Qed.

Lemma apply_raw_fullmove (b : t) (m : Move) :
  fullmove (apply_raw b m) = if (turn b =? "b")%char then fullmove b + 1 else fullmove b.
Proof. destruct m as [[[[fr fc] tr] tc] promo]. reflexivity. Qed.

Lemma apply_raw_halfmove (b : t) (m : Move) :
  halfmove (apply_raw b m) = 0 \/ halfmove (apply_raw b m) = halfmove b + 1.
Proof.
  destruct m as [[[[fr fc] tr] tc] promo]. unfold apply_raw. cbn [halfmove].
  destruct (_ || _); auto.
Qed.

(** X3.  The move list of a game is the list of tokens played: after
    any sequence of accepted tokens from the starting position,
    [uci_moves_list] returns that sequence and [uci_moves_str] joins it
    with blanks. *)
Theorem uci_moves_list_played (ucis : list string) (b : t) :
  play init ucis = Some b ->
  uci_moves_list b = ucis /\ uci_moves_str b = join " " ucis.
Proof.
  assert (G : forall us b0 bn, play b0 us = Some bn ->
                               uci_moves_list bn = uci_moves_list b0 ++ us).
  { induction us as [|u us IH]; intros b0 bn H; cbn [play] in H.
    - injection H as <-. rewrite app_nil_r. reflexivity.
    - destruct (apply_uci b0 u) as [[msg|san cap] b1] eqn:E; [discriminate|].
      destruct (apply_uci_effect _ _ _ _ _ E) as (m & _ & _ & _ & _ & _ & _ & _ & _ & Hm & _).
      rewrite (IH _ _ H). unfold uci_moves_list.
      rewrite Hm, map_app, <- app_assoc. reflexivity. }
  intros H. apply G in H.
  assert (E : uci_moves_list init = []) by (vm_compute; reflexivity).
  rewrite E in H. cbn [app] in H. unfold uci_moves_str. rewrite H. auto.
Qed.

Lemma uci_moves_list_played_witness :
  uci_moves_list (position_after ["e2e4"; "e7e5"; "g1f3"]%string)
  = ["e2e4"; "e7e5"; "g1f3"]%string
  /\ uci_moves_str (position_after ["e2e4"; "e7e5"; "g1f3"]%string)
     = join " " ["e2e4"; "e7e5"; "g1f3"]%string.
Proof.
  apply (uci_moves_list_played ["e2e4"; "e7e5"; "g1f3"]%string).
  vm_compute. reflexivity.
Defined.

(** ** Counters along a game *)

(** The side to move and the move number after [n] plies. *)
Definition on_move (n : nat) (b : t) : Prop :=
  turn b = (if Nat.even n then "w"%char else "b"%char)
  /\ fullmove b = 1 + Z.of_nat (n / 2)
  /\ 0 <= halfmove b <= Z.of_nat n.

Lemma on_move_step (n : nat) (b b' : t) (uci san : string) (cap : option ascii) :
  on_move n b -> apply_uci b uci = (Returned san cap, b') -> on_move (S n) b'.
Proof.
  intros (Ht & Hf & Hh) H.
  destruct (apply_uci_effect _ _ _ _ _ H) as (m & _ & _ & _ & Ht' & _ & _ & Hh' & Hf' & _).
  rewrite apply_raw_turn in Ht'. rewrite apply_raw_fullmove in Hf'.
  unfold on_move. rewrite Ht', Hf', Ht, Hf, Nat.even_succ, <- Nat.negb_even.
  destruct (apply_raw_halfmove b m) as [E|E]; rewrite Hh', E;
    destruct (Nat.even n) eqn:En; cbn [negb Ascii.eqb];
    (split; [reflexivity|]); (split; [|lia]).
  all: try (apply Nat.even_spec in En; destruct En as [k ->];
            replace (S (2 * k)) with (1 + k * 2)%nat by lia;
            rewrite Nat.div_add by lia;
            replace (2 * k)%nat with (k * 2)%nat by lia;
            rewrite Nat.div_mul by lia; cbn; lia).
  all: assert (Ho : Nat.odd n = true) by (rewrite <- Nat.negb_even, En; reflexivity);
    apply Nat.odd_spec in Ho; destruct Ho as [k ->];
    replace (S (2 * k + 1)) with ((k + 1) * 2)%nat by lia;
    rewrite Nat.div_mul by lia;
    replace (2 * k + 1)%nat with (1 + k * 2)%nat by lia;
    rewrite Nat.div_add by lia; cbn; lia.
Qed.

(** X4.  After [n] accepted plies from the starting position it is
    White's turn when [n] is even and Black's when it is odd, the move
    number is [1 + n // 2], and the halfmove clock lies between 0 and
    [n]. *)
Theorem play_counters (ucis : list string) (b : t) :
  play init ucis = Some b ->
  turn b = (if Nat.even (List.length ucis) then "w"%char else "b"%char)
  /\ fullmove b = 1 + Z.of_nat (List.length ucis / 2)
  /\ 0 <= halfmove b <= Z.of_nat (List.length ucis).
Proof.
  assert (G : forall us n b0 bn, on_move n b0 -> play b0 us = Some bn ->
                                 on_move (n + List.length us) bn).
  { induction us as [|u us IH]; intros n b0 bn Hn H; cbn [play] in H.
    - injection H as <-. cbn [List.length]. rewrite Nat.add_0_r. exact Hn.
    - destruct (apply_uci b0 u) as [[msg|san cap] b1] eqn:E; [discriminate|].
      cbn [List.length]. rewrite Nat.add_succ_r.
      exact (IH (S n) b1 bn (on_move_step _ _ _ _ _ _ Hn E) H). }
  intros H. apply (G ucis 0%nat init b); [|exact H].
  unfold on_move. vm_compute. repeat split; discriminate.
Qed.

Lemma play_counters_witness :
  turn (position_after ["e2e4"; "e7e5"; "g1f3"]%string)
  = (if Nat.even (List.length ["e2e4"; "e7e5"; "g1f3"]%string) then "w"%char else "b"%char)
  /\ fullmove (position_after ["e2e4"; "e7e5"; "g1f3"]%string)
     = 1 + Z.of_nat (List.length ["e2e4"; "e7e5"; "g1f3"]%string / 2)
  /\ 0 <= halfmove (position_after ["e2e4"; "e7e5"; "g1f3"]%string)
       <= Z.of_nat (List.length ["e2e4"; "e7e5"; "g1f3"]%string).
Proof.
  apply (play_counters ["e2e4"; "e7e5"; "g1f3"]%string).
  vm_compute. reflexivity.
Defined.

(** ** Keys and well-formedness *)

(** X5.  Every position of a game played from the starting position is
    well formed: an 8x8 grid of piece letters and dots, a side to move
    that is White or Black, and non-empty castling and en-passant
    fields free of white space. *)
Theorem play_well_formed (ucis : list string) (b : t) :
  play init ucis = Some b -> wf b.
Proof. intros H. exact (play_wf ucis init b wf_init H). Qed.

Lemma play_well_formed_witness : wf (position_after ["e2e4"; "e7e5"; "g1f3"]%string).
Proof.
  apply (play_well_formed ["e2e4"; "e7e5"; "g1f3"]%string).
  vm_compute. reflexivity.
Defined.

(** X6.  The repetition key tells positions apart exactly by what the
    rules read: two well-formed positions have one key if and only if
    they agree on the grid, the side to move, the castling field and the
    en-passant field; they then have the same legal moves. *)
Theorem pos_key_identifies (b1 b2 : t) :
  wf b1 -> wf b2 ->
  (pos_key b1 = pos_key b2
   <-> board b1 = board b2 /\ turn b1 = turn b2
       /\ castling b1 = castling b2 /\ ep b1 = ep b2)
  /\ (pos_key b1 = pos_key b2 -> legal_moves b1 None = legal_moves b2 None).
Proof.
  intros W1 W2. split; [split|].
  - exact (pos_key_inj b1 b2 W1 W2).
  - intros (Eb & Et & Ec & Ee).
    rewrite (pos_key_wf b1 W1), (pos_key_wf b2 W2). unfold placement.
    rewrite Eb, Et, Ec, Ee. reflexivity.
  - intros E. destruct (pos_key_inj b1 b2 W1 W2 E) as (Eb & Et & Ec & Ee).
    exact (legal_moves_same b1 b2 Eb Et Ec Ee).
Qed.

Lemma pos_key_identifies_witness :
  (pos_key init = pos_key (position_after ["g1f3"; "g8f6"; "f3g1"; "f6g8"]%string)
   <-> board init = board (position_after ["g1f3"; "g8f6"; "f3g1"; "f6g8"]%string)
       /\ turn init = turn (position_after ["g1f3"; "g8f6"; "f3g1"; "f6g8"]%string)
       /\ castling init = castling (position_after ["g1f3"; "g8f6"; "f3g1"; "f6g8"]%string)
       /\ ep init = ep (position_after ["g1f3"; "g8f6"; "f3g1"; "f6g8"]%string))
  /\ (pos_key init = pos_key (position_after ["g1f3"; "g8f6"; "f3g1"; "f6g8"]%string) ->
      legal_moves init None
      = legal_moves (position_after ["g1f3"; "g8f6"; "f3g1"; "f6g8"]%string) None).
Proof.
  apply (pos_key_identifies init (position_after ["g1f3"; "g8f6"; "f3g1"; "f6g8"]%string)).
  - exact wf_init.
  - apply (play_wf ["g1f3"; "g8f6"; "f3g1"; "f6g8"]%string init _ wf_init).
    vm_compute. reflexivity.
Defined.

(** ** The material cache *)

(** The calls of the public methods that write to a [Board], and the
    object after each; a rejected [apply_uci] leaves it as it was. *)
Inductive board_op : Type :=
  | OpApply (uci : string)
  | OpMaterial
  | OpReset.

Definition board_step (b : t) (o : board_op) : t :=
  match o with
  | OpApply uci => snd (apply_uci b uci)
  | OpMaterial => snd (material b)
  | OpReset => reset b
  end.

Definition cache_fresh (b : t) : Prop :=
  material_cache b = None \/ material_cache b = Some (count_material (board b)).

Lemma cache_fresh_step (b : t) (o : board_op) : cache_fresh b -> cache_fresh (board_step b o).
Proof.
  intros H. destruct o as [uci| |]; cbn [board_step].
  - destruct (apply_uci b uci) as [[msg|san cap] b'] eqn:E; cbn [snd].
    + destruct (accepted_move b uci) as [m|] eqn:A.
      * destruct (apply_uci_accepted _ _ _ A) as [_ Happ].
        destruct (apply_checked_fields b uci m (legal_moves b None))
          as (san' & cap' & b'' & Hc & _). congruence.
      * apply apply_uci_rejected in A. destruct A as [msg' A].
        rewrite A in E. injection E as _ <-. exact H.
    + destruct (apply_uci_effect _ _ _ _ _ E) as (m & _ & _ & _ & _ & _ & _ & _ & _ & _ & Hk).
      left. exact Hk.
  - unfold material. destruct (material_cache b) eqn:E; cbn [snd]; [exact H|].
    right. reflexivity.
  - left. vm_compute. reflexivity.
Qed.

(** X7.  The material cache is never stale: after any sequence of
    [apply_uci], [material] and [reset] calls on a fresh board, accepted
    or not, [material] returns the totals counted on the current grid. *)
Theorem material_cache_coherent (ops : list board_op) :
  fst (material (fold_left board_step ops init))
  = count_material (board (fold_left board_step ops init)).
Proof.
  assert (G : forall os b, cache_fresh b -> cache_fresh (fold_left board_step os b)).
  { induction os as [|o os IH]; intros b H; [exact H|].
    cbn [fold_left]. apply IH, cache_fresh_step, H. }
  assert (H : cache_fresh (fold_left board_step ops init)).
  { apply G. left. vm_compute. reflexivity. }
  unfold material. destruct H as [-> | ->]; reflexivity.
Qed.

End PositionFacts.

(** * Sorting by a key *)

Module OrderFacts.
Import Pairing.

Section Order.
Context {A : Type} (le : A -> A -> bool).

(** Any two elements are comparable, as the keys of a sort are. *)
Hypothesis le_total : forall x y, le x y = false -> le y x = true.

Lemma insert_by_hd (x y : A) (l : list A) :
  le y x = true -> HdRel (fun a b => le a b = true) y l ->
  HdRel (fun a b => le a b = true) y (insert_by le x l).
Proof.
  intros Hyx H. destruct l as [|z l]; cbn [insert_by]; [constructor; exact Hyx|].
  destruct (le x z); constructor; [exact Hyx|].
  inversion H; subst. assumption.
Qed.

Lemma insert_by_sorted (x : A) (l : list A) :
  Sorted (fun a b => le a b = true) l ->
  Sorted (fun a b => le a b = true) (insert_by le x l).
Proof.
  induction l as [|y l IH]; intros H; cbn [insert_by].
  - repeat constructor.
  - destruct (le x y) eqn:E.
    + constructor; [exact H|constructor; exact E].
    + inversion H as [|? ? Hs Hh]; subst.
      constructor; [exact (IH Hs)|].
      apply insert_by_hd; [exact (le_total _ _ E)|exact Hh].
Qed.

(** The list [sort_by] returns is in order. *)
Lemma sort_by_sorted (l : list A) : Sorted (fun a b => le a b = true) (sort_by le l).
Proof.
  induction l as [|x l IH]; cbn [sort_by fold_right]; [constructor|].
  apply insert_by_sorted. exact IH.
Qed.
End Order.



End OrderFacts.

(** * Moves, tokens and the opening book *)

Module MoveFacts.
Import Py Board OpeningBook BookEntries BoardFacts PositionFacts OrderFacts.

(** The direction a pawn walks and the row a king starts on, by the
    case of the piece letter. *)
Definition fwd_of (piece : ascii) : Z := if isupper piece then -1 else 1.
Definition home_row (piece : ascii) : Z := if isupper piece then 7 else 0.

(** Whether [_build_san] marks the move as a capture. *)
Definition san_is_cap (b : t) (m : Move) : bool :=
  let '(fr, fc, tr, tc, promo) := m in
  negb (cell (board b) tr tc =? ".")%char
  || ((lower (cell (board b) fr fc) =? "p")%char && negb (ep b =? "-")%string
      && (tc =? ep_col (ep b)) && (tr =? ep_row (ep b))).

(** What the generator guarantees of a move, by the kind of the piece
    on its origin square. *)
Definition move_ok (b : t) (m : Move) : Prop :=
  let '(fr, fc, tr, tc, promo) := m in
  let piece := cell (board b) fr fc in
  let p := lower piece in
  valid tr tc = true /\ piece <> "."%char
  /\ ((p = "p"%char
       /\ match promo with None => True | Some x => In x promos end
       /\ ((tc = fc /\ tr = fr + fwd_of piece)
           \/ (tc = fc /\ tr = fr + 2 * fwd_of piece
               /\ cell (board b) (fr + fwd_of piece) fc = "."%char)
           \/ (tc <> fc /\ tr = fr + fwd_of piece /\ san_is_cap b m = true)))
      \/ (promo = None
          /\ (p = "n"%char \/ p = "b"%char \/ p = "r"%char \/ p = "q"%char))
      \/ (promo = None /\ p = "k"%char
          /\ (fc = 4 -> tc = 6 \/ tc = 2 -> fr = home_row piece /\ tr = home_row piece))).

Lemma valid_range (r c : Z) : valid r c = true <-> 0 <= r < 8 /\ 0 <= c < 8.
Proof. unfold valid. rewrite !andb_true_iff. lia. Qed.

Lemma is_w_not_dot (p : ascii) : is_w p = true -> p <> "."%char.
Proof. unfold is_w. intros H ->. discriminate. Qed.

Lemma is_b_not_dot (p : ascii) : is_b p = true -> p <> "."%char.
Proof. unfold is_b. intros H ->. discriminate. Qed.

Lemma enemy_not_dot (p t : ascii) : enemy p t = true -> (p =? ".")%char = false.
Proof.
  unfold enemy. intros H. apply Ascii.eqb_neq.
  destruct (t =? "w")%char; [apply is_b_not_dot|apply is_w_not_dot]; exact H.
Qed.

Lemma slide_ok (g : Grid) (turn : ascii) (r c dr dc : Z) (fuel : nat) :
  forall nr nc m, In m (slide g turn r c dr dc fuel nr nc) ->
                  exists tr tc, m = (r, c, tr, tc, None) /\ valid tr tc = true.
Proof.
  induction fuel as [|fuel IH]; intros nr nc m H; cbn [slide] in H; [contradiction|].
  destruct (valid nr nc) eqn:V; [|contradiction].
  destruct (cell g nr nc =? ".")%char.
  - destruct H as [<-|H]; [eauto|eauto].
  - destruct (enemy _ _); [|contradiction].
    destruct H as [<-|[]]. eauto.
Qed.

Lemma jumps_ok (g : Grid) (piece : ascii) (r c : Z) (ds : list (Z * Z)) (m : Move) :
  In m (jumps g piece r c ds) ->
  exists dr dc, In (dr, dc) ds /\ m = (r, c, r + dr, c + dc, None)
                /\ valid (r + dr) (c + dc) = true.
Proof.
  unfold jumps. intros H. apply in_flat_map in H. destruct H as ([dr dc] & Hd & H).
  destruct (valid _ _) eqn:V; cbn [andb] in H; [|contradiction].
  destruct (negb _); [|contradiction].
  destruct H as [<-|[]]. eauto.
Qed.

Lemma king_step (dr dc : Z) : In (dr, dc) KING_D -> -1 <= dc <= 1.
Proof.
  intros H. cbn in H.
  repeat (destruct H as [[= <- <-]|H]; [lia|]). contradiction.
Qed.

Lemma promos_mapped (r c tr tc : Z) (m : Move) :
  In m (List.map (fun pp => (r, c, tr, tc, Some pp)) promos) ->
  exists pp, m = (r, c, tr, tc, Some pp) /\ In pp promos.
Proof.
  intros H. apply in_map_iff in H. destruct H as (pp & <- & Hpp). eauto.
Qed.

(** The moves generated for the piece on a square of the grid. *)
Lemma pseudo_ok (b : t) (r c : Z) (m : Move) :
  valid r c = true -> In m (pseudo b r c) ->
  exists tr tc promo, m = (r, c, tr, tc, promo) /\ move_ok b m.
Proof.
  intros Vrc H. unfold pseudo in H.
  destruct (cell (board b) r c =? ".")%char eqn:Edot; [contradiction|].
  apply Ascii.eqb_neq in Edot.
  set (piece := cell (board b) r c) in *.
  assert (Hfwd : (if ((if isupper piece then "w" else "b") =? "w")%char then -1 else 1)
                 = fwd_of piece).
  { unfold fwd_of. destruct (isupper piece); reflexivity. }
  destruct (lower piece =? "p")%char eqn:Ep.
  { apply Ascii.eqb_eq in Ep. rewrite Hfwd in H.
    apply in_app_or in H. destruct H as [H|H].
    - destruct (valid (r + fwd_of piece) c) eqn:V1; cbn [andb] in H; [|contradiction].
      destruct (cell (board b) (r + fwd_of piece) c =? ".")%char eqn:E1; [|contradiction].
      apply Ascii.eqb_eq in E1.
      destruct (_ =? _).
      + apply promos_mapped in H. destruct H as (pp & -> & Hpp).
        do 3 eexists. split; [reflexivity|]. unfold move_ok. fold piece.
        split; [exact V1|]. split; [exact Edot|]. left. auto.
      + destruct H as [<-|H].
        * do 3 eexists. split; [reflexivity|]. unfold move_ok. fold piece.
          split; [exact V1|]. split; [exact Edot|]. left. auto.
        * destruct (r =? _) eqn:Es; cbn [andb] in H; [|contradiction].
          destruct (_ =? ".")%char; [|contradiction].
          destruct H as [<-|[]].
          do 3 eexists. split; [reflexivity|]. unfold move_ok. fold piece.
          split.
          { apply valid_range in V1. apply valid_range. apply Z.eqb_eq in Es.
            unfold fwd_of in *. destruct (isupper piece); cbn in Es; lia. }
          split; [exact Edot|]. left.
          split; [exact Ep|]. split; [exact I|]. right. left.
          split; [reflexivity|]. split; [reflexivity|exact E1].
    - apply in_flat_map in H. destruct H as (dc & Hdc & H).
      destruct (valid (r + fwd_of piece) (c + dc)) eqn:V1; [|contradiction].
      assert (Hne : c + dc <> c).
      { cbn in Hdc. destruct Hdc as [<-|[<-|[]]]; lia. }
      assert (Hcap : forall promo,
                 (enemy (cell (board b) (r + fwd_of piece) (c + dc))
                        (if isupper piece then "w" else "b")
                  || negb (ep b =? "-")%string
                     && (r + fwd_of piece =? ep_row (ep b))
                     && (c + dc =? ep_col (ep b))) = true ->
                 san_is_cap b (r, c, r + fwd_of piece, c + dc, promo) = true).
      { intros promo Hc. unfold san_is_cap. fold piece. rewrite Ep.
        apply orb_true_iff in Hc. destruct Hc as [Hc|Hc].
        - rewrite (enemy_not_dot _ _ Hc). reflexivity.
        - apply andb_true_iff in Hc. destruct Hc as [Hc H3].
          apply andb_true_iff in Hc. destruct Hc as [H1 H2].
          rewrite H1, H2, H3. cbn. apply orb_true_r. }
      destruct (_ || _) eqn:Ec; [|contradiction].
      match type of H with
      | In _ (if ?cnd then _ else _) => destruct cnd
      end.
      + apply promos_mapped in H. destruct H as (pp & -> & Hpp).
        do 3 eexists. split; [reflexivity|]. unfold move_ok. fold piece.
        split; [exact V1|]. split; [exact Edot|]. left.
        split; [exact Ep|]. split; [exact Hpp|]. right. right. auto.
      + destruct H as [<-|[]].
        do 3 eexists. split; [reflexivity|]. unfold move_ok. fold piece.
        split; [exact V1|]. split; [exact Edot|]. left.
        split; [exact Ep|]. split; [exact I|]. right. right. auto. }
  destruct (lower piece =? "n")%char eqn:En.
  { apply Ascii.eqb_eq in En. apply jumps_ok in H.
    destruct H as (dr & dc & _ & -> & V).
    do 3 eexists. split; [reflexivity|]. unfold move_ok. fold piece.
    split; [exact V|]. split; [exact Edot|]. right. left. auto. }
  destruct (_ || _) eqn:Eb.
  { apply in_flat_map in H. destruct H as ([dr dc] & _ & H).
    apply slide_ok in H. destruct H as (tr & tc & -> & V).
    do 3 eexists. split; [reflexivity|]. unfold move_ok. fold piece.
    split; [exact V|]. split; [exact Edot|]. right. left. split; [reflexivity|].
    apply orb_true_iff in Eb. destruct Eb as [Eb|Eb].
    - apply orb_true_iff in Eb. destruct Eb as [Eb|Eb]; apply Ascii.eqb_eq in Eb; auto.
    - apply Ascii.eqb_eq in Eb. auto. }
  destruct (lower piece =? "k")%char eqn:Ek; [|contradiction].
  apply Ascii.eqb_eq in Ek.
  assert (Hhome : (if ((if isupper piece then "w" else "b") =? "w")%char then 7 else 0)
                  = home_row piece).
  { unfold home_row. destruct (isupper piece); reflexivity. }
  rewrite Hhome in H.
  apply in_app_or in H. destruct H as [H|H].
  - apply jumps_ok in H. destruct H as (dr & dc & Hd & -> & V).
    apply king_step in Hd.
    do 3 eexists. split; [reflexivity|]. unfold move_ok. fold piece.
    split; [exact V|]. split; [exact Edot|]. right. right.
    split; [reflexivity|]. split; [exact Ek|]. intros -> [E|E]; lia.
  - destruct (r =? home_row piece) eqn:Er; cbn [andb] in H; [|contradiction].
    destruct (c =? 4) eqn:Ec; cbn [andb] in H; [|contradiction].
    destruct (negb _); [|contradiction].
    apply Z.eqb_eq in Er, Ec. subst c.
    assert (Vh : forall tc, 0 <= tc < 8 -> valid (home_row piece) tc = true).
    { intros tc Htc. apply valid_range. unfold home_row. destruct (isupper piece); lia. }
    apply in_app_or in H.
    destruct H as [H|H]; (destruct (_ && _); [|contradiction]);
      destruct H as [<-|[]];
      do 3 eexists; (split; [reflexivity|]); unfold move_ok; fold piece;
      (split; [apply Vh; lia|]); (split; [exact Edot|]); right; right;
      (split; [reflexivity|]); (split; [exact Ek|]); intros _ _; auto.
Qed.

(** A legal move, unpacked: its squares are on the grid, it is one the
    generator builds, and its piece belongs to the side that moves. *)
Lemma legal_ok (b : t) (turn_arg : option ascii) (m : Move) :
  In m (legal_moves b turn_arg) ->
  exists fr fc tr tc promo,
    m = (fr, fc, tr, tc, promo) /\ valid fr fc = true /\ move_ok b m
    /\ isupper (cell (board b) fr fc) = (side_of b turn_arg =? "w")%char.
Proof.
  unfold legal_moves. fold (side_of b turn_arg). intros H.
  apply in_flat_map in H. destruct H as [[r c] [Hsq H]].
  destruct (cell (board b) r c =? ".")%char; [contradiction|].
  destruct (Bool.eqb (side_of b turn_arg =? "w")%char (isupper (cell (board b) r c))) eqn:Es;
    cbn [negb] in H; [|contradiction].
  apply filter_In in H. destruct H as [Hps _].
  assert (V : valid r c = true) by (apply valid_range, squares_range; exact Hsq).
  destruct (pseudo_ok b r c m V Hps) as (tr & tc & promo & -> & Hok).
  exists r, c, tr, tc, promo.
  split; [reflexivity|]. split; [exact V|]. split; [exact Hok|].
  symmetry. apply eqb_prop. exact Es.
Qed.

(** X8.  Every legal move, for either side, starts on a square of the
    grid that holds a piece of that side and ends on a square of the
    grid; a move that carries a promotion piece is a pawn move and the
    piece is one of q, r, b, n. *)
Theorem legal_moves_on_board (b : t) (turn_arg : option ascii) (m : Move) :
  In m (legal_moves b turn_arg) ->
  exists fr fc tr tc promo,
    m = (fr, fc, tr, tc, promo)
    /\ (0 <= fr < 8 /\ 0 <= fc < 8) /\ (0 <= tr < 8 /\ 0 <= tc < 8)
    /\ cell (board b) fr fc <> "."%char
    /\ isupper (cell (board b) fr fc) = (side_of b turn_arg =? "w")%char
    /\ (forall x, promo = Some x ->
                  lower (cell (board b) fr fc) = "p"%char /\ In x promos).
Proof.
  intros H. destruct (legal_ok b turn_arg m H) as (fr & fc & tr & tc & promo & -> & V & Hok & Hs).
  exists fr, fc, tr, tc, promo. unfold move_ok in Hok.
  destruct Hok as (Vt & Hne & Hk).
  split; [reflexivity|]. split; [apply valid_range; exact V|].
  split; [apply valid_range; exact Vt|]. split; [exact Hne|]. split; [exact Hs|].
  intros x ->. destruct Hk as [(Hp & Hx & _)|[(Hn & _)|(Hn & _)]]; [auto|discriminate..].
Qed.

Lemma legal_moves_on_board_witness :
  exists fr fc tr tc promo,
    (6, 4, 4, 4, None) = (fr, fc, tr, tc, promo)
    /\ (0 <= fr < 8 /\ 0 <= fc < 8) /\ (0 <= tr < 8 /\ 0 <= tc < 8)
    /\ cell (board init) fr fc <> "."%char
    /\ isupper (cell (board init) fr fc) = (side_of init None =? "w")%char
    /\ (forall x, promo = Some x ->
                  lower (cell (board init) fr fc) = "p"%char /\ In x promos).
Proof.
  apply (legal_moves_on_board init None (6, 4, 4, 4, None)).
  vm_compute. tauto.
Defined.

(** ** Tokens *)

Definition file_ok (c : Z) : bool :=
  (ord (chr (ord "a" + c)) - ord "a" =? c) && char_in (chr (ord "a" + c)) "abcdefgh"
  && negb (isdigit (chr (ord "a" + c))).

Lemma file_char (c : Z) :
  0 <= c < 8 ->
  ord (chr (ord "a" + c)) - ord "a" = c
  /\ char_in (chr (ord "a" + c)) "abcdefgh" = true
  /\ isdigit (chr (ord "a" + c)) = false.
Proof.
  intros H. assert (C : file_ok c = true) by (apply (range_check file_ok 0 8); [reflexivity|lia]).
  unfold file_ok in C. apply andb_true_iff in C. destruct C as [C C3].
  apply andb_true_iff in C. destruct C as [C1 C2].
  apply Z.eqb_eq in C1. apply negb_true_iff in C3. auto.
Qed.

Lemma rank_char (r : Z) :
  0 <= r < 8 ->
  exists d, str (8 - r) = str1 d /\ isdigit d = true /\ int_of_char d = 8 - r.
Proof.
  intros H. destruct (str_run (8 - r)) as (d & E & Hd & Hi & _); [lia|]. eauto.
Qed.

Definition promo_text (promo : option ascii) : string :=
  match promo with Some pr => str1 pr | None => ""%string end.

(** The characters of the token of a move between squares of the grid. *)
Lemma uci_of_chars (fr fc tr tc : Z) (promo : option ascii) :
  valid fr fc = true -> valid tr tc = true ->
  exists d1 d2,
    uci_of (fr, fc, tr, tc, promo)
    = String (chr (ord "a" + fc)) (String d1 (String (chr (ord "a" + tc))
                                                 (String d2 (promo_text promo))))
    /\ isdigit d1 = true /\ int_of_char d1 = 8 - fr
    /\ isdigit d2 = true /\ int_of_char d2 = 8 - tr.
Proof.
  intros V1 V2. apply valid_range in V1, V2.
  destruct (rank_char fr) as (d1 & E1 & D1 & I1); [lia|].
  destruct (rank_char tr) as (d2 & E2 & D2 & I2); [lia|].
  exists d1, d2. unfold uci_of, square_name. rewrite E1, E2.
  split; [reflexivity|auto].
Qed.

Lemma promo_lower (x : ascii) : In x promos -> lower x = x.
Proof. intros H. cbn in H. repeat (destruct H as [<-|H]; [reflexivity|]). contradiction. Qed.

Lemma parse_uci_of (fr fc tr tc : Z) (promo : option ascii) :
  valid fr fc = true -> valid tr tc = true ->
  match promo with None => True | Some x => In x promos end ->
  parse_uci (uci_of (fr, fc, tr, tc, promo)) = Some (fr, fc, tr, tc, promo).
Proof.
  intros V1 V2 Hp.
  destruct (uci_of_chars fr fc tr tc promo V1 V2) as (d1 & d2 & -> & D1 & I1 & D2 & I2).
  apply valid_range in V1, V2.
  destruct (file_char fc) as (F1 & _); [lia|]. destruct (file_char tc) as (F2 & _); [lia|].
  unfold parse_uci.
  destruct promo as [x|]; cbn [promo_text str1 String.length Nat.ltb Nat.leb at_ String.get];
    rewrite D1, D2; cbn [andb negb]; rewrite I1, I2, F1, F2;
    replace (8 - (8 - fr)) with fr by lia; replace (8 - (8 - tr)) with tr by lia.
  - rewrite (promo_lower x Hp). reflexivity.
  - reflexivity.
Qed.

Lemma legal_parse (b : t) (m : Move) :
  In m (legal_moves b None) -> parse_uci (uci_of m) = Some m.
Proof.
  intros H. destruct (legal_ok b None m H) as (fr & fc & tr & tc & promo & -> & V & Hok & _).
  destruct Hok as (Vt & _ & Hk). apply parse_uci_of; trivial.
  destruct promo as [x|]; [|exact I].
  destruct Hk as [(_ & Hx & _)|[(Hn & _)|(Hn & _)]]; [exact Hx|discriminate..].
Qed.

Lemma legal_accepted (b : t) (m : Move) :
  In m (legal_moves b None) -> accepted_move b (uci_of m) = Some m.
Proof.
  intros H. unfold accepted_move. rewrite (legal_parse b m H).
  destruct m as [[[[fr fc] tr] tc] promo].
  rewrite (In_move_in _ _ H). reflexivity.
Qed.

(** X9.  The token [_san_to_uci] writes for a legal move is read back
    by [apply_uci] as that very move: the call succeeds and leaves the
    grid, side to move, castling and en-passant fields and counters that
    [_apply_raw] computes for the move. *)
Theorem uci_round_trip (b : t) (m : Move) :
  In m (legal_moves b None) ->
  exists san cap b',
    apply_uci b (uci_of m) = (Returned san cap, b')
    /\ board b' = board (apply_raw b m) /\ turn b' = turn (apply_raw b m)
    /\ castling b' = castling (apply_raw b m) /\ ep b' = ep (apply_raw b m)
    /\ halfmove b' = halfmove (apply_raw b m)
    /\ fullmove b' = fullmove (apply_raw b m).
Proof.
  intros H. destruct (apply_uci_accepted _ _ _ (legal_accepted b m H)) as [_ Happ].
  destruct (apply_checked_fields b (uci_of m) m (legal_moves b None))
    as (san & cap & b' & Hc & Hb & Ht & Hcs & He & Hh & Hf & _).
  exists san, cap, b'. rewrite Happ. tauto.
Qed.

Lemma uci_round_trip_witness :
  exists san cap b',
    apply_uci init (uci_of (7, 6, 5, 5, None)) = (Returned san cap, b')
    /\ board b' = board (apply_raw init (7, 6, 5, 5, None))
    /\ turn b' = turn (apply_raw init (7, 6, 5, 5, None))
    /\ castling b' = castling (apply_raw init (7, 6, 5, 5, None))
    /\ ep b' = ep (apply_raw init (7, 6, 5, 5, None))
    /\ halfmove b' = halfmove (apply_raw init (7, 6, 5, 5, None))
    /\ fullmove b' = fullmove (apply_raw init (7, 6, 5, 5, None)).
Proof.
  apply (uci_round_trip init (7, 6, 5, 5, None)).
  vm_compute. tauto.
Defined.

(** X10.  The token written for a legal move passes [_looks_like_uci]. *)
Theorem legal_token_looks_like_uci (b : t) (m : Move) :
  In m (legal_moves b None) -> looks_like_uci (uci_of m) = true.
Proof.
  intros H. destruct (legal_ok b None m H) as (fr & fc & tr & tc & promo & -> & V & Hok & _).
  destruct Hok as (Vt & _ & _).
  destruct (uci_of_chars fr fc tr tc promo V Vt) as (d1 & d2 & -> & D1 & _ & D2 & _).
  apply valid_range in V, Vt.
  destruct (file_char fc) as (_ & F1 & _); [lia|]. destruct (file_char tc) as (_ & F2 & _); [lia|].
  unfold looks_like_uci.
  destruct promo as [x|]; cbn [promo_text str1 String.length Nat.eqb orb negb at_ String.get];
    rewrite F1, F2, D1, D2; reflexivity.
Qed.

Lemma legal_token_looks_like_uci_witness :
  looks_like_uci (uci_of (7, 6, 5, 5, None)) = true.
Proof.
  apply (legal_token_looks_like_uci init (7, 6, 5, 5, None)).
  vm_compute. tauto.
Defined.

(** ** SAN texts are no tokens *)

Definition is_file (c : ascii) : bool := char_in c "abcdefgh".

Lemma all_ascii (f : ascii -> bool) :
  forallb f (List.map ascii_of_nat (seq 0 256)) = true -> forall c, f c = true.
Proof.
  intros H c. rewrite forallb_forall in H. apply H.
  apply in_map_iff. exists (nat_of_ascii c). split; [apply ascii_nat_embedding|].
  apply in_seq. pose proof (nat_ascii_bounded c). lia.
Qed.

Lemma capital_no_file (c : ascii) : is_file (upper (lower c)) = false.
Proof.
  apply negb_true_iff.
  apply (all_ascii (fun c => negb (is_file (upper (lower c))))). vm_compute. reflexivity.
Qed.

Lemma digit_no_file (c : ascii) : isdigit c = true -> is_file c = false.
Proof.
  intros H.
  assert (G : (negb (isdigit c) || negb (is_file c)) = true).
  { apply (all_ascii (fun c => negb (isdigit c) || negb (is_file c))). vm_compute. reflexivity. }
  rewrite H in G. cbn in G. apply negb_true_iff. exact G.
Qed.

Lemma looks_like_uci_first (s : string) :
  is_file (at_ s 0) = false -> looks_like_uci s = false.
Proof.
  unfold looks_like_uci, is_file. intros ->. destruct (negb _); reflexivity.
Qed.

Lemma looks_like_uci_second (s : string) :
  isdigit (at_ s 1) = false -> looks_like_uci s = false.
Proof.
  unfold looks_like_uci. intros ->. destruct (negb _); [reflexivity|].
  rewrite andb_false_r. reflexivity.
Qed.

Lemma looks_like_uci_third (s : string) :
  is_file (at_ s 2) = false -> looks_like_uci s = false.
Proof.
  unfold looks_like_uci, is_file. intros ->. destruct (negb _); [reflexivity|].
  rewrite andb_false_r. reflexivity.
Qed.

(** The third character of a file letter followed by a number and a
    promotion suffix is never a file letter. *)
Lemma square_then_suffix (f : ascii) (z : Z) (promo : option ascii) :
  is_file (at_ (String f (str z ++ promo_suffix promo)) 2) = false.
Proof.
  destruct (str_chars (fun c => is_file c = false) z digit_no_file eq_refl) as [Hc Hn].
  destruct (str z) as [|c1 [|c2 rest]]; [congruence| |].
  - destruct promo; reflexivity.
  - unfold chars in Hc. cbn [list_ascii_of_string] in Hc.
    inversion Hc as [|? ? _ Hc']; subst. inversion Hc' as [|? ? H2 _]; subst. exact H2.
Qed.

(** X11.  No SAN text built by [_build_san] looks like a UCI token, for
    any position, move and legal-move list: [_tokens_to_uci] never takes
    a SAN text of the engine for a token. *)
Theorem san_never_looks_like_uci (b : t) (m : Move) (legal : list Move) :
  looks_like_uci (build_san b m legal) = false.
Proof.
  destruct m as [[[[fr fc] tr] tc] promo]. unfold build_san. cbv zeta.
  destruct (_ && _); [reflexivity|].
  destruct (_ && _); [reflexivity|].
  destruct (lower (cell (board b) fr fc) =? "p")%char.
  - destruct (_ || _).
    + apply looks_like_uci_second. reflexivity.
    + apply looks_like_uci_third. apply square_then_suffix.
  - apply looks_like_uci_first. apply capital_no_file.
Qed.

(** ** Promotion *)




Lemma legal_from_pseudo (b : t) (fr fc tr tc : Z) (promo : option ascii) :
  In (fr, fc, tr, tc, promo) (legal_moves b None) ->
  In (fr, fc, tr, tc, promo) (pseudo b fr fc).
Proof.
  intros H. apply legal_moves_filtered in H. destruct H as (r & c & _ & Hps & _).
  pose proof (pseudo_from _ _ _ _ Hps) as (tr' & tc' & promo' & E & _).
  injection E as <- <- _ _ _. exact Hps.
Qed.


(** A pawn about to promote: White's pawn on h7, the kings on a8 and a1. *)
Definition before_promotion : t := load_fen init "k7/7P/8/8/8/8/8/K7 w - - 0 1".


Lemma promotion_example :
  uci_of (1, 7, 0, 7, None) = "h7h8"%string
  /\ cell (board (snd (apply_uci before_promotion "h7h8"))) 0 7 = "Q"%char
  /\ fst (apply_uci before_promotion "h7h8") = Returned "h8=Q+" None.
Proof. vm_compute. auto. Qed.

(** ** SAN look-up and token conversion *)

(** X13.  What [_san_to_uci] returns is the token of a legal move whose
    SAN text matches the request (as given, or after dropping +, # and
    x on both sides), and [apply_uci] accepts that token as that move;
    it returns [None] only when no legal move matches. *)
Theorem san_to_uci_spec (b : t) (san : string) :
  match san_to_uci b san with
  | Some u =>
      exists m, In m (legal_moves b None) /\ u = uci_of m
                /\ (clean (build_san b m (legal_moves b None)) = clean san
                    \/ build_san b m (legal_moves b None) = san)
                /\ accepted_move b u = Some m
  | None =>
      forall m, In m (legal_moves b None) ->
                clean (build_san b m (legal_moves b None)) <> clean san
                /\ build_san b m (legal_moves b None) <> san
  end.
Proof.
  unfold san_to_uci. cbv zeta.
  destruct (List.find _ _) as [m|] eqn:F; cbn [option_map].
  - apply find_some in F. destruct F as [Hin Hm]. exists m.
    split; [exact Hin|]. split; [reflexivity|]. split.
    + apply orb_true_iff in Hm. destruct Hm as [Hm|Hm]; apply String.eqb_eq in Hm; auto.
    + apply legal_accepted. exact Hin.
  - intros m Hin. pose proof (find_none _ _ F m Hin) as Hm. cbv beta in Hm.
    apply orb_false_iff in Hm. destruct Hm as [H1 H2].
    apply String.eqb_neq in H1, H2. auto.
Qed.

Lemma apply_uci_raised (b b' : t) (uci msg : string) :
  apply_uci b uci = (Raised msg, b') -> b' = b.
Proof.
  intros H. destruct (accepted_move b uci) as [m|] eqn:A.
  - destruct (apply_uci_accepted _ _ _ A) as [_ Happ].
    destruct (apply_checked_fields b uci m (legal_moves b None))
      as (san' & cap' & b'' & Hc & _). congruence.
  - apply apply_uci_rejected in A. destruct A as [msg' A]. congruence.
Qed.

Lemma legal_token_applies (b : t) (m : Move) :
  In m (legal_moves b None) ->
  exists san cap b', apply_uci b (uci_of m) = (Returned san cap, b').
Proof.
  intros H. destruct (apply_uci_accepted _ _ _ (legal_accepted b m H)) as [_ Happ].
  destruct (apply_checked_fields b (uci_of m) m (legal_moves b None))
    as (san & cap & b' & Hc & _).
  exists san, cap, b'. congruence.
Qed.

Lemma play_snoc (l : list string) :
  forall (b0 b b' : t) (u san : string) (cap : option ascii),
    play b0 l = Some b -> apply_uci b u = (Returned san cap, b') ->
    play b0 (l ++ [u]) = Some b'.
Proof.
  induction l as [|x l IH]; intros b0 b b' u san cap H E; cbn [play app] in *.
  - injection H as <-. rewrite E. reflexivity.
  - destruct (apply_uci b0 x) as [[msg|s c] b1]; [discriminate|]. eauto.
Qed.

(** How the conversion of a list of tokens ends: with a list that
    replays from the starting position, or with [None]; never with an
    exception. *)
Definition replayable (c : conversion) : Prop :=
  match c with
  | Converted l => exists b, play init l = Some b
  | NoMatch => True
  | Failed _ => False
  end.

Lemma tokens_to_uci_go_replayable (tokens : list string) :
  forall (b : t) (acc : list string),
    play init acc = Some b -> replayable (tokens_to_uci_go b acc tokens).
Proof.
  induction tokens as [|tok0 rest IH]; intros b acc H; cbn [tokens_to_uci_go].
  - exists b. exact H.
  - destruct (strip tok0 =? "")%string; [exact (IH b acc H)|].
    assert (S : forall b1, b1 = b ->
                replayable
                  match san_to_uci b1 (strip tok0) with
                  | Some uci =>
                      match apply_uci b1 uci with
                      | (Raised msg, _) => Failed msg
                      | (Returned _ _, b') => tokens_to_uci_go b' (acc ++ [uci]) rest
                      end
                  | None => NoMatch
                  end).
    { intros b1 ->. pose proof (san_to_uci_spec b (strip tok0)) as Hs.
      destruct (san_to_uci b (strip tok0)) as [u|]; [|exact I].
      destruct Hs as (m & Hin & -> & _ & _).
      destruct (legal_token_applies b m Hin) as (san & cap & b' & E). rewrite E.
      exact (IH b' _ (play_snoc _ _ _ _ _ _ _ H E)). }
    destruct (looks_like_uci (strip tok0)); [|exact (S b eq_refl)].
    destruct (apply_uci b (strip tok0)) as [[msg|san cap] b'] eqn:E.
    + exact (S b' (apply_uci_raised _ _ _ _ E)).
    + exact (IH b' _ (play_snoc _ _ _ _ _ _ _ H E)).
Qed.

(** X14.  [_tokens_to_uci] never raises, and the list it returns is a
    game: every entry is accepted by [apply_uci] in turn, from the
    starting position. *)
Theorem tokens_to_uci_replayable (tokens : list string) :
  match tokens_to_uci tokens with
  | Converted l => exists b, play init l = Some b
  | NoMatch => True
  | Failed _ => False
  end.
Proof. exact (tokens_to_uci_go_replayable tokens init [] eq_refl). Qed.

(** Tokens free of white space pass [strip] unchanged. *)
Lemma lstrip_free (s : string) : free_of isspace s -> lstrip s = s.
Proof.
  destruct s as [|c s]; [reflexivity|]. unfold free_of, chars. cbn [list_ascii_of_string].
  intros H. inversion H as [|? ? Hc _]; subst. cbn [lstrip]. rewrite Hc. reflexivity.
Qed.

Lemma rev_string_free (s : string) : free_of isspace s -> free_of isspace (rev_string s).
Proof.
  unfold free_of, rev_string. rewrite chars_of_list. intros H.
  apply List.Forall_rev. exact H.
Qed.

Lemma rev_string_involutive (s : string) : rev_string (rev_string s) = s.
Proof.
  unfold rev_string. rewrite list_ascii_of_string_of_list_ascii, rev_involutive.
  apply string_of_list_ascii_of_string.
Qed.

Lemma strip_free (s : string) : free_of isspace s -> strip s = s.
Proof.
  intros H. unfold strip. rewrite (lstrip_free s H).
  rewrite (lstrip_free _ (rev_string_free s H)). apply rev_string_involutive.
Qed.

Lemma looks_like_uci_not_empty (s : string) :
  looks_like_uci s = true -> (s =? "")%string = false.
Proof. destruct s; [discriminate|reflexivity]. Qed.

(** X15.  A game written in UCI tokens passes [_tokens_to_uci]
    unchanged: when every token looks like a UCI move, holds no white
    space, and the sequence replays from the starting position, the
    list returned is the list given. *)
Theorem tokens_to_uci_keeps_uci (ucis : list string) (b : t) :
  play init ucis = Some b ->
  Forall (fun u => looks_like_uci u = true /\ free_of isspace u) ucis ->
  tokens_to_uci ucis = Converted ucis.
Proof.
  assert (G : forall us b0 bn acc,
             play b0 us = Some bn ->
             Forall (fun u => looks_like_uci u = true /\ free_of isspace u) us ->
             tokens_to_uci_go b0 acc us = Converted (acc ++ us)).
  { induction us as [|u us IH]; intros b0 bn acc H F; cbn [tokens_to_uci_go play] in *.
    - rewrite app_nil_r. reflexivity.
    - inversion F as [|? ? [Hl Hf] F']; subst.
      rewrite (strip_free u Hf), (looks_like_uci_not_empty u Hl), Hl.
      destruct (apply_uci b0 u) as [[msg|san cap] b1]; [discriminate|].
      rewrite (IH b1 bn _ H F'), <- app_assoc. reflexivity. }
  intros H F. exact (G ucis init b [] H F).
Qed.

Lemma tokens_to_uci_keeps_uci_witness :
  tokens_to_uci ["e2e4"; "e7e5"; "g1f3"]%string = Converted ["e2e4"; "e7e5"; "g1f3"]%string.
Proof.
  apply (tokens_to_uci_keeps_uci ["e2e4"; "e7e5"; "g1f3"]%string
           (position_after ["e2e4"; "e7e5"; "g1f3"]%string)).
  - vm_compute. reflexivity.
  - repeat constructor.
Defined.

(** A line in SAN and a line that mixes both notations. *)
Lemma tokens_to_uci_examples :
  tokens_to_uci ["e4"; "e5"; "Nf3"; "Nc6"; "Bb5"]%string
  = Converted ["e2e4"; "e7e5"; "g1f3"; "b8c6"; "f1b5"]%string
  /\ tokens_to_uci ["e2e4"; "e5"; "Nf3"]%string
     = Converted ["e2e4"; "e7e5"; "g1f3"]%string
  /\ tokens_to_uci ["e4"; "e4"]%string = NoMatch.
Proof. vm_compute. auto. Qed.

(** ** The opening book *)








End MoveFacts.

(** * Further properties of the ratings *)

Module RatingFacts.
Import Floats Elo EloFacts.
Local Open Scope float_scope.

Section Tables.
Variable normalize : string -> string.
Variable pow10 : float -> float.
Variables k start_elo : float.

Abbreviation play_game := (update normalize pow10 k start_elo).
Abbreviation after := (process_games normalize pow10 k start_elo).

(** The engines of the table after one more game. *)
Lemma update_domain (m m' : gmap string float) (g : GameRow) (j : string) :
  play_game m g = Some m' ->
  is_Some (m' !! j)
  <-> is_Some (m !! j) \/ j = white_key normalize g \/ j = black_key normalize g.
Proof.
  intros H. destruct (update_players normalize pow10 k start_elo m m' g H) as [Pw Pb].
  destruct (decide (j = white_key normalize g)) as [->|Hw]; [tauto|].
  destruct (decide (j = black_key normalize g)) as [->|Hb]; [tauto|].
  rewrite (update_others normalize pow10 k start_elo m m' g j H Hw Hb). tauto.
Qed.

Lemma run_domain (games : list GameRow) (j : string) :
  forall m m' : gmap string float,
    after m games = Some m' ->
    is_Some (m' !! j)
    <-> is_Some (m !! j)
        \/ exists g, In g games
                     /\ (j = white_key normalize g \/ j = black_key normalize g).
Proof.
  induction games as [|g games IH]; intros m m' H; cbn [process_games] in H.
  - injection H as <-. split; [auto|]. intros [H|(g & [] & _)]. exact H.
  - destruct (play_game m g) as [m1|] eqn:E; cbn in H; [|discriminate].
    rewrite (IH m1 m' H), (update_domain m m1 g j E). split.
    + intros [[H1|H1]|(g' & Hin & H1)]; [auto|right; exists g; cbn; auto|].
      right. exists g'. cbn. auto.
    + intros [H1|(g' & [<-|Hin] & H1)]; [auto|auto|]. right. exists g'. auto.
Qed.

(** The rounded table has the keys of the table it rounds. *)
Lemma round_all_lookup (m : gmap string float) (d : gmap string Z) (j : string) :
  round_all m = Some d -> d !! j = m !! j ≫= py_round.
Proof.
  unfold round_all. case_decide; [|discriminate]. intros [= <-]. apply lookup_omap.
Qed.

Lemma round_all_domain (m : gmap string float) (d : gmap string Z) (j : string) :
  round_all m = Some d -> is_Some (d !! j) <-> is_Some (m !! j).
Proof.
  intros H. rewrite (round_all_lookup m d j H).
  unfold round_all in H. case_decide as Hall; [|discriminate].
  destruct (m !! j) as [v|] eqn:E; cbn.
  - split; [eauto|]. intros _. exact (Hall j v E).
  - split; intros [x Hx]; discriminate.
Qed.

(** X19.  When [compute_elo_ratings] returns, it rates exactly the
    engines that occur in the games, under their normalised names: every
    engine of every game, scored or not, has an entry, and no other name
    has one. *)
Theorem rated_engines (games : list GameRow) (d : gmap string Z) (j : string) :
  compute_elo_ratings normalize pow10 k start_elo games = Some d ->
  is_Some (d !! j)
  <-> exists g, In g games /\ (j = white_key normalize g \/ j = black_key normalize g).
Proof.
  unfold compute_elo_ratings, unrounded_ratings. intros H.
  destruct (after ∅ games) as [m|] eqn:E; cbn in H; [|discriminate].
  rewrite (round_all_domain m d j H), (run_domain games j ∅ m E), lookup_empty. split.
  - intros [[x Hx]|Hg]; [discriminate|exact Hg].
  - auto.
Qed.

(** ** The rating history of one engine *)

(** The games that enter the history of the engine named [e]: scored
    games with [e] on either side. *)
Definition counted (e : string) (g : GameRow) : bool :=
  match scores (snd g) with
  | Some _ => (normalize (fst (fst g)) =? e)%string || (normalize (snd (fst g)) =? e)%string
  | None => false
  end.

(** One turn of the loop of [compute_elo_history] is one turn of the loop
    of [compute_elo_ratings], and one more entry when the game counts. *)
Lemma history_step_spec (e : string) (m : gmap string float) (h : list (Z * Z))
    (g : GameRow) :
  history_step normalize pow10 k start_elo e (m, h) g
  = (m' ← play_game m g;
     if counted e g
     then elo ← py_round (rating start_elo m' (normalize e));
          Some (m', h ++ [((Z.of_nat (List.length h) + 1)%Z, elo)])
     else Some (m', h)).
Proof.
  destruct g as [[white black] result]. unfold history_step, counted, update. cbn [fst snd].
  destruct (get_r normalize start_elo m (normalize white)) as [rw m1].
  destruct (get_r normalize start_elo m1 (normalize black)) as [rb m2].
  destruct (expected _ _ _) as [ew|]; cbn; [|reflexivity].
  destruct (scores result) as [[sw sb]|]; [|reflexivity].
  destruct (_ || _) eqn:Ec; [|reflexivity].
  set (m3 := set_r normalize _ _ _).
  assert (P : is_Some (m3 !! normalize e)).
  { unfold m3, set_r. rewrite !lookup_insert_is_Some'.
    apply orb_true_iff in Ec. destruct Ec as [Ec|Ec]; apply String.eqb_eq in Ec;
      rewrite Ec; auto. }
  destruct P as [v Hv]. unfold get_r, rating. cbn. rewrite Hv. reflexivity.
Qed.

(** The table of [compute_elo_history] is the table of
    [compute_elo_ratings]. *)
Lemma history_fold (e : string) (games : list GameRow) :
  forall (m m' : gmap string float) (h h' : list (Z * Z)),
    run_history normalize pow10 k start_elo e (m, h) games = Some (m', h') ->
    after m games = Some m'.
Proof.
  induction games as [|g games IH]; intros m m' h h' H; cbn [run_history process_games] in *.
  - injection H as <- _. reflexivity.
  - rewrite history_step_spec in H.
    destruct (play_game m g) as [m1|]; cbn in H |- *; [|discriminate].
    destruct (counted e g); [destruct (py_round _); cbn in H; [|discriminate]|];
      exact (IH _ _ _ _ H).
Qed.

(** X20.  When [compute_elo_history] returns, the history of the engine
    numbers its games 1, 2, 3, ... and has one entry for every scored
    game with the engine on either side (by normalised name), none for
    other games. *)
Theorem history_numbering (games : list GameRow) (engine_name : string)
    (h : list (Z * Z)) :
  compute_elo_history normalize pow10 k start_elo games engine_name = Some h ->
  List.map fst h = List.map Z.of_nat (seq 1 (List.length h))
  /\ List.length h = List.length (List.filter (counted (normalize engine_name)) games).
Proof.
  unfold compute_elo_history. set (e := normalize engine_name).
  assert (G : forall gs m h0 m' h',
             List.map fst h0 = List.map Z.of_nat (seq 1 (List.length h0)) ->
             run_history normalize pow10 k start_elo e (m, h0) gs = Some (m', h') ->
             List.map fst h' = List.map Z.of_nat (seq 1 (List.length h'))
             /\ List.length h'
                = (List.length h0 + List.length (List.filter (counted e) gs))%nat).
  { induction gs as [|g gs IH]; intros m h0 m' h' Hh H; cbn [run_history List.filter] in *.
    - injection H as _ <-. cbn [List.length]. split; [exact Hh|lia].
    - rewrite history_step_spec in H.
      destruct (play_game m g) as [m1|]; cbn in H; [|discriminate].
      destruct (counted e g).
      + destruct (py_round _) as [elo|]; cbn in H; [|discriminate].
        assert (Hh' : List.map fst (h0 ++ [((Z.of_nat (List.length h0) + 1)%Z, elo)])
                      = List.map Z.of_nat
                          (seq 1 (List.length
                                    (h0 ++ [((Z.of_nat (List.length h0) + 1)%Z, elo)])))).
        { rewrite length_app, Nat.add_1_r, seq_S, !map_app, Hh.
          cbn [List.length List.map fst]. f_equal. f_equal. f_equal. lia. }
        destruct (IH _ _ _ _ Hh' H) as [I1 I2].
        split; [exact I1|]. rewrite I2, length_app. cbn [List.length]. lia.
      + exact (IH _ _ _ _ Hh H). }
  intros H.
  destruct (run_history _ _ _ _ _ _ _) as [[m' h']|] eqn:E; cbn in H; [|discriminate].
  injection H as <-. exact (G games ∅ [] m' h' eq_refl E).
Qed.

(** Comparing the names the loop compares is comparing the keys of the
    table, for the games of the list and the engine [e]. *)
Definition names_agree (e : string) (games : list GameRow) : Prop :=
  Forall (fun g => (white_key normalize g = normalize e -> normalize (fst (fst g)) = e)
                   /\ (black_key normalize g = normalize e -> normalize (snd (fst g)) = e))
         games.

(** X21.  When both functions return, the last entry of an engine's
    history is its final rating: what [compute_elo_ratings] reports for
    the engine, provided no game names the engine in a way that only the
    second normalisation identifies. *)
Theorem history_ends_at_rating (games : list GameRow) (engine_name : string)
    (h : list (Z * Z)) (d : gmap string Z) :
  names_agree (normalize engine_name) games ->
  compute_elo_history normalize pow10 k start_elo games engine_name = Some h ->
  compute_elo_ratings normalize pow10 k start_elo games = Some d ->
  match last h with
  | Some (n, elo) => d !! normalize (normalize engine_name) = Some elo
  | None => True
  end.
Proof.
  unfold compute_elo_history, compute_elo_ratings, unrounded_ratings.
  set (e := normalize engine_name). intros Hn Hh Hd.
  destruct (run_history _ _ _ _ _ _ _) as [[m' h']|] eqn:E; cbn in Hh; [|discriminate].
  injection Hh as <-.
  rewrite (history_fold e games ∅ m' [] h' E) in Hd. cbn in Hd.
  destruct (last h') as [[n elo]|] eqn:Hl; [|exact I].
  assert (G : forall gs m h0 m1 h1,
             names_agree e gs ->
             (forall n elo, last h0 = Some (n, elo) ->
                            exists r, m !! normalize e = Some r /\ py_round r = Some elo) ->
             run_history normalize pow10 k start_elo e (m, h0) gs = Some (m1, h1) ->
             forall n elo,
               last h1 = Some (n, elo) ->
               exists r, m1 !! normalize e = Some r /\ py_round r = Some elo).
  { induction gs as [|g gs IH]; intros m h0 m1 h1 Hg Hh H n' elo' Hl';
      cbn [run_history] in H.
    - injection H as <- <-. exact (Hh n' elo' Hl').
    - inversion Hg as [|? ? [Hw Hb] Hg']; subst.
      rewrite history_step_spec in H.
      destruct (play_game m g) as [m2|] eqn:Eg; cbn in H; [|discriminate].
      destruct (counted e g) eqn:Ec.
      + destruct (py_round _) as [elo2|] eqn:Er; cbn in H; [|discriminate].
        refine (IH _ _ _ _ Hg' _ H n' elo' Hl').
        intros n3 elo3. rewrite last_snoc. intros [= _ <-].
        unfold counted in Ec. destruct (scores (snd g)) as [[sw sb]|] eqn:Es; [|discriminate].
        assert (P : is_Some (m2 !! normalize e)).
        { apply (update_domain m m2 g _ Eg). right.
          apply orb_true_iff in Ec. destruct Ec as [Ec|Ec]; apply String.eqb_eq in Ec;
            unfold white_key, black_key; rewrite Ec; auto. }
        destruct P as [r Hr]. exists r. split; [exact Hr|].
        unfold rating in Er. rewrite Hr in Er. exact Er.
      + refine (IH _ _ _ _ Hg' _ H n' elo' Hl').
        intros n3 elo3 H3. destruct (Hh n3 elo3 H3) as (r & Hr & Hp).
        exists r. split; [|exact Hp]. unfold counted in Ec.
        destruct (scores (snd g)) as [[sw sb]|] eqn:Es.
        * apply orb_false_iff in Ec. destruct Ec as [E1 E2].
          apply String.eqb_neq in E1, E2.
          rewrite (update_others normalize pow10 k start_elo m m2 g _ Eg);
            [exact Hr| |]; intros E'; symmetry in E'; auto.
        * destruct (update_unscored normalize pow10 k start_elo m m2 g Eg Es)
            as (_ & Hk & _). auto. }
  destruct (G games ∅ [] m' h' Hn ltac:(discriminate) E n elo Hl) as (r & Hr & Hp).
  rewrite (round_all_lookup m' d _ Hd), Hr. exact Hp.
Qed.

End Tables.

(** Three sample games, and the history of the first engine. *)
Definition alpha_wins : GameRow := ("Alpha (White)", "Beta", "1-0")%string.
Definition alpha_draws : GameRow := ("Gamma", "Alpha (Black)", "1/2-1/2")%string.
Definition no_result : GameRow := ("Delta", "Beta", "*")%string.

Definition alpha_history : list (Z * Z) := [(1, 1516); (2, 1515)]%Z.

Definition sample_ratings : gmap string Z :=
  list_to_map [("Alpha", 1515%Z); ("Beta", 1484%Z); ("Gamma", 1501%Z); ("Delta", 1500%Z)]%string.

Lemma sample_ratings_computed :
  compute_elo_ratings normalize_engine_name exp10 32 1500 [alpha_wins; alpha_draws; no_result]
  = Some sample_ratings.
Proof. vm_compute. reflexivity. Qed.

Lemma rated_engines_witness :
  is_Some (sample_ratings !! "Delta"%string)
  <-> exists g, In g [alpha_wins; alpha_draws; no_result]
                /\ ("Delta"%string = white_key normalize_engine_name g
                    \/ "Delta"%string = black_key normalize_engine_name g).
Proof.
  apply (rated_engines normalize_engine_name exp10 32 1500
           [alpha_wins; alpha_draws; no_result] sample_ratings "Delta").
  vm_compute. reflexivity.
Defined.

Lemma history_numbering_witness :
  List.map fst alpha_history
  = List.map Z.of_nat (seq 1 (List.length alpha_history))
  /\ List.length alpha_history
     = List.length (List.filter (counted normalize_engine_name
                                   (normalize_engine_name "Alpha (White)"))
                      [alpha_wins; alpha_draws; no_result]).
Proof.
  apply (history_numbering normalize_engine_name exp10 32 1500
           [alpha_wins; alpha_draws; no_result] "Alpha (White)" alpha_history).
  vm_compute. reflexivity.
Defined.

Lemma history_ends_at_rating_witness :
  match last alpha_history with
  | Some (n, elo) =>
      sample_ratings !! normalize_engine_name (normalize_engine_name "Alpha (White)")
      = Some elo
  | None => True
  end.
Proof.
  apply (history_ends_at_rating normalize_engine_name exp10 32 1500
           [alpha_wins; alpha_draws; no_result] "Alpha (White)" alpha_history
           sample_ratings).
  - repeat constructor; unfold white_key, black_key;
      cbn [fst snd alpha_wins alpha_draws no_result];
      intros H; vm_compute in H |- *; congruence.
  - vm_compute. reflexivity.
  - vm_compute. reflexivity.
Defined.

End RatingFacts.

(** * Further properties of the pairing algorithms *)

Module ScheduleFacts.
Import Pairing PairingFacts OrderFacts.

Section SwissMore.
Context {A : Type} (view : A -> Player) (coin : nat -> bool).

Lemma odd_Z (n : nat) : Nat.odd n = true -> (Z.of_nat n mod 2 =? 1) = true.
Proof.
  intros H. apply Nat.odd_spec in H. destruct H as [k ->].
  apply Z.eqb_eq. rewrite Nat2Z.inj_add, Nat2Z.inj_mul, Z.add_comm, Z.mul_comm.
  rewrite Z.mod_add by lia. reflexivity.
Qed.

(** [last_without_bye] finds the last player of the list who has had no
    bye, if there is one. *)
Lemma last_without_bye_spec (l : list A) :
  forall i : nat,
    match last_without_bye view l i with
    | Some j => exists p, (i <= j)%nat /\ l !! (j - i)%nat = Some p /\ had_bye view p = false
    | None => Forall (fun p => had_bye view p = true) l
    end.
Proof.
  induction l as [|p l IH]; intros i; cbn [last_without_bye]; [constructor|].
  specialize (IH (S i)). destruct (last_without_bye view l (S i)) as [j|].
  - destruct IH as (q & Hj & Hq & Hb). exists q. split; [lia|]. split; [|exact Hb].
    replace (j - i)%nat with (S (j - S i)) by lia. exact Hq.
  - destruct (had_bye view p) eqn:E.
    + constructor; assumption.
    + exists p. split; [lia|]. rewrite Nat.sub_diag. auto.
Qed.

Lemma pairings_length (ps : list (A * A)) :
  List.length (paired_players ps) = (2 * List.length ps)%nat.
Proof.
  unfold paired_players. induction ps as [|[w b] ps IH]; cbn [flat_map List.length app]; lia.
Qed.

(** X22.  For a roster of odd size [pair] returns with exactly one bye:
    pairings and bye player together hold every player of the roster
    exactly as often as the roster does, and the bye goes to a player
    who has had one before only when every player has had one. *)
Theorem swiss_pair_odd (players : list A) (round_num : Z)
    (played_pairs : gset (gset string)) (n : nat) :
  Nat.odd (List.length players) = true ->
  exists pairings bye n',
    pair view coin players round_num played_pairs n = Ret (pairings, Some bye, n')
    /\ Permutation (bye :: paired_players pairings) players
    /\ (2 * List.length pairings + 1 = List.length players)%nat
    /\ (had_bye view bye = true -> Forall (fun p => had_bye view p = true) players).
Proof.
  intros Hodd. unfold pair.
  set (le := fun a b => key_le (swiss_key view a) (swiss_key view b)).
  pose proof (sort_by_perm le players) as Hs.
  assert (Hodd' : Nat.odd (List.length (sort_by le players)) = true).
  { rewrite (Permutation_length Hs). exact Hodd. }
  rewrite (odd_Z _ Hodd').
  assert (Hpick : exists rest bye,
             (match last_without_bye view (sort_by le players) 0 with
              | Some j => (take j (sort_by le players) ++ drop (S j) (sort_by le players),
                           sort_by le players !! j)
              | None => (removelast (sort_by le players), last (sort_by le players))
              end) = (rest, Some bye)
             /\ Permutation (bye :: rest) (sort_by le players)
             /\ (had_bye view bye = true ->
                 Forall (fun p => had_bye view p = true) (sort_by le players))).
  { pose proof (last_without_bye_spec (sort_by le players) 0) as Hl.
    destruct (last_without_bye view (sort_by le players) 0) as [j|].
    - destruct Hl as (p & _ & Hp & Hb). rewrite Nat.sub_0_r in Hp.
      eexists _, p. rewrite Hp. split; [reflexivity|].
      split; [apply take_drop_pick; exact Hp|]. congruence.
    - destruct (sort_by le players) as [|x l] eqn:E using rev_ind; [discriminate|].
      exists l, x. rewrite removelast_last, last_snoc. split; [reflexivity|].
      split; [|auto]. rewrite Permutation_app_comm. reflexivity. }
  destruct Hpick as (rest & bye & -> & Hp & Hb).
  assert (Hev : Nat.even (List.length rest) = true).
  { apply Permutation_length in Hp. cbn [List.length] in Hp.
    rewrite <- Hp, Nat.odd_succ in Hodd'. exact Hodd'. }
  destruct (backtrack_pair_even view played_pairs rest Hev) as (paired & -> & Hq).
  assert (Hev' : Nat.even (List.length paired) = true).
  { rewrite (Permutation_length Hq). exact Hev. }
  destruct (color_pairs_even view coin paired n Hev') as (ps & n' & -> & Hc).
  exists ps, bye, n'. split; [reflexivity|].
  assert (Hall : Permutation (bye :: paired_players ps) players).
  { rewrite Hc, Hq, Hp. exact Hs. }
  split; [exact Hall|]. split.
  - rewrite <- (Permutation_length Hall). cbn [List.length]. rewrite pairings_length. lia.
  - intros H. rewrite <- Hs. exact (Hb H).
Qed.

(** X23.  [_backtrack_pair] is greedy for the first player of the list:
    among four or more players it pairs the first with the earliest
    later player it has not met, and with its neighbour when it has met
    them all; the others are paired among themselves. *)
Theorem top_player_pairing (played : gset (gset string)) (p1 : A) (rest : list A) :
  Nat.odd (List.length rest) = true -> (1 < List.length rest)%nat ->
  match List.find (fun q => negb (have_played view played p1 q)) rest with
  | Some q =>
      exists sub, backtrack_pair view played (p1 :: rest) = Ret (p1 :: q :: sub)
                  /\ Permutation (q :: sub) rest
  | None =>
      exists p2 rest' sub,
        rest = p2 :: rest'
        /\ backtrack_pair view played (p1 :: rest) = Ret (p1 :: p2 :: sub)
        /\ Permutation sub rest'
  end.
Proof.
  intros Hodd Hlen.
  destruct rest as [|p2 [|p3 rest'']]; [discriminate|cbn in Hlen; lia|].
  set (rest := p2 :: p3 :: rest'') in *.
  unfold backtrack_pair. set (fuel := List.length (p1 :: rest)).
  assert (Hfuel : (List.length rest < fuel)%nat) by (unfold fuel; cbn; lia).
  assert (Hsub : forall l, S (List.length l) = List.length rest ->
                           exists sub, backtrack_pair_go view fuel played l = Ret sub
                                       /\ Permutation sub l).
  { intros l Hl. apply backtrack_pair_go_even; [|lia].
    rewrite <- Hl, Nat.odd_succ in Hodd. exact Hodd. }
  assert (Hloop : forall cands i,
             drop i rest = cands ->
             match List.find (fun q => negb (have_played view played p1 q)) cands with
             | Some q =>
                 exists sub,
                   (fix candidates (i : nat) (cands : list A) {struct cands} : res (list A) :=
                      match cands with
                      | [] =>
                          match backtrack_pair_go view fuel played (p3 :: rest'') with
                          | Ret sub => Ret (p1 :: p2 :: sub)
                          | e => e
                          end
                      | q :: cands' =>
                          if negb (have_played view played p1 q) then
                            match backtrack_pair_go view fuel played
                                    (take i rest ++ drop (S i) rest) with
                            | Ret sub => Ret (p1 :: q :: sub)
                            | e => e
                            end
                          else candidates (S i) cands'
                      end) i cands = Ret (p1 :: q :: sub)
                   /\ Permutation (q :: sub) rest
             | None =>
                 exists sub,
                   (fix candidates (i : nat) (cands : list A) {struct cands} : res (list A) :=
                      match cands with
                      | [] =>
                          match backtrack_pair_go view fuel played (p3 :: rest'') with
                          | Ret sub => Ret (p1 :: p2 :: sub)
                          | e => e
                          end
                      | q :: cands' =>
                          if negb (have_played view played p1 q) then
                            match backtrack_pair_go view fuel played
                                    (take i rest ++ drop (S i) rest) with
                            | Ret sub => Ret (p1 :: q :: sub)
                            | e => e
                            end
                          else candidates (S i) cands'
                      end) i cands = Ret (p1 :: p2 :: sub)
                   /\ Permutation sub (p3 :: rest'')
             end).
  { induction cands as [|q cands IHc]; intros i Hd; cbn [List.find].
    - destruct (Hsub (p3 :: rest'') eq_refl) as (sub & -> & Hp). eauto.
    - assert (Hq : rest !! i = Some q).
      { assert (H0 : drop i rest !! 0%nat = Some q) by (rewrite Hd; reflexivity).
        rewrite lookup_drop, Nat.add_0_r in H0. exact H0. }
      destruct (negb (have_played view played p1 q)).
      + destruct (Hsub (take i rest ++ drop (S i) rest)) as (sub & -> & Hp).
        * exact (length_take_drop_pick rest i q Hq).
        * exists sub. split; [reflexivity|]. rewrite Hp. apply take_drop_pick. exact Hq.
      + apply IHc. replace (S i) with (i + 1)%nat by lia.
        rewrite <- drop_drop, Hd. reflexivity. }
  specialize (Hloop rest 0%nat eq_refl).
  destruct (List.find _ rest) as [q|].
  - destruct Hloop as (sub & E & Hp). exists sub. split; [exact E|exact Hp].
  - destruct Hloop as (sub & E & Hp). exists p2, (p3 :: rest''), sub.
    split; [reflexivity|]. split; [exact E|exact Hp].
Qed.

End SwissMore.

(** Rosters for the examples: players are their own view. *)
Definition three_players : list Player :=
  [new_player "a" ""; new_player "b" ""; new_player "c" ""].

Definition always : nat -> bool := fun _ => true.

Lemma swiss_pair_odd_witness :
  exists pairings bye n',
    pair (fun p : Player => p) always three_players 1 ∅ 0 = Ret (pairings, Some bye, n')
    /\ Permutation (bye :: paired_players pairings) three_players
    /\ (2 * List.length pairings + 1 = List.length three_players)%nat
    /\ (had_bye (fun p : Player => p) bye = true ->
        Forall (fun p => had_bye (fun p : Player => p) p = true) three_players).
Proof.
  apply (swiss_pair_odd (fun p : Player => p) always three_players 1 ∅ 0).
  reflexivity.
Defined.

Lemma top_player_pairing_witness :
  match List.find (fun q => negb (have_played (fun p : Player => p)
                                              {[pair_key "a" "b"]} (new_player "a" "") q))
                  [new_player "b" ""; new_player "c" ""; new_player "d" ""] with
  | Some q =>
      exists sub,
        backtrack_pair (fun p : Player => p) {[pair_key "a" "b"]}
          (new_player "a" "" :: [new_player "b" ""; new_player "c" ""; new_player "d" ""])
        = Ret (new_player "a" "" :: q :: sub)
        /\ Permutation (q :: sub) [new_player "b" ""; new_player "c" ""; new_player "d" ""]
  | None =>
      exists p2 rest' sub,
        [new_player "b" ""; new_player "c" ""; new_player "d" ""] = p2 :: rest'
        /\ backtrack_pair (fun p : Player => p) {[pair_key "a" "b"]}
             (new_player "a" "" :: [new_player "b" ""; new_player "c" ""; new_player "d" ""])
           = Ret (new_player "a" "" :: p2 :: sub)
        /\ Permutation sub rest'
  end.
Proof.
  apply (top_player_pairing (fun p : Player => p) {[pair_key "a" "b"]} (new_player "a" "")
           [new_player "b" ""; new_player "c" ""; new_player "d" ""]).
  - reflexivity.
  - cbn. lia.
Defined.

(** ** Pairing a list from both ends *)

Lemma flat_map_ext_on {X Y : Type} (f g : X -> list Y) (l : list X) :
  (forall i, In i l -> f i = g i) -> flat_map f l = flat_map g l.
Proof.
  induction l as [|x l IH]; intros H; cbn [flat_map]; [reflexivity|].
  rewrite (H x) by (left; reflexivity). f_equal. apply IH. intros; apply H; right; assumption.
Qed.

Section Ends.
Context {B : Type} (d : B).

(** The slots [i] and [2h - 1 - i] of a list, for [i] below [h]. *)
Definition ends (l : list B) (h : nat) : list B :=
  flat_map (fun i => [default d (l !! i); default d (l !! (2 * h - 1 - i)%nat)]) (seq 0 h).

(** Taken from both ends, the slots of a list of even length are the
    list, each slot once. *)
Lemma ends_perm (h : nat) :
  forall l : list B, List.length l = (2 * h)%nat -> Permutation (ends l h) l.
Proof.
  induction h as [|h IH]; intros l Hl.
  - destruct l; [reflexivity|discriminate].
  - destruct l as [|x l']; [discriminate|].
    destruct (exists_last (l := l')) as (mid & y & ->).
    { intros ->. cbn in Hl. lia. }
    assert (Hmid : List.length mid = (2 * h)%nat).
    { cbn [List.length] in Hl. rewrite length_app in Hl. cbn in Hl. lia. }
    unfold ends. rewrite <- cons_seq. cbn [flat_map].
    replace (2 * S h - 1 - 0)%nat with (S (List.length mid)) by lia.
    cbn [lookup list_lookup]. change (x :: mid ++ [y]) with ([x] ++ mid ++ [y]).
    rewrite (lookup_app_r mid) by lia. rewrite Nat.sub_diag. cbn [lookup list_lookup default].
    change (x :: y :: ?t) with ([x; y] ++ t).
    rewrite <- seq_shift, flat_map_concat_map, map_map, <- flat_map_concat_map.
    rewrite (flat_map_ext_on _
               (fun i => [default d (mid !! i); default d (mid !! (2 * h - 1 - i)%nat)])).
    + fold (ends mid h). rewrite (IH mid Hmid).
      cbn [app]. constructor. rewrite Permutation_app_comm. reflexivity.
    + intros i Hi. apply in_seq in Hi.
      replace (2 * S h - 1 - S i)%nat with (S (2 * h - 1 - i)) by lia.
      cbn [lookup list_lookup app].
      rewrite !(lookup_app_l mid) by lia. reflexivity.
Qed.
End Ends.

Lemma flat_map_app_perm {X Y : Type} (f g h : X -> list Y) (l : list X) :
  (forall i, In i l -> Permutation (f i) (g i ++ h i)) ->
  Permutation (flat_map f l) (flat_map g l ++ flat_map h l).
Proof.
  induction l as [|x l IH]; intros H; cbn [flat_map]; [reflexivity|].
  rewrite (H x) by (left; reflexivity). rewrite IH by (intros; apply H; right; assumption).
  rewrite <- !app_assoc. apply Permutation_app_head.
  rewrite !app_assoc. apply Permutation_app_tail. apply Permutation_app_comm.
Qed.

Lemma flat_map_length_le {X Y Z : Type} (f : X -> list Y) (g : X -> list Z) (l : list X) :
  (forall i, In i l -> (List.length (f i) <= List.length (g i))%nat) ->
  (List.length (flat_map f l) <= List.length (flat_map g l))%nat.
Proof.
  induction l as [|x l IH]; intros H; cbn [flat_map]; [cbn; lia|].
  rewrite !length_app. pose proof (H x (or_introl eq_refl)).
  assert ((List.length (flat_map f l) <= List.length (flat_map g l))%nat)
    by (apply IH; intros; apply H; right; assumption).
  lia.
Qed.

(** The players among a list of slots, some of which are empty. *)
Definition present {A : Type} (l : list (option A)) : list A :=
  flat_map (fun o => match o with Some p => [p] | None => [] end) l.

Definition empty_slots {A : Type} (l : list (option A)) : list (option A) :=
  List.filter (fun o => match o with Some _ => false | None => true end) l.

Lemma present_players {A : Type} (players : list A) (k : nat) :
  present (List.map Some players ++ List.repeat None k) = players.
Proof.
  unfold present. rewrite flat_map_app.
  replace (flat_map _ (List.repeat None k)) with (@nil A).
  - rewrite app_nil_r. induction players as [|p ps IH]; cbn; [reflexivity|]. f_equal. exact IH.
  - induction k as [|k IH]; cbn; [reflexivity|exact IH].
Qed.

Lemma empty_slots_players {A : Type} (players : list A) (k : nat) :
  List.length (empty_slots (List.map Some players ++ List.repeat None k)) = k.
Proof.
  unfold empty_slots. rewrite List.filter_app, length_app.
  replace (List.length (List.filter _ (List.map Some players))) with 0%nat.
  - induction k as [|k IH]; cbn; [reflexivity|]. f_equal. exact IH.
  - induction players as [|p ps IH]; cbn; [reflexivity|exact IH].
Qed.

Lemma present_perm {A : Type} (l1 l2 : list (option A)) :
  Permutation l1 l2 -> Permutation (present l1) (present l2).
Proof. intros H. unfold present. apply Permutation_flat_map. exact H. Qed.

Lemma empty_slots_perm {A : Type} (l1 l2 : list (option A)) :
  Permutation l1 l2 -> List.length (empty_slots l1) = List.length (empty_slots l2).
Proof.
  intros H. unfold empty_slots. induction H; cbn [List.filter]; try lia.
  - destruct x; cbn [List.length]; lia.
  - destruct x, y; cbn [List.length]; lia.
Qed.

(** ** The knockout bracket *)

Section KnockoutMore.
Context {A : Type}.

Lemma bracket_size_go_spec (n : nat) (fuel : nat) :
  forall size : nat,
    (1 <= size)%nat -> (n <= size + fuel)%nat -> (size = 1 \/ size < 2 * n)%nat ->
    (exists e, size = 2 ^ e)%nat ->
    (exists e, bracket_size_go fuel size n = 2 ^ e)%nat
    /\ (n <= bracket_size_go fuel size n)%nat
    /\ (bracket_size_go fuel size n = 1 \/ bracket_size_go fuel size n < 2 * n)%nat.
Proof.
  induction fuel as [|fuel IH]; intros size H1 Hf Hs Hp; cbn [bracket_size_go].
  - split; [exact Hp|]. split; [lia|exact Hs].
  - destruct (Nat.ltb_spec size n) as [Hlt|Hge].
    + apply IH; try lia. destruct Hp as [e ->]. exists (S e). cbn. lia.
    + split; [exact Hp|]. split; [lia|exact Hs].
Qed.

(** The size of the bracket: the least power of two that holds the
    players. *)
Lemma bracket_size_spec (n : nat) :
  (1 <= n)%nat ->
  (exists e, bracket_size n = 2 ^ e)%nat /\ (n <= bracket_size n < 2 * n)%nat.
Proof.
  intros H. unfold bracket_size.
  destruct (bracket_size_go_spec n n 1) as (He & Hn & Hs); try lia.
  - exists 0%nat. reflexivity.
  - split; [exact He|]. lia.
Qed.

Lemma seeded_lookup (players : list A) (k j : nat) :
  default None ((List.map Some players ++ List.repeat None k) !! j) = players !! j.
Proof.
  destruct (Nat.lt_ge_cases j (List.length players)) as [Hlt|Hge].
  - rewrite lookup_app_l by (rewrite length_map; exact Hlt).
    change (List.map Some players) with (Some <$> players).
    rewrite list_lookup_fmap. destruct (players !! j); reflexivity.
  - rewrite (lookup_ge_None_2 players j) by exact Hge.
    rewrite lookup_app_r by (rewrite length_map; exact Hge).
    destruct (List.repeat None k !! _) as [o|] eqn:E; [|reflexivity].
    apply list_elem_of_lookup_2, list_elem_of_In, repeat_spec in E. subst o. reflexivity.
Qed.

Lemma seed_bracket_pairs (players : list A) :
  seed_bracket players
  = List.map (fun i => (players !! i,
                        players !! (bracket_size (List.length players) - 1 - i)%nat))
             (seq 0 (bracket_size (List.length players) / 2)).
Proof.
  unfold seed_bracket. cbv zeta. apply map_ext. intros i.
  rewrite !seeded_lookup. reflexivity.
Qed.

(** X24.  The first round of a knockout with two or more players: the
    bracket has the least power of two of slots that holds the players,
    half as many pairs, every player in exactly one pair, a player in
    the first slot of every pair, and an empty second slot (a bye) in
    exactly the first [size - n] pairs. *)
Theorem seed_bracket_spec (players : list A) :
  (2 <= List.length players)%nat ->
  let n := List.length players in
  let size := bracket_size n in
  ((exists e, size = 2 ^ e)%nat /\ (n <= size < 2 * n)%nat)
  /\ List.length (seed_bracket players) = (size / 2)%nat
  /\ Permutation (present (flat_map (fun '(w, b) => [w; b]) (seed_bracket players))) players
  /\ forall i w b,
       seed_bracket players !! i = Some (w, b) ->
       w = players !! i /\ is_Some w /\ (b = None <-> (i < size - n)%nat).
Proof.
  intros Hn n size.
  destruct (bracket_size_spec n) as [[e He] Hs]; [lia|]. fold size in He, Hs.
  assert (Hh : size = (2 * (size / 2))%nat).
  { destruct e as [|e]; [cbn in He; lia|].
    rewrite He. cbn [Nat.pow]. rewrite (Nat.mul_comm 2 (2 ^ e)), Nat.div_mul by lia. lia. }
  split; [split; [exists e; exact He|exact Hs]|].
  split; [unfold seed_bracket; cbv zeta; rewrite length_map, length_seq; reflexivity|].
  split.
  - assert (E : flat_map (fun '(w, b) => [w; b]) (seed_bracket players)
                = ends None (List.map Some players ++ List.repeat None (size - n)) (size / 2)).
    { unfold seed_bracket, ends. cbv zeta. fold n size.
      rewrite flat_map_concat_map, map_map, <- flat_map_concat_map.
      rewrite <- Hh. reflexivity. }
    assert (L : List.length (List.map Some players ++ List.repeat None (size - n))
                = (2 * (size / 2))%nat).
    { rewrite length_app, length_map, repeat_length. fold n. lia. }
    rewrite E, (present_perm _ _ (ends_perm None (size / 2) _ L)).
    rewrite present_players. reflexivity.
  - intros i w b Hi. rewrite seed_bracket_pairs in Hi. fold n size in Hi.
    change (List.map ?f ?l) with (f <$> l) in Hi. rewrite list_lookup_fmap in Hi.
    destruct (seq 0 (size / 2) !! i) as [j|] eqn:Ej; [|discriminate].
    apply lookup_seq in Ej. destruct Ej as [-> Hlt]. cbn in Hi. injection Hi as <- <-.
    split; [reflexivity|]. split.
    + apply lookup_lt_is_Some. fold n. lia.
    + rewrite lookup_ge_None. fold n. lia.
Qed.

(** X25.  [next_round] pairs the shuffled winners two by two, with
    colours by the coin.  An even number of winners are all paired; of
    an odd number, the last one after the shuffle is in no pair. *)
Theorem next_round_pairs (coin : nat -> bool) (shuffle : nat -> list A -> list A)
    (winners : list A) (n : nat) :
  let l := shuffle n winners in
  let pairs := fst (next_round coin shuffle winners n) in
  List.length pairs = (List.length l / 2)%nat
  /\ if Nat.even (List.length l)
     then Permutation (paired_players pairs) l
     else exists x, last l = Some x /\ Permutation (paired_players pairs ++ [x]) l.
Proof.
  cbv zeta. unfold next_round. generalize (S n) as m. generalize (shuffle n winners) as l.
  clear. intros l.
  assert (G : forall k (l : list A) m,
             (List.length l <= k)%nat ->
             List.length (fst (coin_pairs coin l m)) = (List.length l / 2)%nat
             /\ (if Nat.even (List.length l)
                 then Permutation (paired_players (fst (coin_pairs coin l m))) l
                 else exists x, last l = Some x
                                /\ Permutation (paired_players (fst (coin_pairs coin l m)) ++ [x])
                                               l)).
  { induction k as [|k IH]; intros l0 m Hk.
    - destruct l0; [|cbn in Hk; lia]. cbn. split; reflexivity.
    - destruct l0 as [|a [|b l1]].
      + cbn. split; reflexivity.
      + cbn. split; [reflexivity|]. exists a. split; reflexivity.
      + cbn [coin_pairs]. destruct (coin_pairs coin l1 (S m)) as [ps m'] eqn:E.
        destruct (IH l1 (S m)) as [Hl Hp]; [cbn in Hk; lia|].
        rewrite E in Hl, Hp. cbn [fst] in *. split.
        * cbn [List.length]. rewrite Hl.
          change (S (S (List.length l1))) with (2 + List.length l1)%nat.
          rewrite (Nat.div_add_l 1 2) by lia. reflexivity.
        * change (Nat.even (List.length (a :: b :: l1))) with (Nat.even (List.length l1)).
          destruct (Nat.even (List.length l1)).
          -- unfold paired_players in *.
             destruct (coin m); cbn [flat_map app];
               [|etransitivity; [apply perm_swap|]]; do 2 constructor; exact Hp.
          -- destruct Hp as (x & Hx & Hp). exists x. split.
             ++ destruct l1; [discriminate|exact Hx].
             ++ unfold paired_players in *.
                destruct (coin m); cbn [flat_map app];
                  [|etransitivity; [apply perm_swap|]]; do 2 constructor; exact Hp. }
  intros m. exact (G (List.length l) l m (le_n _)).
Qed.

End KnockoutMore.

(** ** The round-robin schedule *)

Section RoundRobinMore.
Context {A : Type}.

Lemma rotate_perm (l : list (option A)) : Permutation (rotate l) l.
Proof.
  unfold rotate. destruct l as [|x l] using rev_ind; [reflexivity|].
  rewrite last_snoc, removelast_last. rewrite Permutation_app_comm. reflexivity.
Qed.

(** Every round of the circle is built on a rearrangement of the first
    circle. *)
Lemma circle_rounds_spec (k : nat) (fixed : option A) (n : nat) :
  forall rotating : list (option A),
    List.length (circle_rounds k fixed rotating n) = k
    /\ Forall (fun r => exists rot, Permutation rot rotating
                                    /\ r = circle_pairs (fixed :: rot) n)
              (circle_rounds k fixed rotating n).
Proof.
  induction k as [|k IH]; intros rotating; cbn [circle_rounds].
  - split; [reflexivity|constructor].
  - destruct (IH (rotate rotating)) as [Hl Hf]. split; [cbn; lia|].
    constructor; [exists rotating; split; reflexivity|].
    eapply Forall_impl; [exact Hf|]. cbv beta.
    intros r (rot & Hp & ->). exists rot. split; [|reflexivity].
    rewrite Hp. apply rotate_perm.
Qed.

(** The player left over in a pair of slots one of which is empty. *)
Definition sits_out (a b : option A) : list A :=
  match a, b with
  | Some p, None => [p]
  | None, Some p => [p]
  | _, _ => []
  end.

Lemma paired_players_flat_map {X : Type} (f : X -> list (A * A)) (l : list X) :
  paired_players (flat_map f l) = flat_map (fun i => paired_players (f i)) l.
Proof.
  unfold paired_players. induction l as [|x l IH]; cbn [flat_map]; [reflexivity|].
  rewrite flat_map_app, IH. reflexivity.
Qed.

Lemma present_flat_map {X : Type} (f : X -> list (option A)) (l : list X) :
  present (flat_map f l) = flat_map (fun i => present (f i)) l.
Proof.
  unfold present. induction l as [|x l IH]; cbn [flat_map]; [reflexivity|].
  rewrite flat_map_app, IH. reflexivity.
Qed.

Lemma empty_slots_flat_map {X : Type} (f : X -> list (option A)) (l : list X) :
  empty_slots (flat_map f l) = flat_map (fun i => empty_slots (f i)) l.
Proof.
  unfold empty_slots. induction l as [|x l IH]; cbn [flat_map]; [reflexivity|].
  rewrite List.filter_app, IH. reflexivity.
Qed.

(** One round on a circle of even size: the players of the circle are
    those of the pairs and those who sit out, and no more sit out than
    there are empty slots. *)
Lemma circle_pairs_spec (c : list (option A)) (h : nat) :
  List.length c = (2 * h)%nat ->
  exists sitting,
    Permutation (paired_players (circle_pairs c (2 * h)) ++ sitting) (present c)
    /\ (List.length sitting <= List.length (empty_slots c))%nat.
Proof.
  intros Hl.
  set (a := fun i : nat => default None (c !! i)).
  set (b := fun i : nat => default None (c !! (2 * h - 1 - i)%nat)).
  exists (flat_map (fun i => sits_out (a i) (b i)) (seq 0 h)). split.
  - rewrite <- (present_perm _ _ (ends_perm None h c Hl)).
    unfold ends. fold a b. rewrite present_flat_map.
    unfold circle_pairs. rewrite Nat.mul_comm, Nat.div_mul by lia.
    rewrite paired_players_flat_map. symmetry. apply flat_map_app_perm.
    intros i _. rewrite (Nat.mul_comm h 2). unfold a, b.
    destruct (c !! i) as [[p1|]|]; destruct (c !! (2 * h - 1 - i)%nat) as [[p2|]|];
      cbn; try reflexivity.
    destruct (Nat.even i); cbn; [reflexivity|apply perm_swap].
  - rewrite <- (empty_slots_perm _ _ (ends_perm None h c Hl)).
    unfold ends. fold a b. rewrite empty_slots_flat_map.
    apply flat_map_length_le. intros i _. unfold a, b.
    destruct (c !! i) as [[p1|]|]; destruct (c !! (2 * h - 1 - i)%nat) as [[p2|]|];
      cbn; lia.
Qed.

Lemma swap_paired (r : list (A * A)) :
  Permutation (paired_players (List.map (fun '(w, b) => (b, w)) r)) (paired_players r).
Proof.
  unfold paired_players. induction r as [|[w b] r IH]; cbn [List.map flat_map app];
    [reflexivity|].
  rewrite IH. apply perm_swap.
Qed.

(** X26.  The round-robin schedule of a non-empty roster of [n] players
    has [n - 1] rounds when [n] is even and [n] rounds when it is odd
    (twice as many for a double round robin), and in every round every
    player has exactly one game, except that with an odd roster exactly
    one player sits out. *)
Theorem round_robin_rounds (players : list A) (double : bool) :
  players <> [] ->
  let n := List.length players in
  let rounds := generate_all_rounds players double in
  List.length rounds
  = ((if double then 2 else 1) * (if Nat.odd n then n else n - 1))%nat
  /\ Forall (fun r => exists sitting,
                        Permutation (paired_players r ++ sitting) players
                        /\ List.length sitting = (if Nat.odd n then 1 else 0)%nat)
            rounds.
Proof.
  intros Hne n rounds.
  set (lst := if Nat.odd n then List.map Some players ++ [None] else List.map Some players).
  assert (Hpres : present lst = players).
  { unfold lst. destruct (Nat.odd n).
    - exact (present_players players 1).
    - rewrite <- (app_nil_r (List.map Some players)). exact (present_players players 0). }
  assert (Hempty : List.length (empty_slots lst) = (if Nat.odd n then 1 else 0)%nat).
  { unfold lst. destruct (Nat.odd n).
    - exact (empty_slots_players players 1).
    - rewrite <- (app_nil_r (List.map Some players)). exact (empty_slots_players players 0). }
  assert (Hlen : List.length lst = (if Nat.odd n then S n else n)).
  { unfold lst. destruct (Nat.odd n); rewrite ?length_app, length_map; cbn; fold n; lia. }
  assert (Hh : exists h, List.length lst = (2 * h)%nat).
  { rewrite Hlen. destruct (Nat.odd n) eqn:E.
    - apply Nat.odd_spec in E. destruct E as [q ->]. exists (S q). lia.
    - assert (E' : Nat.even n = true) by (rewrite <- Nat.negb_odd, E; reflexivity).
      apply Nat.even_spec in E'. destruct E' as [q ->]. exists q. lia. }
  destruct Hh as [h Hh].
  assert (Hround : forall r rot fixed rotating,
             lst = fixed :: rotating -> Permutation rot rotating ->
             r = circle_pairs (fixed :: rot) (List.length lst) ->
             exists sitting, Permutation (paired_players r ++ sitting) players
                             /\ List.length sitting = (if Nat.odd n then 1 else 0)%nat).
  { intros r rot fixed rotating El Hp ->.
    assert (Hc : Permutation (fixed :: rot) lst) by (rewrite El, Hp; reflexivity).
    destruct (circle_pairs_spec (fixed :: rot) h) as (sitting & Hs & Hle).
    { rewrite (Permutation_length Hc). exact Hh. }
    rewrite Hh. exists sitting.
    rewrite (present_perm _ _ Hc), Hpres in Hs.
    rewrite (empty_slots_perm _ _ Hc), Hempty in Hle.
    split; [exact Hs|].
    apply Permutation_length in Hs. rewrite length_app, pairings_length in Hs. fold n in Hs.
    destruct (Nat.odd n) eqn:E; [|lia].
    apply Nat.odd_spec in E. destruct E as [q E]. lia. }
  unfold rounds, generate_all_rounds. fold n lst.
  destruct lst as [|fixed rotating] eqn:El.
  { exfalso. destruct players; [congruence|]. unfold n in Hlen. cbn [List.length] in Hlen.
    destruct (Nat.odd _); lia. }
  destruct (circle_rounds_spec (List.length (fixed :: rotating) - 1) fixed
              (List.length (fixed :: rotating)) rotating) as [Hl Hf].
  assert (Hsingle : Forall (fun r => exists sitting,
                        Permutation (paired_players r ++ sitting) players
                        /\ List.length sitting = (if Nat.odd n then 1 else 0)%nat)
                      (circle_rounds (List.length (fixed :: rotating) - 1) fixed rotating
                                     (List.length (fixed :: rotating)))).
  { eapply Forall_impl; [exact Hf|]. cbv beta. intros r (rot & Hp & Hr).
    exact (Hround r rot fixed rotating eq_refl Hp Hr). }
  destruct double.
  - split.
    + rewrite length_app, length_map, Hl, Hlen. destruct (Nat.odd n); lia.
    + apply Forall_app. split; [exact Hsingle|].
      apply Forall_map. eapply Forall_impl; [exact Hsingle|]. cbv beta.
      intros r (sitting & Hs & Hn). exists sitting. split; [|exact Hn].
      rewrite swap_paired. exact Hs.
  - split; [|exact Hsingle]. rewrite Hl, Hlen. destruct (Nat.odd n); lia.
Qed.

End RoundRobinMore.

Lemma seed_bracket_spec_witness :
  let n := List.length [0; 1; 2; 3; 4]%nat in
  let size := bracket_size n in
  ((exists e, size = 2 ^ e)%nat /\ (n <= size < 2 * n)%nat)
  /\ List.length (seed_bracket [0; 1; 2; 3; 4]%nat) = (size / 2)%nat
  /\ Permutation (present (flat_map (fun '(w, b) => [w; b]) (seed_bracket [0; 1; 2; 3; 4]%nat)))
                 [0; 1; 2; 3; 4]%nat
  /\ forall i w b,
       seed_bracket [0; 1; 2; 3; 4]%nat !! i = Some (w, b) ->
       w = [0; 1; 2; 3; 4]%nat !! i /\ is_Some w /\ (b = None <-> (i < size - n)%nat).
Proof.
  apply (seed_bracket_spec [0; 1; 2; 3; 4]%nat). cbn. lia.
Defined.

Lemma round_robin_rounds_witness :
  let n := List.length [0; 1; 2]%nat in
  let rounds := generate_all_rounds [0; 1; 2]%nat false in
  List.length rounds
  = ((if false then 2 else 1) * (if Nat.odd n then n else n - 1))%nat
  /\ Forall (fun r => exists sitting,
                        Permutation (paired_players r ++ sitting) [0; 1; 2]%nat
                        /\ List.length sitting = (if Nat.odd n then 1 else 0)%nat)
            rounds.
Proof.
  apply (round_robin_rounds [0; 1; 2]%nat false). discriminate.
Defined.

(** The schedules of three and of four players. *)
Lemma round_robin_examples :
  generate_all_rounds [0; 1; 2]%nat false = [[(2, 1)]; [(0, 2)]; [(0, 1)]]%nat
  /\ generate_all_rounds [0; 1; 2; 3]%nat false
     = [[(0, 3); (2, 1)]; [(0, 2); (1, 3)]; [(0, 1); (3, 2)]]%nat.
Proof. vm_compute. auto. Qed.

End ScheduleFacts.

(** * Further properties of the tournament controller *)

Module StandingsFacts.
Import Pairing Tournament PairingFacts TournamentFacts OrderFacts.

(** ** The order of the standings *)

Lemma key_le_nums_total (a : list Q) :
  forall (b : list Q) (na nb : string),
    List.length a = List.length b ->
    key_le_nums a b na nb = false -> key_le_nums b a nb na = true.
Proof.
  induction a as [|x a IH]; intros [|y b] na nb Hl H; cbn [key_le_nums] in *;
    try discriminate.
  - destruct (String.leb_total na nb) as [E|E]; congruence.
  - destruct (Qeq_bool x y) eqn:Exy.
    + apply Qeq_bool_iff in Exy.
      assert (Eyx : Qeq_bool y x = true) by (apply Qeq_bool_iff; symmetry; exact Exy).
      rewrite Eyx. apply IH; [cbn in Hl; lia|exact H].
    + assert (Hlt : ~ (x <= y)%Q) by (intros C; apply Qle_bool_iff in C; congruence).
      apply Qnot_le_lt in Hlt.
      destruct (Qeq_bool y x) eqn:Eyx.
      * apply Qeq_bool_iff in Eyx. rewrite Eyx in Hlt. exfalso. exact (Qlt_irrefl _ Hlt).
      * apply Qle_bool_iff. apply Qlt_le_weak. exact Hlt.
Qed.

Lemma key_le_first (x y : Q) (a b : list Q) (na nb : string) :
  key_le (x :: a, na) (y :: b, nb) = true -> (x <= y)%Q.
Proof.
  unfold key_le. cbn [fst snd key_le_nums].
  destruct (Qeq_bool x y) eqn:E.
  - intros _. apply Qeq_bool_iff in E. rewrite E. apply Qle_refl.
  - apply Qle_bool_iff.
Qed.

Lemma sorted_impl {X : Type} (R R' : X -> X -> Prop) (l : list X) :
  (forall a b, R a b -> R' a b) -> Sorted R l -> Sorted R' l.
Proof.
  intros H S. induction S as [|a l S IH Hd]; constructor; [exact IH|].
  destruct Hd; constructor. auto.
Qed.

Lemma standings_key_length (x : t) (i j : PlayerRef) :
  List.length (fst (standings_key x i)) = List.length (fst (standings_key x j)).
Proof.
  unfold standings_key.
  destruct (format x =? FORMAT_SWISS)%string; [reflexivity|].
  destruct (format x =? FORMAT_ROUNDROBIN)%string; [reflexivity|].
  repeat match goal with |- context [match ?o with Some _ => _ | None => _ end] =>
                           destruct o end; reflexivity.
Qed.

Lemma standings_key_score (x : t) (i j : PlayerRef) :
  (format x =? FORMAT_SWISS)%string || (format x =? FORMAT_ROUNDROBIN)%string = true ->
  key_le (standings_key x i) (standings_key x j) = true ->
  (score (player_at (player_list x) j) <= score (player_at (player_list x) i))%Q.
Proof.
  unfold standings_key. intros Hf H.
  assert (G : (- score (player_at (player_list x) i)
               <= - score (player_at (player_list x) j))%Q).
  { destruct (format x =? FORMAT_SWISS)%string; [exact (key_le_first _ _ _ _ _ _ H)|].
    destruct (format x =? FORMAT_ROUNDROBIN)%string; [|discriminate].
    exact (key_le_first _ _ _ _ _ _ H). }
  apply Qopp_le_compat in G. rewrite !Qopp_involutive in G. exact G.
Qed.

(** X27.  [get_standings] lists every player of the roster exactly once;
    for the Swiss and round-robin formats the list is in order of
    falling score, and the winner [_finish] declares when none is set is
    a player whose score no other player exceeds. *)
Theorem standings_ordered (x : t) :
  Permutation (get_standings x) (refs (player_list x))
  /\ ((format x =? FORMAT_SWISS)%string || (format x =? FORMAT_ROUNDROBIN)%string = true ->
      StronglySorted
        (fun a b => (score (player_at (player_list x) b)
                     <= score (player_at (player_list x) a))%Q)
        (get_standings x)
      /\ (winner x = None ->
          forall w, winner (finish x) = Some w ->
                    forall i, (i < List.length (player_list x))%nat ->
                              (score (player_at (player_list x) i)
                               <= score (player_at (player_list x) w))%Q)).
Proof.
  assert (Hperm : Permutation (get_standings x) (refs (player_list x))).
  { unfold get_standings. destruct (_ || _); [apply sort_by_perm|reflexivity]. }
  split; [exact Hperm|]. intros Hf.
  assert (Hs : StronglySorted
                 (fun a b => (score (player_at (player_list x) b)
                              <= score (player_at (player_list x) a))%Q)
                 (get_standings x)).
  { apply Sorted_StronglySorted; [intros a b c Hab Hbc; exact (Qle_trans _ _ _ Hbc Hab)|].
    unfold get_standings.
    replace ((format x =? FORMAT_SWISS)%string || (format x =? FORMAT_ROUNDROBIN)%string
             || (format x =? FORMAT_KNOCKOUT)%string) with true by (rewrite Hf; reflexivity).
    eapply sorted_impl; [|apply sort_by_sorted].
    - intros a b. apply standings_key_score. exact Hf.
    - intros a b. unfold key_le. apply key_le_nums_total. apply standings_key_length. }
  split; [exact Hs|]. intros Hw w Ew i Hi.
  unfold finish in Ew. cbn [winner] in Ew. rewrite Hw in Ew.
  destruct (get_standings x) as [|s rest] eqn:Es; [discriminate|].
  injection Ew as <-.
  assert (Hin : In i (s :: rest)).
  { apply (Permutation_in i (Permutation_sym Hperm)). apply in_seq. lia. }
  destruct Hin as [<-|Hin]; [apply Qle_refl|].
  inversion Hs as [|? ? _ Hall]; subst.
  rewrite List.Forall_forall in Hall. exact (Hall i Hin).
Qed.

End StandingsFacts.

Module TallyFacts.
Import Pairing Tournament PairingFacts TournamentFacts.

(** ** The tallies of a player *)

(** What [record] is called with: a win, a draw or a loss. *)
Definition is_score (r : Q) : Prop := (r == 1 \/ r == 1 # 2 \/ r == 0)%Q.

(** The tallies of a player agree: the score is wins plus half the
    draws, and every game played has its opponent and its colour. *)
Definition tally_ok (p : Player) : Prop :=
  (score p == inject_Z (wins p) + (1 # 2) * inject_Z (draws p))%Q
  /\ games_played p = Z.of_nat (List.length (opponents p))
  /\ List.length (color_history p) = List.length (opponents p)
  /\ 0 <= wins p /\ 0 <= draws p /\ 0 <= losses p.

Lemma record_tally (p : Player) (r : Q) (o : string) (c : ascii) :
  tally_ok p -> is_score r -> tally_ok (record p r o c).
Proof.
  intros (Hs & Hg & Hc & Hw & Hd & Hl) Hr. unfold tally_ok, record, games_played in *.
  cbn [score wins draws losses opponents color_history].
  rewrite !length_app, Qred_correct. cbn [List.length].
  destruct Hr as [E|[E|E]].
  - assert (E1 : Qeq_bool r 1 = true) by (apply Qeq_bool_iff; exact E).
    rewrite E1, E, Hs, inject_Z_plus. repeat split; try lia. ring.
  - assert (E1 : Qeq_bool r 1 = false).
    { destruct (Qeq_bool r 1) eqn:C; [|reflexivity].
      apply Qeq_bool_iff in C. rewrite E in C. discriminate. }
    assert (E2 : Qeq_bool r (1 # 2) = true) by (apply Qeq_bool_iff; exact E).
    rewrite E1, E2, E, Hs, inject_Z_plus. repeat split; try lia. ring.
  - assert (E1 : Qeq_bool r 1 = false).
    { destruct (Qeq_bool r 1) eqn:C; [|reflexivity].
      apply Qeq_bool_iff in C. rewrite E in C. discriminate. }
    assert (E2 : Qeq_bool r (1 # 2) = false).
    { destruct (Qeq_bool r (1 # 2)) eqn:C; [|reflexivity].
      apply Qeq_bool_iff in C. rewrite E in C. discriminate. }
    rewrite E1, E2, E, Hs. repeat split; try lia. ring.
Qed.

Lemma new_player_tally (nm path : string) : tally_ok (new_player nm path).
Proof. unfold tally_ok, games_played. cbn. repeat split; try lia; reflexivity. Qed.

Lemma player_at_tally (ps : list Player) (i : PlayerRef) :
  Forall tally_ok ps -> tally_ok (player_at ps i).
Proof.
  intros H. unfold player_at. destruct (ps !! i) as [p|] eqn:E; cbn [default].
  - rewrite Forall_lookup in H. exact (H i p E).
  - apply new_player_tally.
Qed.

Lemma scores_are_scores (g : Game) (w b : Q) :
  white_score g = Some w -> black_score g = Some b -> is_score w /\ is_score b.
Proof.
  unfold black_score, white_score, is_score. destruct (result g) as [r|]; [|discriminate].
  destruct (r =? "1-0")%string.
  { intros [= <-] [= <-]. cbn. split; [left|right; right]; reflexivity. }
  destruct (r =? "1/2-1/2")%string.
  { intros [= <-] [= <-]. cbn. split; right; left; reflexivity. }
  destruct (r =? "0-1")%string; [|discriminate].
  intros [= <-] [= <-]. cbn. split; [right; right|left]; reflexivity.
Qed.

Section Tallies.
Variable coin : nat -> bool.
Variable shuffle : nat -> list PlayerRef -> list PlayerRef.

Lemma player_list_add_games (x : t) (pairs : list (PlayerRef * PlayerRef)) :
  player_list (add_games x pairs) = player_list x.
Proof. rewrite add_games_spec. reflexivity. Qed.

Lemma tally_generate_round (x : t) :
  Forall tally_ok (player_list x) ->
  Forall tally_ok (player_list (generate_round coin shuffle x)).
Proof.
  unfold generate_round.
  set (x' := mk _ _ _ _ _ (current_round x + 1) _ [] _ _ _ _ _ _ _ _ _ _ _ _).
  change (player_list x) with (player_list x'). generalize x'. clear x x'. intros x H.
  destruct (format x =? FORMAT_SWISS)%string.
  { destruct (pair _ _ _ _ _ _) as [[[pairs bye] n]| |]; try exact H.
    destruct bye as [i|]; cbn [player_list set_ko set_players];
      rewrite ?player_list_add_games; [|exact H].
    apply Forall_insert; [exact H|].
    apply record_tally; [apply player_at_tally; exact H|left; reflexivity]. }
  destruct (format x =? FORMAT_ROUNDROBIN)%string.
  { destruct (_ !! _); [rewrite player_list_add_games|]; exact H. }
  destruct (format x =? FORMAT_KNOCKOUT)%string; [|exact H].
  destruct (current_round x =? 1).
  { cbn [player_list set_ko]. rewrite player_list_add_games. exact H. }
  destruct (List.length (ko_pending_winners x) <=? 1)%nat; [exact H|].
  destruct (next_round _ _ _ _) as [pairs n].
  cbn [player_list set_ko]. rewrite player_list_add_games. exact H.
Qed.

Lemma tally_update_buchholz (x : t) :
  Forall tally_ok (player_list x) -> Forall tally_ok (player_list (update_buchholz x)).
Proof.
  unfold update_buchholz. destruct (negb _); [auto|].
  cbn [player_list set_players]. intros H.
  apply Forall_lookup. intros i p Hp. rewrite list_lookup_imap in Hp.
  destruct (player_list x !! i) as [q|] eqn:E; [|discriminate].
  cbn in Hp. injection Hp as <-.
  rewrite Forall_lookup in H. exact (H i q E).
Qed.

Lemma tally_record_game_result (x : t) (game : GameRef) (rs reason : string)
    (moves : list (string * string * string)) (pgn : string) (duration : Z)
    (opening : option string) (evals : option (list Z)) :
  Forall tally_ok (player_list x) ->
  Forall tally_ok
    (player_list (record_game_result coin x game rs reason moves pgn duration opening evals)).
Proof.
  intros H. unfold record_game_result.
  destruct (all_games x !! game) as [g0|]; [|exact H].
  cbv zeta.
  match goal with |- context [white_score ?g1] => set (g := g1) end.
  pose proof (scores_are_scores g) as Hsc.
  destruct (white_score g) as [w|]; destruct (black_score g) as [b|];
    repeat match goal with |- context [if ?c then _ else _] => destruct c end;
    cbv beta iota zeta; cbn [player_list]; try exact H.
  all: destruct (Hsc w b eq_refl eq_refl) as [Hw Hb].
  all: apply Forall_insert;
    [apply Forall_insert; [exact H|]|];
    (apply record_tally; [apply player_at_tally|assumption]);
    [exact H|apply Forall_insert; [exact H|]].
  all: apply record_tally; [apply player_at_tally; exact H|exact Hw].
Qed.

(** X28.  The tallies of every player stay consistent under every
    sequence of controller operations: the score is wins plus half the
    draws, wins, draws and losses add up to the number of opponents
    recorded, and every game has its colour (a bye counts as a win with
    White). *)
Theorem tallies_consistent (x : t) (ops : list op) :
  Forall tally_ok (player_list x) ->
  Forall tally_ok (player_list (run coin shuffle x ops)).
Proof.
  revert x. induction ops as [|o ops IH]; intros x H; [exact H|].
  unfold run in *. cbn [fold_left]. apply IH.
  destruct o as [|g r why mv pgn d o e|]; cbn [step].
  - unfold start. cbn [player_list]. apply tally_generate_round. exact H.
  - apply tally_record_game_result. exact H.
  - unfold advance_round.
    pose proof (tally_update_buchholz x H) as H'. revert H'.
    generalize (update_buchholz x). clear x H. intros x H.
    destruct (_ || _).
    { destruct (rounds x <=? current_round x); cbn [snd];
        [exact H|apply tally_generate_round; exact H]. }
    destruct (format x =? FORMAT_KNOCKOUT)%string; [|exact H].
    destruct (List.length (ko_pending_winners x) <=? 1)%nat; cbn [snd];
      [exact H|apply tally_generate_round; exact H].
Qed.

(** ** Pending and finished games *)

(** A game is waiting to be played or has been recorded. *)
Definition status_ok (g : Game) : Prop :=
  status g = "pending"%string \/ status g = "done"%string.

Lemma all_games_add_games (x : t) (pairs : list (PlayerRef * PlayerRef)) :
  Forall status_ok (all_games x) -> Forall status_ok (all_games (add_games x pairs)).
Proof.
  intros H. rewrite add_games_spec. cbn [all_games]. apply Forall_app. split; [exact H|].
  apply Forall_map. apply Forall_forall. intros [w b] _. left. reflexivity.
Qed.

Lemma status_generate_round (x : t) :
  Forall status_ok (all_games x) ->
  Forall status_ok (all_games (generate_round coin shuffle x)).
Proof.
  unfold generate_round.
  set (x' := mk _ _ _ _ _ (current_round x + 1) _ [] _ _ _ _ _ _ _ _ _ _ _ _).
  change (all_games x) with (all_games x'). generalize x'. clear x x'. intros x H.
  destruct (format x =? FORMAT_SWISS)%string.
  { destruct (pair _ _ _ _ _ _) as [[[pairs bye] n]| |]; try exact H.
    destruct bye as [i|]; cbn [all_games set_ko set_players];
      apply all_games_add_games; exact H. }
  destruct (format x =? FORMAT_ROUNDROBIN)%string.
  { destruct (_ !! _); [apply all_games_add_games|]; exact H. }
  destruct (format x =? FORMAT_KNOCKOUT)%string; [|exact H].
  destruct (current_round x =? 1).
  { cbn [all_games set_ko]. apply all_games_add_games. exact H. }
  destruct (List.length (ko_pending_winners x) <=? 1)%nat; [exact H|].
  destruct (next_round _ _ _ _) as [pairs n].
  cbn [all_games set_ko]. apply all_games_add_games. exact H.
Qed.

Lemma status_record_game_result (x : t) (game : GameRef) (rs reason : string)
    (moves : list (string * string * string)) (pgn : string) (duration : Z)
    (opening : option string) (evals : option (list Z)) :
  Forall status_ok (all_games x) ->
  Forall status_ok
    (all_games (record_game_result coin x game rs reason moves pgn duration opening evals)).
Proof.
  intros H. unfold record_game_result.
  destruct (all_games x !! game) as [g0|]; [|exact H].
  cbv zeta.
  match goal with |- context [white_score ?g1] => set (g := g1) end.
  destruct (white_score g) as [w|]; destruct (black_score g) as [b|];
    repeat match goal with |- context [if ?c then _ else _] => destruct c end;
    cbv beta iota zeta; cbn [all_games];
    (apply Forall_insert; [exact H|right; reflexivity]).
Qed.

Lemma status_step (x : t) (o : op) :
  Forall status_ok (all_games x) -> Forall status_ok (all_games (step coin shuffle x o)).
Proof.
  intros H. destruct o as [|g r why mv pgn d o e|]; cbn [step].
  - unfold start. cbn [all_games]. apply status_generate_round. exact H.
  - apply status_record_game_result. exact H.
  - unfold advance_round.
    assert (H' : Forall status_ok (all_games (update_buchholz x))).
    { unfold update_buchholz. destruct (negb _); exact H. }
    revert H'. generalize (update_buchholz x). clear x H. intros x H.
    destruct (_ || _).
    { destruct (rounds x <=? current_round x); cbn [snd];
        [exact H|apply status_generate_round; exact H]. }
    destruct (format x =? FORMAT_KNOCKOUT)%string; [|exact H].
    destruct (List.length (ko_pending_winners x) <=? 1)%nat; cbn [snd];
      [exact H|apply status_generate_round; exact H].
Qed.

Lemma find_head_filter {X : Type} (f : X -> bool) (l : list X) :
  List.find f l = head (List.filter f l).
Proof.
  induction l as [|a l IH]; cbn [List.find List.filter]; [reflexivity|].
  destruct (f a); [reflexivity|exact IH].
Qed.

Lemma forallb_find {X : Type} (f g : X -> bool) (l : list X) :
  (forall a, In a l -> f a = negb (g a)) ->
  forallb f l = true <-> List.find g l = None.
Proof.
  induction l as [|a l IH]; intros H; cbn [forallb List.find]; [tauto|].
  rewrite (H a) by (left; reflexivity).
  destruct (g a); cbn [negb andb]; [split; discriminate|].
  apply IH. intros; apply H; right; assumption.
Qed.

(** X29.  Under every sequence of controller operations the round is
    complete exactly when no game of it is pending: [round_complete]
    holds if and only if [next_game] returns [None], and [next_game] is
    the first entry of [get_pending_games]. *)
Theorem round_complete_iff_no_next (x : t) (ops : list op) :
  Forall status_ok (all_games x) ->
  (round_complete (run coin shuffle x ops) = true
   <-> next_game (run coin shuffle x ops) = None)
  /\ next_game (run coin shuffle x ops) = head (get_pending_games (run coin shuffle x ops)).
Proof.
  intros H.
  assert (G : Forall status_ok (all_games (run coin shuffle x ops))).
  { revert x H. induction ops as [|o ops IH]; intros x H; [exact H|].
    unfold run in *. cbn [fold_left]. apply IH, status_step, H. }
  split; [|apply find_head_filter].
  unfold round_complete, next_game. apply forallb_find. intros r _.
  destruct (all_games (run coin shuffle x ops) !! r) as [g|] eqn:E; [|reflexivity].
  rewrite Forall_lookup in G. destruct (G r g E) as [-> | ->]; reflexivity.
Qed.

End Tallies.

Lemma tallies_consistent_witness :
  Forall tally_ok
    (player_list (run heads keep_order swiss_four
                      [Start; report 0%nat "1-0"; report 1%nat "1/2-1/2"; AdvanceRound])).
Proof.
  apply (tallies_consistent heads keep_order swiss_four).
  unfold swiss_four, create. cbn [player_list]. unfold four_players.
  repeat constructor; apply new_player_tally.
Defined.

Lemma round_complete_iff_no_next_witness :
  (round_complete (run heads keep_order swiss_four [Start; report 0%nat "1-0"]) = true
   <-> next_game (run heads keep_order swiss_four [Start; report 0%nat "1-0"]) = None)
  /\ next_game (run heads keep_order swiss_four [Start; report 0%nat "1-0"])
     = head (get_pending_games (run heads keep_order swiss_four [Start; report 0%nat "1-0"])).
Proof.
  apply (round_complete_iff_no_next heads keep_order swiss_four).
  unfold swiss_four, create. cbn [all_games]. constructor.
Defined.

(** After the first of two games the round is not complete and the
    second game is next. *)
Lemma next_game_example :
  round_complete (run heads keep_order swiss_four [Start; report 0%nat "1-0"]) = false
  /\ next_game (run heads keep_order swiss_four [Start; report 0%nat "1-0"]) = Some 1%nat.
Proof. vm_compute. auto. Qed.

End TallyFacts.

(** * Moves and the pieces of the mover *)

Module CaptureFacts.
Import Py Board OpeningBook BoardFacts PositionFacts MoveFacts.

(** ** Reading a grid after a write *)

Lemma cell_set_cell_other (g : Grid) (r c r' c' : Z) (v : ascii) :
  Z.to_nat r <> Z.to_nat r' \/ Z.to_nat c <> Z.to_nat c' ->
  cell (set_cell g r c v) r' c' = cell g r' c'.
Proof.
  intros H. unfold cell, set_cell.
  destruct (g !! Z.to_nat r) as [row|] eqn:Er; [|reflexivity].
  destruct (decide (Z.to_nat r = Z.to_nat r')) as [E|E].
  - rewrite <- E, list_lookup_insert_eq by (apply lookup_lt_is_Some; eauto).
    rewrite Er. rewrite list_lookup_insert_ne by (destruct H; congruence). reflexivity.
  - rewrite list_lookup_insert_ne by exact E. reflexivity.
Qed.

(** Emptying a square leaves every empty square empty. *)
Lemma cell_set_cell_dot (g : Grid) (r c r' c' : Z) :
  cell g r' c' = "."%char -> cell (set_cell g r c ".") r' c' = "."%char.
Proof.
  intros H. destruct (decide (Z.to_nat r = Z.to_nat r' /\ Z.to_nat c = Z.to_nat c'))
    as [[E1 E2]|E].
  - unfold cell, set_cell in *. rewrite <- E1, <- E2 in *.
    destruct (g !! Z.to_nat r) as [row|] eqn:Er; [|rewrite Er; reflexivity].
    rewrite list_lookup_insert_eq by (apply lookup_lt_is_Some; eauto).
    rewrite list_lookup_insert. case_decide; [reflexivity|exact H].
  - rewrite cell_set_cell_other; [exact H|].
    destruct (decide (Z.to_nat r = Z.to_nat r')); [right|left]; tauto.
Qed.

(** ** The target square of a generated move *)

Lemma case_exclusive (c : ascii) : isupper c = true -> islower c = false.
Proof.
  unfold isupper, islower. intros H. apply andb_true_iff in H. destruct H as [H1 H2].
  apply Z.leb_le in H1, H2. apply andb_false_iff. left. apply Z.leb_gt. lia.
Qed.

Lemma same_dot (p : ascii) : same p "." = false.
Proof. unfold same, is_w, is_b. cbn. rewrite !andb_false_r. reflexivity. Qed.

(** A piece and an enemy of its side are not of the same side. *)
Lemma same_enemy (piece t2 : ascii) :
  enemy t2 (if isupper piece then "w" else "b") = true -> same piece t2 = false.
Proof.
  unfold enemy, same, is_w, is_b.
  destruct (isupper piece) eqn:Eu; cbn [Ascii.eqb Bool.eqb andb].
  - change (("w" =? "w")%char) with true. cbv iota. intros H.
    apply andb_true_iff in H. destruct H as [_ Hl].
    rewrite (case_exclusive piece Eu).
    destruct (isupper t2) eqn:E2; [rewrite (case_exclusive t2 E2) in Hl; discriminate|].
    rewrite !andb_false_r. reflexivity.
  - change (("b" =? "w")%char) with false. cbv iota. intros H.
    apply andb_true_iff in H. destruct H as [_ Hu].
    rewrite (case_exclusive t2 Hu). rewrite !andb_false_r. reflexivity.
Qed.

(** The square a move lands on holds no piece of the mover's side,
    unless the move is a pawn's step to the en-passant square. *)
Definition lands_well (b : t) (m : Move) : Prop :=
  let '(fr, fc, tr, tc, promo) := m in
  same (cell (board b) fr fc) (cell (board b) tr tc) = false
  \/ (negb (ep b =? "-")%string = true
      /\ tr = ep_row (ep b) /\ tc = ep_col (ep b)).

Lemma slide_lands (b : t) (r c dr dc : Z) (fuel : nat) :
  forall nr nc m,
    In m (slide (board b) (if isupper (cell (board b) r c) then "w" else "b")
                r c dr dc fuel nr nc) ->
    lands_well b m.
Proof.
  induction fuel as [|fuel IH]; intros nr nc m H; cbn [slide] in H; [contradiction|].
  destruct (valid nr nc); [|contradiction].
  destruct (cell (board b) nr nc =? ".")%char eqn:Ed.
  - destruct H as [<-|H]; [|eauto]. left.
    apply Ascii.eqb_eq in Ed. rewrite Ed. apply same_dot.
  - destruct (enemy _ _) eqn:Ee; [|contradiction].
    destruct H as [<-|[]]. left. apply same_enemy. exact Ee.
Qed.

Lemma jumps_lands (b : t) (r c : Z) (ds : list (Z * Z)) (m : Move) :
  In m (jumps (board b) (cell (board b) r c) r c ds) -> lands_well b m.
Proof.
  unfold jumps. intros H. apply in_flat_map in H. destruct H as ([dr dc] & _ & H).
  destruct (valid _ _); cbn [andb] in H; [|contradiction].
  destruct (same _ _) eqn:Es; cbn [negb] in H; [contradiction|].
  destruct H as [<-|[]]. left. exact Es.
Qed.

Lemma promos_land (b : t) (r c tr tc : Z) (m : Move) :
  lands_well b (r, c, tr, tc, None) ->
  In m (List.map (fun pp => (r, c, tr, tc, Some pp)) promos) -> lands_well b m.
Proof. intros H Hm. apply promos_mapped in Hm. destruct Hm as (pp & -> & _). exact H. Qed.

Lemma pseudo_lands (b : t) (r c : Z) (m : Move) :
  In m (pseudo b r c) -> lands_well b m.
Proof.
  unfold pseudo. intros H.
  destruct (cell (board b) r c =? ".")%char; [contradiction|].
  set (piece := cell (board b) r c) in *.
  set (side := if isupper piece then "w"%char else "b"%char) in *.
  destruct (lower piece =? "p")%char.
  { apply in_app_or in H. destruct H as [H|H].
    - destruct (valid _ _); cbn [andb] in H; [|contradiction].
      destruct (cell (board b) _ c =? ".")%char eqn:E1; [|contradiction].
      apply Ascii.eqb_eq in E1.
      assert (L1 : lands_well b (r, c, r + (if (side =? "w")%char then -1 else 1), c, None)).
      { left. fold piece. rewrite E1. apply same_dot. }
      destruct (_ =? _); [exact (promos_land _ _ _ _ _ _ L1 H)|].
      destruct H as [<-|H]; [exact L1|].
      destruct (r =? _); cbn [andb] in H; [|contradiction].
      destruct (cell (board b) _ c =? ".")%char eqn:E2; [|contradiction].
      destruct H as [<-|[]]. left. fold piece.
      apply Ascii.eqb_eq in E2. rewrite E2. apply same_dot.
    - apply in_flat_map in H. destruct H as (dc & _ & H).
      destruct (valid _ _); [|contradiction].
      destruct (_ || _) eqn:Ec; [|contradiction].
      assert (L1 : lands_well b (r, c, r + (if (side =? "w")%char then -1 else 1),
                                 c + dc, None)).
      { apply orb_true_iff in Ec. destruct Ec as [Ec|Ec].
        - left. fold piece. apply same_enemy. exact Ec.
        - right. apply andb_true_iff in Ec. destruct Ec as [Ec H3].
          apply andb_true_iff in Ec. destruct Ec as [H1 H2].
          apply Z.eqb_eq in H2, H3. auto. }
      match type of H with
      | In _ (if ?cnd then _ else _) => destruct cnd
      end; [exact (promos_land _ _ _ _ _ _ L1 H)|].
      destruct H as [<-|[]]. exact L1. }
  destruct (lower piece =? "n")%char; [exact (jumps_lands _ _ _ _ _ H)|].
  destruct (_ || _).
  { apply in_flat_map in H. destruct H as ([dr dc] & _ & H).
    exact (slide_lands _ _ _ _ _ _ _ _ _ H). }
  destruct (lower piece =? "k")%char; [|contradiction].
  apply in_app_or in H. destruct H as [H|H]; [exact (jumps_lands _ _ _ _ _ H)|].
  destruct (_ && _); [|contradiction].
  apply in_app_or in H. destruct H as [H|H].
  - match type of H with
    | In _ (if ?cnd then _ else _) => destruct cnd eqn:Ec
    end; [|contradiction].
    destruct H as [<-|[]]. left. fold piece. change (4 + 2) with 6.
    repeat (apply andb_true_iff in Ec; destruct Ec as [Ec ?]).
    match goal with
    | E : (cell _ _ 6 =? ".")%char = true |- _ => apply Ascii.eqb_eq in E; rewrite E
    end. apply same_dot.
  - match type of H with
    | In _ (if ?cnd then _ else _) => destruct cnd eqn:Ec
    end; [|contradiction].
    destruct H as [<-|[]]. left. fold piece. change (4 - 2) with 2.
    repeat (apply andb_true_iff in Ec; destruct Ec as [Ec ?]).
    match goal with
    | E : (cell _ _ 2 =? ".")%char = true |- _ => apply Ascii.eqb_eq in E; rewrite E
    end. apply same_dot.
Qed.

(** ** The en-passant square is empty *)

(** No en-passant square is set, or the square it names is empty. *)
Definition ep_free (b : t) : Prop :=
  ep b = "-"%string \/ cell (board b) (ep_row (ep b)) (ep_col (ep b)) = "."%char.

(** A move of a piece other than a king leaves empty every empty square
    it does not land on. *)
Lemma apply_raw_keeps_dot (b : t) (fr fc tr tc : Z) (promo : option ascii) (r c : Z) :
  cell (board b) r c = "."%char ->
  Z.to_nat tr <> Z.to_nat r \/ Z.to_nat tc <> Z.to_nat c ->
  (lower (cell (board b) fr fc) =? "k")%char = false ->
  cell (board (apply_raw b (fr, fc, tr, tc, promo))) r c = "."%char.
Proof.
  intros Hd Hne Hk. unfold apply_raw. cbn [board]. rewrite Hk.
  destruct promo;
    repeat match goal with |- context [if ?cnd then _ else _] => destruct cnd end;
    rewrite ?cell_set_cell_other by exact Hne;
    apply cell_set_cell_dot;
    rewrite ?cell_set_cell_other by exact Hne;
    try apply cell_set_cell_dot; exact Hd.
Qed.

Lemma fwd_of_unit (piece : ascii) : fwd_of piece = -1 \/ fwd_of piece = 1.
Proof. unfold fwd_of. destruct (isupper piece); auto. Qed.

(** The en-passant field a double step writes names the square the
    pawn passed. *)
Lemma ep_square_read (r c : Z) :
  0 <= r < 8 -> 0 <= c < 8 ->
  ep_row (str1 (chr (ord "a" + c)) ++ str (8 - r)) = r
  /\ ep_col (str1 (chr (ord "a" + c)) ++ str (8 - r)) = c.
Proof.
  intros Hr Hc. destruct (rank_char r Hr) as (d & -> & _ & Hi).
  destruct (file_char c Hc) as (Hf & _).
  change (str1 (chr (ord "a" + c)) ++ str1 d)%string
    with (String (chr (ord "a" + c)) (String d "")).
  unfold ep_row, ep_col, at_. cbn [String.get].
  rewrite Hi, Hf. split; lia.
Qed.

Lemma apply_raw_ep_free (b : t) (m : Move) :
  In m (legal_moves b None) -> ep_free (apply_raw b m).
Proof.
  intros H. destruct (legal_ok b None m H) as (fr & fc & tr & tc & promo & -> & V & Hok & _).
  destruct Hok as (Vt & Hne & Hk).
  assert (Ee : ep (apply_raw b (fr, fc, tr, tc, promo))
               = if (lower (cell (board b) fr fc) =? "p")%char && (Z.abs (fr - tr) =? 2)
                 then (str1 (chr (ord "a" + fc)) ++ str (8 - (fr + tr) / 2))%string
                 else "-"%string) by reflexivity.
  destruct (_ && _) eqn:Ec; [|left; exact Ee].
  apply andb_true_iff in Ec. destruct Ec as [Ep Ea].
  apply Ascii.eqb_eq in Ep. apply Z.eqb_eq in Ea.
  apply valid_range in V, Vt.
  destruct (fwd_of_unit (cell (board b) fr fc)) as [Ef|Ef].
  all: destruct Hk as [(_ & _ & Hg)|[(_ & Hn)|(_ & Hn & _)]];
    [|rewrite Ep in Hn; destruct Hn as [Hn|[Hn|[Hn|Hn]]]; discriminate
     |rewrite Ep in Hn; discriminate].
  all: destruct Hg as [(_ & Ht)|[(-> & Ht & Hd)|(_ & Ht & _)]]; try lia.
  all: right; rewrite Ee.
  all: replace ((fr + tr) / 2) with (fr + fwd_of (cell (board b) fr fc))
    by (rewrite Ht, Ef; apply Z.div_unique_exact; lia).
  all: destruct (ep_square_read (fr + fwd_of (cell (board b) fr fc)) fc) as [-> ->]; try lia.
  all: apply apply_raw_keeps_dot; [exact Hd|lia|rewrite Ep; reflexivity].
Qed.

Lemma play_ep_free (ucis : list string) :
  forall b0 b : t, ep_free b0 -> play b0 ucis = Some b -> ep_free b.
Proof.
  induction ucis as [|u us IH]; intros b0 b H0 H; cbn [play] in H.
  - injection H as <-. exact H0.
  - destruct (apply_uci b0 u) as [[msg|san cap] b1] eqn:E; [discriminate|].
    refine (IH b1 b _ H).
    destruct (apply_uci_effect _ _ _ _ _ E) as (m & _ & Hin & Hb & _ & _ & He & _).
    pose proof (apply_raw_ep_free b0 m Hin) as F. unfold ep_free in *.
    rewrite Hb, He. exact F.
Qed.

(** X30.  In every game played from the starting position no legal move
    lands on a piece of the mover's own side: the square it moves to is
    empty or holds a piece of the other side. *)
Theorem never_takes_own_piece (ucis : list string) (b : t) (fr fc tr tc : Z)
    (promo : option ascii) :
  play init ucis = Some b ->
  In (fr, fc, tr, tc, promo) (legal_moves b None) ->
  same (cell (board b) fr fc) (cell (board b) tr tc) = false.
Proof.
  intros Hp Hin.
  assert (F : ep_free b) by (apply (play_ep_free ucis init b); [left; reflexivity|exact Hp]).
  destruct (pseudo_lands b fr fc _ (legal_from_pseudo _ _ _ _ _ _ Hin)) as [H|(Hne & -> & ->)];
    [exact H|].
  destruct F as [F|F]; [rewrite F in Hne; discriminate|].
  rewrite F. apply same_dot.
Qed.

Lemma never_takes_own_piece_witness :
  same (cell (board (position_after ["e2e4"; "d7d5"]%string)) 4 4)
       (cell (board (position_after ["e2e4"; "d7d5"]%string)) 3 3) = false.
Proof.
  apply (never_takes_own_piece ["e2e4"; "d7d5"]%string _ 4 4 3 3 None).
  - vm_compute. reflexivity.
  - vm_compute. tauto.
Defined.

End CaptureFacts.

(** * The SAN round trip *)

Module SanFacts.
Import Py Board OpeningBook BoardFacts PositionFacts MoveFacts.

(** ** Cleaned texts as lists of characters *)

Lemma chars_app (s1 s2 : string) : chars (s1 ++ s2) = chars s1 ++ chars s2.
Proof.
  unfold chars. induction s1 as [|c s1 IH]; [reflexivity|].
  change (String c s1 ++ s2)%string with (String c (s1 ++ s2)).
  cbn [list_ascii_of_string]. rewrite IH. reflexivity.
Qed.

Lemma chars_inj (s1 s2 : string) : chars s1 = chars s2 -> s1 = s2.
Proof.
  unfold chars. intros H.
  rewrite <- (string_of_list_ascii_of_string s1), H.
  apply string_of_list_ascii_of_string.
Qed.

(** The characters [clean] keeps. *)
Definition kept (d : ascii) : bool :=
  negb ("+" =? d)%char && (negb ("#" =? d)%char && negb ("x" =? d)%char).

Lemma chars_remove_char (c : ascii) (s : string) :
  chars (remove_char c s) = List.filter (fun d => negb (c =? d)%char) (chars s).
Proof.
  unfold chars. induction s as [|d s IH]; [reflexivity|].
  cbn [remove_char list_ascii_of_string List.filter].
  destruct (c =? d)%char; cbn [negb list_ascii_of_string]; rewrite IH; reflexivity.
Qed.

Lemma filter_twice {A : Type} (f g : A -> bool) (l : list A) :
  List.filter f (List.filter g l) = List.filter (fun x => g x && f x) l.
Proof.
  induction l as [|x l IH]; [reflexivity|]. cbn [List.filter].
  destruct (g x); cbn [andb List.filter]; [destruct (f x)|]; rewrite IH; reflexivity.
Qed.

Lemma chars_clean (s : string) : chars (clean s) = List.filter kept (chars s).
Proof.
  unfold clean. rewrite !chars_remove_char, !filter_twice. reflexivity.
Qed.

Lemma filter_kept_all (l : list ascii) :
  forallb kept l = true -> List.filter kept l = l.
Proof.
  induction l as [|x l IH]; [reflexivity|]. cbn [forallb List.filter].
  intros H. apply andb_true_iff in H. destruct H as [-> H]. rewrite IH by exact H.
  reflexivity.
Qed.

(** ** The characters of a SAN text *)

Definition file_letter (c : Z) : ascii := chr (ord "a" + c).
Definition rank_digit (r : Z) : ascii := chr (ord "8" - r).

(** Classes of characters: file letters, rank digits, piece letters,
    and the signs of castling and promotion. *)
Definition cls (c : ascii) : nat :=
  let n := ord c in
  if (97 <=? n) && (n <=? 104) then 1
  else if (49 <=? n) && (n <=? 56) then 2
  else if char_in c "NBRQK" then 3
  else if (c =? "O")%char then 4
  else if (c =? "=")%char then 5
  else 0.

Lemma rank_str (r : Z) : 0 <= r < 8 -> chars (str (8 - r)) = [rank_digit r].
Proof.
  intros H.
  assert (E : (str (8 - r) =? str1 (rank_digit r))%string = true).
  { apply (range_check (fun r => (str (8 - r) =? str1 (rank_digit r))%string) 0 8);
      [reflexivity|lia]. }
  apply String.eqb_eq in E. rewrite E. reflexivity.
Qed.

Lemma square_chars (r c : Z) :
  valid r c = true -> chars (square_name r c) = [file_letter c; rank_digit r].
Proof.
  intros V. apply valid_range in V. unfold square_name.
  rewrite chars_app, rank_str by lia. reflexivity.
Qed.

Lemma file_letter_facts (c : Z) :
  0 <= c < 8 -> cls (file_letter c) = 1%nat /\ kept (file_letter c) = true
                /\ ord (file_letter c) - 97 = c.
Proof.
  intros H.
  assert (E : (cls (file_letter c) =? 1)%nat && kept (file_letter c)
              && (ord (file_letter c) - 97 =? c) = true).
  { apply (range_check (fun c => (cls (file_letter c) =? 1)%nat && kept (file_letter c)
                                 && (ord (file_letter c) - 97 =? c)) 0 8);
      [reflexivity|lia]. }
  apply andb_true_iff in E. destruct E as [E E3].
  apply andb_true_iff in E. destruct E as [E1 E2].
  apply Nat.eqb_eq in E1. apply Z.eqb_eq in E3. auto.
Qed.

Lemma rank_digit_facts (r : Z) :
  0 <= r < 8 -> cls (rank_digit r) = 2%nat /\ kept (rank_digit r) = true
                /\ 56 - ord (rank_digit r) = r.
Proof.
  intros H.
  assert (E : (cls (rank_digit r) =? 2)%nat && kept (rank_digit r)
              && (56 - ord (rank_digit r) =? r) = true).
  { apply (range_check (fun r => (cls (rank_digit r) =? 2)%nat && kept (rank_digit r)
                                 && (56 - ord (rank_digit r) =? r)) 0 8);
      [reflexivity|lia]. }
  apply andb_true_iff in E. destruct E as [E E3].
  apply andb_true_iff in E. destruct E as [E1 E2].
  apply Nat.eqb_eq in E1. apply Z.eqb_eq in E3. auto.
Qed.

Lemma file_letter_inj (c1 c2 : Z) :
  0 <= c1 < 8 -> 0 <= c2 < 8 -> file_letter c1 = file_letter c2 -> c1 = c2.
Proof.
  intros H1 H2 E.
  destruct (file_letter_facts c1 H1) as (_ & _ & <-).
  destruct (file_letter_facts c2 H2) as (_ & _ & <-). rewrite E. reflexivity.
Qed.

Lemma rank_digit_inj (r1 r2 : Z) :
  0 <= r1 < 8 -> 0 <= r2 < 8 -> rank_digit r1 = rank_digit r2 -> r1 = r2.
Proof.
  intros H1 H2 E.
  destruct (rank_digit_facts r1 H1) as (_ & _ & <-).
  destruct (rank_digit_facts r2 H2) as (_ & _ & <-). rewrite E. reflexivity.
Qed.

(** The kinds of pieces other than pawns, and their SAN letters. *)
Definition officer (p : ascii) : Prop :=
  p = "n"%char \/ p = "b"%char \/ p = "r"%char \/ p = "q"%char \/ p = "k"%char.

Lemma officer_facts (p : ascii) :
  officer p -> cls (upper p) = 3%nat /\ kept (upper p) = true /\ (p =? "p")%char = false.
Proof. intros [-> | [-> | [-> | [-> | ->]]]]; repeat split; reflexivity. Qed.

Lemma officer_inj (p1 p2 : ascii) :
  officer p1 -> officer p2 -> upper p1 = upper p2 -> p1 = p2.
Proof.
  intros [-> | [-> | [-> | [-> | ->]]]] [-> | [-> | [-> | [-> | ->]]]] E;
    first [reflexivity | discriminate E].
Qed.

Lemma promo_facts (p : ascii) :
  In p promos -> cls (upper p) = 3%nat /\ kept (upper p) = true.
Proof.
  intros H. cbn in H.
  repeat (destruct H as [<-|H]; [split; reflexivity|]). contradiction.
Qed.

Lemma promo_inj (p1 p2 : ascii) :
  In p1 promos -> In p2 promos -> upper p1 = upper p2 -> p1 = p2.
Proof.
  intros H1 H2 E. cbn in H1, H2.
  repeat (destruct H1 as [<-|H1]; [|]);
    repeat (destruct H2 as [<-|H2]; [first [reflexivity | discriminate E]|]);
    contradiction.
Qed.

(** The characters of the promotion suffix. *)
Definition promo_chars (promo : option ascii) : list ascii :=
  match promo with
  | Some pr => ["="%char; upper pr]
  | None => []
  end.

(** The other legal moves [_build_san] tells the move apart from: same
    target, same promotion, same kind of piece, another origin. *)
Definition rivals (b : t) (m : Move) (legal : list Move) : list Move :=
  let '(fr, fc, tr, tc, promo) := m in
  List.filter
    (fun '(m0, m1, m2, m3, m4) =>
       (m2 =? tr) && (m3 =? tc) && promo_eqb m4 promo
       && (lower (cell (board b) m0 m1) =? lower (cell (board b) fr fc))%char
       && negb ((m0 =? fr) && (m1 =? fc)))
    legal.

(** The characters that tell the origin of a piece move. *)
Definition dis_chars (b : t) (m : Move) (legal : list Move) : list ascii :=
  let '(fr, fc, tr, tc, promo) := m in
  let ambig := rivals b m legal in
  match ambig with
  | [] => []
  | _ =>
      if negb (existsb (fun '(m0, m1, m2, m3, m4) => m1 =? fc) ambig)
      then [file_letter fc]
      else if negb (existsb (fun '(m0, m1, m2, m3, m4) => m0 =? fr) ambig)
           then [rank_digit fr]
           else [file_letter fc; rank_digit fr]
  end.

(** The kinds of SAN texts. *)
Inductive san_kind : Type := Short | Long | Pawn | Officer.

Definition kind_of (b : t) (m : Move) : san_kind :=
  let '(fr, fc, tr, tc, promo) := m in
  let p := lower (cell (board b) fr fc) in
  if (p =? "k")%char && (fc =? 4) && (tc =? 6) then Short
  else if (p =? "k")%char && (fc =? 4) && (tc =? 2) then Long
  else if (p =? "p")%char then Pawn
  else Officer.

(** The characters of the SAN text of a move, without the capture mark. *)
Definition san_chars (b : t) (m : Move) (legal : list Move) : list ascii :=
  let '(fr, fc, tr, tc, promo) := m in
  match kind_of b m with
  | Short => chars "O-O"
  | Long => chars "O-O-O"
  | Pawn =>
      (if san_is_cap b m then [file_letter fc] else [])
      ++ [file_letter tc; rank_digit tr] ++ promo_chars promo
  | Officer =>
      upper (lower (cell (board b) fr fc)) :: dis_chars b m legal
      ++ [file_letter tc; rank_digit tr]
  end.

Lemma promo_chars_kept (promo : option ascii) :
  match promo with None => True | Some x => In x promos end ->
  chars (promo_suffix promo) = promo_chars promo
  /\ forallb kept (promo_chars promo) = true.
Proof.
  destruct promo as [pr|]; [|split; reflexivity].
  intros H. destruct (promo_facts pr H) as [_ K]. split; [reflexivity|].
  cbn [promo_chars forallb]. rewrite K. reflexivity.
Qed.

Lemma dis_chars_kept (b : t) (fr fc tr tc : Z) (promo : option ascii)
    (legal : list Move) :
  valid fr fc = true ->
  forallb kept (dis_chars b (fr, fc, tr, tc, promo) legal) = true.
Proof.
  intros V. apply valid_range in V.
  destruct (file_letter_facts fc ltac:(lia)) as (_ & Kf & _).
  destruct (rank_digit_facts fr ltac:(lia)) as (_ & Kr & _).
  unfold dis_chars. cbv zeta. destruct (rivals _ _ _); [reflexivity|].
  repeat match goal with |- context [if ?c then _ else _] => destruct c end;
    cbn [forallb]; rewrite ?Kf, ?Kr; reflexivity.
Qed.

(** The text that tells the origin of a piece move. *)
Definition dis_text (b : t) (m : Move) (legal : list Move) : string :=
  let '(fr, fc, tr, tc, promo) := m in
  let ambig := rivals b m legal in
  match ambig with
  | [] => ""%string
  | _ =>
      if negb (existsb (fun '(m0, m1, m2, m3, m4) => m1 =? fc) ambig)
      then str1 (chr (ord "a" + fc))
      else if negb (existsb (fun '(m0, m1, m2, m3, m4) => m0 =? fr) ambig)
           then str (8 - fr)
           else (str1 (chr (ord "a" + fc)) ++ str (8 - fr))%string
  end.

Lemma dis_text_chars (b : t) (fr fc tr tc : Z) (promo : option ascii)
    (legal : list Move) :
  valid fr fc = true ->
  chars (dis_text b (fr, fc, tr, tc, promo) legal)
  = dis_chars b (fr, fc, tr, tc, promo) legal.
Proof.
  intros V. apply valid_range in V. unfold dis_text, dis_chars. cbv zeta.
  destruct (rivals b (fr, fc, tr, tc, promo) legal); [reflexivity|].
  repeat match goal with |- context [if ?c then _ else _] => destruct c end;
    rewrite ?chars_app, ?rank_str by lia; reflexivity.
Qed.

(** [_build_san], by the kind of the move. *)
Lemma build_san_text (b : t) (fr fc tr tc : Z) (promo : option ascii)
    (legal : list Move) :
  build_san b (fr, fc, tr, tc, promo) legal
  = match kind_of b (fr, fc, tr, tc, promo) with
    | Short => "O-O"
    | Long => "O-O-O"
    | Pawn =>
        (if san_is_cap b (fr, fc, tr, tc, promo)
         then str1 (chr (ord "a" + fc)) ++ "x" ++ square_name tr tc
         else square_name tr tc) ++ promo_suffix promo
    | Officer =>
        str1 (upper (lower (cell (board b) fr fc)))
        ++ dis_text b (fr, fc, tr, tc, promo) legal
        ++ (if san_is_cap b (fr, fc, tr, tc, promo) then "x" else "")
        ++ square_name tr tc ++ promo_suffix promo
    end%string.
Proof.
  unfold build_san, kind_of. cbv zeta.
  destruct (_ && _ && (tc =? 6)); [reflexivity|].
  destruct (_ && _ && (tc =? 2)); [reflexivity|].
  destruct (lower (cell (board b) fr fc) =? "p")%char eqn:Ep;
    unfold san_is_cap; rewrite ?Ep; reflexivity.
Qed.

(** The cleaned SAN text of a legal move, character by character. *)
Lemma clean_build_san (b : t) (m : Move) (legal : list Move) :
  (let '(fr, fc, tr, tc, promo) := m in valid fr fc = true) ->
  move_ok b m ->
  chars (clean (build_san b m legal)) = san_chars b m legal.
Proof.
  destruct m as [[[[fr fc] tr] tc] promo]. intros V Hok. pose proof Hok as (Vt & Hne & Hk).
  pose proof V as V'. apply valid_range in V'.
  pose proof Vt as Vt'. apply valid_range in Vt'.
  destruct (file_letter_facts fc ltac:(lia)) as (_ & Kfc & _).
  destruct (file_letter_facts tc ltac:(lia)) as (_ & Ktc & _).
  destruct (rank_digit_facts tr ltac:(lia)) as (_ & Ktr & _).
  rewrite chars_clean, build_san_text. unfold san_chars.
  assert (Sq : chars (square_name tr tc) = [file_letter tc; rank_digit tr])
    by (apply square_chars; exact Vt).
  assert (Hpr : match promo with None => True | Some x => In x promos end).
  { destruct Hk as [(_ & Hpr & _)|[(-> & _)|(-> & _)]]; [exact Hpr|exact I|exact I]. }
  destruct (promo_chars_kept promo Hpr) as [Ep Kp].
  set (cap := san_is_cap b (fr, fc, tr, tc, promo)).
  destruct (kind_of b (fr, fc, tr, tc, promo)) eqn:Ek; [reflexivity|reflexivity| |].
  - rewrite chars_app, Ep. destruct cap.
    + rewrite !chars_app, Sq. cbn [chars list_ascii_of_string str1 app List.filter].
      fold (file_letter fc). rewrite Kfc. cbn [kept Ascii.eqb Bool.eqb negb andb].
      cbn [List.filter]. rewrite Ktc, Ktr. f_equal. f_equal. f_equal.
      apply filter_kept_all. exact Kp.
    + rewrite Sq. cbn [app List.filter]. rewrite Ktc, Ktr. f_equal. f_equal.
      apply filter_kept_all. exact Kp.
  - assert (Ho : officer (lower (cell (board b) fr fc)) /\ promo = None).
    { unfold officer. destruct Hk as [(Hp & _)|[(-> & H)|(-> & H & _)]]; [|tauto|tauto].
      unfold kind_of in Ek. rewrite Hp in Ek. discriminate Ek. }
    destruct Ho as [Ho ->]. destruct (officer_facts _ Ho) as (_ & Kp' & _).
    change (promo_suffix None) with ""%string.
    rewrite !chars_app, Sq, dis_text_chars by exact V.
    cbn [chars list_ascii_of_string str1 app List.filter]. rewrite Kp'. f_equal.
    rewrite !List.filter_app, (filter_kept_all _ (dis_chars_kept b fr fc tr tc None legal V)).
    f_equal. destruct cap; cbn [chars list_ascii_of_string List.filter app];
      cbn [kept Ascii.eqb Bool.eqb negb andb]; rewrite ?Ktc, ?Ktr; reflexivity.
Qed.

(** ** Telling moves apart *)

Lemma existsb_false {A : Type} (f : A -> bool) (l : list A) (x : A) :
  existsb f l = false -> In x l -> f x = false.
Proof.
  intros H Hin. destruct (f x) eqn:E; [|reflexivity].
  assert (T : existsb f l = true) by (apply existsb_exists; eauto). congruence.
Qed.

(** The three ways [_build_san] tells the origin, and what each says of
    the rivals. *)
Lemma dis_chars_cases (b : t) (fr fc tr tc : Z) (promo : option ascii)
    (legal : list Move) :
  let m := (fr, fc, tr, tc, promo) in
  (rivals b m legal = [] /\ dis_chars b m legal = [])
  \/ (dis_chars b m legal = [file_letter fc]
      /\ forall fr' fc' tr' tc' promo',
           In (fr', fc', tr', tc', promo') (rivals b m legal) -> fc' <> fc)
  \/ (dis_chars b m legal = [rank_digit fr]
      /\ forall fr' fc' tr' tc' promo',
           In (fr', fc', tr', tc', promo') (rivals b m legal) -> fr' <> fr)
  \/ dis_chars b m legal = [file_letter fc; rank_digit fr].
Proof.
  cbv zeta. unfold dis_chars. cbv zeta.
  destruct (rivals b (fr, fc, tr, tc, promo) legal) as [|r0 rs] eqn:Er; [auto|].
  destruct (existsb (fun '(_, m1, _, _, _) => m1 =? fc) (r0 :: rs)) eqn:Ef; cbn [negb].
  - destruct (existsb (fun '(m0, _, _, _, _) => m0 =? fr) (r0 :: rs)) eqn:Eg; cbn [negb].
    + auto.
    + right. right. left. split; [reflexivity|].
      intros fr' fc' tr' tc' promo' Hin.
      pose proof (existsb_false _ _ _ Eg Hin) as H. cbn in H. lia.
  - right. left. split; [reflexivity|].
    intros fr' fc' tr' tc' promo' Hin.
    pose proof (existsb_false _ _ _ Ef Hin) as H. cbn in H. lia.
Qed.

(** Another legal move of the same kind of piece to the same square is
    a rival. *)
Lemma rival_in (b : t) (legal : list Move) (fr fc fr' fc' tr tc : Z) :
  In (fr', fc', tr, tc, None) legal ->
  lower (cell (board b) fr' fc') = lower (cell (board b) fr fc) ->
  (fr', fc') <> (fr, fc) ->
  In (fr', fc', tr, tc, None) (rivals b (fr, fc, tr, tc, None) legal).
Proof.
  intros Hin Hp Hne. unfold rivals. apply filter_In. split; [exact Hin|].
  rewrite !Z.eqb_refl, Hp, Ascii.eqb_refl. cbn [promo_eqb andb].
  apply negb_true_iff, andb_false_iff.
  destruct (Z.eqb_spec fr' fr) as [->|]; [|auto]. right.
  apply Z.eqb_neq. intros ->. apply Hne. reflexivity.
Qed.

(** What a legal move is, by its kind. *)
Lemma kind_facts (b : t) (fr fc tr tc : Z) (promo : option ascii) :
  move_ok b (fr, fc, tr, tc, promo) ->
  let piece := cell (board b) fr fc in
  match kind_of b (fr, fc, tr, tc, promo) with
  | Short => promo = None /\ fc = 4 /\ tc = 6 /\ fr = home_row piece /\ tr = home_row piece
  | Long => promo = None /\ fc = 4 /\ tc = 2 /\ fr = home_row piece /\ tr = home_row piece
  | Pawn =>
      match promo with None => True | Some x => In x promos end
      /\ ((tc = fc /\ tr = fr + fwd_of piece)
          \/ (tc = fc /\ tr = fr + 2 * fwd_of piece
              /\ cell (board b) (fr + fwd_of piece) fc = "."%char)
          \/ (tc <> fc /\ tr = fr + fwd_of piece
              /\ san_is_cap b (fr, fc, tr, tc, promo) = true))
  | Officer => promo = None /\ officer (lower piece)
  end.
Proof.
  intros (_ & _ & Hk). cbv zeta. unfold kind_of.
  destruct Hk as [(Hp & Hpr & Hg)|[(-> & Ho)|(-> & Hking & Hc)]].
  - rewrite Hp. cbn [Ascii.eqb Bool.eqb andb]. auto.
  - assert (Ek : (lower (cell (board b) fr fc) =? "k")%char = false
                 /\ (lower (cell (board b) fr fc) =? "p")%char = false).
    { destruct Ho as [-> | [-> | [-> | ->]]]; split; reflexivity. }
    destruct Ek as [-> ->]. cbn [andb]. split; [reflexivity|]. unfold officer. tauto.
  - rewrite Hking. cbn [Ascii.eqb Bool.eqb andb].
    destruct (Z.eqb_spec fc 4) as [E4|]; cbn [andb].
    + destruct (Z.eqb_spec tc 6) as [E6|].
      * destruct (Hc E4 (or_introl E6)). auto.
      * destruct (Z.eqb_spec tc 2) as [E2|].
        -- destruct (Hc E4 (or_intror E2)). auto.
        -- split; [reflexivity|]. unfold officer. auto 6.
    + split; [reflexivity|]. unfold officer. auto 6.
Qed.

(** The first character of a SAN text tells its kind. *)
Definition kind_class (k : san_kind) : nat :=
  match k with Short | Long => 4 | Pawn => 1 | Officer => 3 end.

Lemma san_chars_head (b : t) (fr fc tr tc : Z) (promo : option ascii)
    (legal : list Move) :
  valid fr fc = true -> move_ok b (fr, fc, tr, tc, promo) ->
  exists c rest,
    san_chars b (fr, fc, tr, tc, promo) legal = c :: rest
    /\ cls c = kind_class (kind_of b (fr, fc, tr, tc, promo)).
Proof.
  intros V Hok. pose proof (kind_facts b fr fc tr tc promo Hok) as Hk. cbv zeta in Hk.
  destruct Hok as (Vt & _ & _).
  apply valid_range in V, Vt.
  destruct (file_letter_facts fc ltac:(lia)) as (Cfc & _ & _).
  destruct (file_letter_facts tc ltac:(lia)) as (Ctc & _ & _).
  unfold san_chars. destruct (kind_of b (fr, fc, tr, tc, promo)).
  - eexists _, _. split; reflexivity.
  - eexists _, _. split; reflexivity.
  - destruct (san_is_cap _ _); eexists _, _; (split; [reflexivity|]); assumption.
  - destruct Hk as [_ Ho]. destruct (officer_facts _ Ho) as (C & _ & _).
    eexists _, _. split; [reflexivity|exact C].
Qed.

(** No two legal moves of a position have the same SAN text, capture
    mark apart. *)
Lemma san_chars_inj (b : t) (m1 m2 : Move) :
  In m1 (legal_moves b None) -> In m2 (legal_moves b None) ->
  san_chars b m1 (legal_moves b None) = san_chars b m2 (legal_moves b None) ->
  m1 = m2.
Proof.
  intros L1 L2 E.
  destruct (legal_ok b None m1 L1) as (fr1 & fc1 & tr1 & tc1 & promo1 & -> & V1 & Ok1 & S1).
  destruct (legal_ok b None m2 L2) as (fr2 & fc2 & tr2 & tc2 & promo2 & -> & V2 & Ok2 & S2).
  set (L := legal_moves b None) in *.
  pose proof (kind_facts b fr1 fc1 tr1 tc1 promo1 Ok1) as K1.
  pose proof (kind_facts b fr2 fc2 tr2 tc2 promo2 Ok2) as K2. cbv zeta in K1, K2.
  destruct (san_chars_head b fr1 fc1 tr1 tc1 promo1 L V1 Ok1) as (c1 & rest1 & H1 & C1).
  destruct (san_chars_head b fr2 fc2 tr2 tc2 promo2 L V2 Ok2) as (c2 & rest2 & H2 & C2).
  assert (Ec : c1 = c2) by congruence.
  rewrite Ec, C2 in C1. clear H1 H2 Ec C2 c1 c2 rest1 rest2.
  destruct Ok1 as (Vt1 & Ne1 & _). destruct Ok2 as (Vt2 & Ne2 & _).
  pose proof V1 as R1. pose proof V2 as R2. pose proof Vt1 as Rt1. pose proof Vt2 as Rt2.
  apply valid_range in R1, R2, Rt1, Rt2.
  assert (Eh : home_row (cell (board b) fr1 fc1) = home_row (cell (board b) fr2 fc2))
    by (unfold home_row; rewrite S1, S2; reflexivity).
  assert (Ew : fwd_of (cell (board b) fr1 fc1) = fwd_of (cell (board b) fr2 fc2))
    by (unfold fwd_of; rewrite S1, S2; reflexivity).
  unfold san_chars in E.
  destruct (kind_of b (fr1, fc1, tr1, tc1, promo1)) eqn:Ek1;
    destruct (kind_of b (fr2, fc2, tr2, tc2, promo2)) eqn:Ek2;
    try discriminate C1; try discriminate E.
  - (* both castle short *)
    destruct K1 as (-> & -> & -> & -> & ->). destruct K2 as (-> & -> & -> & -> & ->).
    rewrite Eh. reflexivity.
  - destruct K1 as (-> & -> & -> & -> & ->). destruct K2 as (-> & -> & -> & -> & ->).
    rewrite Eh. reflexivity.
  - (* two pawn moves *)
    destruct K1 as [P1 G1]. destruct K2 as [P2 G2].
    set (cap1 := san_is_cap b (fr1, fc1, tr1, tc1, promo1)) in *.
    set (cap2 := san_is_cap b (fr2, fc2, tr2, tc2, promo2)) in *.
    assert (Q : cap1 = cap2 /\ tc1 = tc2 /\ tr1 = tr2 /\ promo1 = promo2
                /\ (cap1 = true -> fc1 = fc2)).
    { destruct cap1, cap2, promo1 as [x1|], promo2 as [x2|];
        cbn [app promo_chars] in E; try discriminate E;
        injection E as E; repeat (match goal with H : _ = _ |- _ =>
          first [apply file_letter_inj in H; [|lia|lia]
                |apply rank_digit_inj in H; [|lia|lia]
                |apply (promo_inj _ _ P1 P2) in H] end);
        subst; repeat split; try reflexivity; try discriminate; auto. }
    destruct Q as (Ec & -> & -> & -> & Hc).
    assert (Ef : fc1 = fc2).
    { destruct cap1 eqn:E1; [auto|].
      destruct G1 as [(-> & _)|[(-> & _)|(_ & _ & F)]]; [| |discriminate F];
        (destruct G2 as [(-> & _)|[(-> & _)|(_ & _ & F)]];
         [reflexivity|reflexivity|fold cap2 in F; congruence]). }
    subst fc2. rewrite <- Ew in G2.
    set (fwd := fwd_of (cell (board b) fr1 fc1)) in *.
    assert (Er : fr1 = fr2).
    { destruct G1 as [(T1 & F1)|[(T1 & F1 & D1)|(T1 & F1 & _)]];
        destruct G2 as [(T2 & F2)|[(T2 & F2 & D2)|(T2 & F2 & _)]];
        try lia; try congruence.
      - exfalso. apply Ne1. replace fr1 with (fr2 + fwd) by lia. exact D2.
      - exfalso. apply Ne2. replace fr2 with (fr1 + fwd) by lia. exact D1. }
    subst fr2. reflexivity.
  - (* two piece moves *)
    destruct K1 as [-> O1]. destruct K2 as [-> O2].
    remember (dis_chars b (fr1, fc1, tr1, tc1, None) L) as d1 eqn:Hd1.
    remember (dis_chars b (fr2, fc2, tr2, tc2, None) L) as d2 eqn:Hd2.
    injection E as Ep E.
    apply (officer_inj _ _ O1 O2) in Ep.
    apply app_inj_2 in E; [|reflexivity]. destruct E as [Ed Es].
    injection Es as Ec Er.
    apply file_letter_inj in Ec; [|lia|lia]. apply rank_digit_inj in Er; [|lia|lia].
    subst tc2 tr2 d1 d2.
    destruct (decide ((fr2, fc2) = (fr1, fc1))) as [[= -> ->]|Hne]; [reflexivity|].
    exfalso.
    assert (Hne' : (fr1, fc1) <> (fr2, fc2)) by congruence.
    pose proof (rival_in b L fr1 fc1 fr2 fc2 tr1 tc1 L2 (eq_sym Ep) Hne) as I2.
    pose proof (rival_in b L fr2 fc2 fr1 fc1 tr1 tc1 L1 Ep Hne') as I1.
    destruct (file_letter_facts fc1 ltac:(lia)) as (Cf1 & _ & _).
    destruct (file_letter_facts fc2 ltac:(lia)) as (Cf2 & _ & _).
    destruct (rank_digit_facts fr1 ltac:(lia)) as (Cr1 & _ & _).
    destruct (rank_digit_facts fr2 ltac:(lia)) as (Cr2 & _ & _).
    destruct (dis_chars_cases b fr1 fc1 tr1 tc1 None L)
      as [[N1 _]|[[D1 F1]|[[D1 F1]|D1]]];
      [rewrite N1 in I2; destruct I2| | |];
      (destruct (dis_chars_cases b fr2 fc2 tr1 tc1 None L)
         as [[N2 _]|[[D2 F2]|[[D2 F2]|D2]]];
       [rewrite N2 in I1; destruct I1| | |]);
      rewrite D1, D2 in Ed; try discriminate Ed;
      try (injection Ed as Ed; rewrite Ed in Cf1; congruence);
      try (injection Ed as Ed; rewrite Ed in Cr1; congruence).
    + injection Ed as Ed.
      apply file_letter_inj in Ed; [|lia|lia]. exact (F1 _ _ _ _ _ I2 (eq_sym Ed)).
    + injection Ed as Ed.
      apply rank_digit_inj in Ed; [|lia|lia]. exact (F1 _ _ _ _ _ I2 (eq_sym Ed)).
    + injection Ed as Ef Er.
      apply file_letter_inj in Ef; [|lia|lia]. apply rank_digit_inj in Er; [|lia|lia].
      apply Hne. congruence.
Qed.

(** ** The round trip *)

(** The signs [apply_uci] appends for check and mate. *)
Definition check_suffix (s : string) : Prop :=
  s = ""%string \/ s = "+"%string \/ s = "#"%string.

Lemma clean_suffix (san s : string) : check_suffix s -> clean (san ++ s) = clean san.
Proof.
  intros H. apply chars_inj. rewrite !chars_clean, chars_app, List.filter_app.
  destruct H as [-> | [-> | ->]]; cbn [chars list_ascii_of_string List.filter];
    cbn; apply app_nil_r.
Qed.

(** The test of the loop of [_san_to_uci]. *)
Definition san_matches (b : t) (san : string) (m : Move) : bool :=
  (clean (build_san b m (legal_moves b None)) =? clean san)%string
  || (build_san b m (legal_moves b None) =? san)%string.

(** Only the move itself matches its SAN text, with or without a check
    sign. *)
Lemma san_matches_self (b : t) (m m' : Move) (s : string) :
  In m (legal_moves b None) -> In m' (legal_moves b None) -> check_suffix s ->
  san_matches b (build_san b m (legal_moves b None) ++ s) m' = true <-> m' = m.
Proof.
  intros L L' Hs. unfold san_matches. rewrite (clean_suffix _ s Hs). split.
  - intros H.
    assert (E : clean (build_san b m' (legal_moves b None))
                = clean (build_san b m (legal_moves b None))).
    { apply orb_true_iff in H. destruct H as [H|H].
      - apply String.eqb_eq. exact H.
      - apply String.eqb_eq in H. rewrite H. apply clean_suffix. exact Hs. }
    apply (f_equal chars) in E.
    destruct (legal_ok b None m L) as (fr & fc & tr & tc & promo & Em & V & Ok & _).
    destruct (legal_ok b None m' L') as (fr' & fc' & tr' & tc' & promo' & Em' & V' & Ok' & _).
    rewrite !clean_build_san in E.
    + apply (san_chars_inj b m' m L' L E).
    + rewrite Em. exact V.
    + exact Ok.
    + rewrite Em'. exact V'.
    + exact Ok'.
  - intros ->. rewrite String.eqb_refl. reflexivity.
Qed.

(** C4.  The SAN text of a legal move, with or without the sign of
    check or mate, is parsed back by [_san_to_uci] to the token of that
    move, and it matches no other legal move of the position. *)
Theorem san_round_trip (b : t) (m : Move) (s : string) :
  In m (legal_moves b None) -> check_suffix s ->
  let san := (build_san b m (legal_moves b None) ++ s)%string in
  san_to_uci b san = Some (uci_of m)
  /\ forall m', In m' (legal_moves b None) ->
                (clean (build_san b m' (legal_moves b None)) = clean san
                 \/ build_san b m' (legal_moves b None) = san) ->
                m' = m.
Proof.
  intros L Hs san. split.
  - unfold san_to_uci. cbv zeta.
    change (fun move => (clean (build_san b move (legal_moves b None)) =? clean san)%string
                        || (build_san b move (legal_moves b None) =? san)%string)
      with (san_matches b san).
    destruct (List.find (san_matches b san) (legal_moves b None)) as [m0|] eqn:Ef.
    + apply find_some in Ef. destruct Ef as [L0 M0].
      apply (san_matches_self b m m0 s L L0 Hs) in M0. rewrite M0. reflexivity.
    + pose proof (find_none _ _ Ef m L) as H.
      pose proof (proj2 (san_matches_self b m m s L L Hs) eq_refl) as M.
      fold san in M. congruence.
  - intros m' L' H. apply (san_matches_self b m m' s L L' Hs).
    unfold san_matches. fold san. apply orb_true_iff.
    destruct H as [H|H]; [left|right]; apply String.eqb_eq; exact H.
Qed.

(** Two knights that reach the same square. *)
Definition two_knights : t := load_fen init "7k/8/8/8/8/8/8/KN3N2 w - - 0 1".

Lemma san_round_trip_witness :
  build_san two_knights (7, 1, 6, 3, None) (legal_moves two_knights None) = "Nbd2"%string
  /\ san_to_uci two_knights "Nbd2+" = Some "b1d2"%string
  /\ forall m', In m' (legal_moves two_knights None) ->
                (clean (build_san two_knights m' (legal_moves two_knights None))
                 = clean "Nbd2+"
                 \/ build_san two_knights m' (legal_moves two_knights None)
                    = "Nbd2+"%string) ->
                m' = (7, 1, 6, 3, None).
Proof.
  split; [vm_compute; reflexivity|].
  apply (san_round_trip two_knights (7, 1, 6, 3, None) "+").
  - vm_compute. tauto.
  - right. left. reflexivity.
Defined.

End SanFacts.
